(** * PaulStretch: the FFT, the rephaser and the stretch engine

    A shallow embedding of [src/index.js], [src/paulstretch-fft.js] and
    [src/stretch-worker.js].

    Conventions of the embedding:
    - sample arithmetic is exact real arithmetic: rounding to single
      precision is not modelled;
    - the arrays the transform works on (blocks, spectra, windows, phases)
      are [list R]; the channel arrays of an AudioBuffer are lists of
      [sample]s, each a number or NaN, since the overlap-add can store
      NaN in them;
    - a read outside an array gives [undefined] in JavaScript.  In the
      overlap-add, where the code adds what it read, the sum is NaN, and it
      is NaN here.  Every other read of the code is [None] outside its array,
      as is the read of an input sample that is NaN;
    - a write outside a typed array is ignored in JavaScript, and here as
      well;
    - the sizes of arrays are naturals; the counters that [<<] and [>>]
      shift are integers, and the shifts are the 32-bit ones;
    - a [while] loop, and a [for] loop whose step is not the constant one,
      runs on fuel and is [None] when the fuel runs out;
    - [stretch] is called without a progress callback. *)

From Stdlib Require Import String.
From Stdlib Require Import Reals Lra Lia List Arith ZArith QArith Qround Qabs Bool.
From Stdlib Require Import Permutation Sorted.
Import ListNotations.

(** ** Option monad and loops *)

Definition bind {A B : Type} (m : option A) (k : A -> option B) : option B :=
  match m with
  | Some a => k a
  | None => None
  end.

Notation "x <- m ;; k" := (bind m (fun x => k))
  (at level 61, m at next level, right associativity).
Notation "' pat <- m ;; k" := (bind m (fun x => match x with pat => k end))
  (at level 61, pat pattern, m at next level, right associativity).

(** [for (let i = lo; i < lo + cnt; i++) s = body(i, s)] *)
Fixpoint for_loop {St : Type} (i cnt : nat) (body : nat -> St -> option St) (s : St)
  : option St :=
  match cnt with
  | O => Some s
  | S c => s' <- body i s ;; for_loop (S i) c body s'
  end.

(** The same loop for a body that reads no array. *)
Fixpoint for_each {St : Type} (i cnt : nat) (body : nat -> St -> St) (s : St) : St :=
  match cnt with
  | O => s
  | S c => for_each (S i) c body (body i s)
  end.

(** [while (cond(s)) s = body(s)] *)
Fixpoint while_loop {St : Type} (fuel : nat) (cond : St -> bool)
  (body : St -> option St) (s : St) : option St :=
  match fuel with
  | O => None
  | S f => if cond s then s' <- body s ;; while_loop f cond body s' else Some s
  end.

(** ** Typed arrays *)

(** [a[i]] as a value that is used: outside the array it is [undefined] *)
Definition get {A : Type} (a : list A) (i : nat) : option A := nth_error a i.

(** [a[i] = v] *)
Fixpoint set {A : Type} (a : list A) (i : nat) (v : A) : list A :=
  match a, i with
  | [], _ => []
  | _ :: t, O => v :: t
  | h :: t, S i' => h :: set t i' v
  end.

(** [new Float32Array(n)] *)
Definition zeros (n : nat) : list R := repeat 0%R n.

(** The index a JavaScript number denotes: an element exists only at a
    number that is a natural. *)
Definition index_of (q : Q) : option nat :=
  let r := Qred q in
  if ((Qden r =? 1)%positive && (0 <=? Qnum r)%Z)%bool
  then Some (Z.to_nat (Qnum r))
  else None.

(** [a[q]] for a number [q] *)
Definition getq {A : Type} (a : list A) (q : Q) : option A :=
  i <- index_of q ;; get a i.

(** [a[q] = v] for a number [q]: ignored when [q] is not an index of [a] *)
Definition setq (a : list R) (q : Q) (v : R) : list R :=
  match index_of q with
  | Some i => set a i v
  | None => a
  end.

(** A natural as a JavaScript number. *)
Definition num (n : nat) : Q := inject_Z (Z.of_nat n).

(** ** The elements of a channel array: numbers and NaN *)

Inductive sample : Type :=
| Num (r : R)
| NaN.

Module Sample.
Local Open Scope R_scope.

(** [x + y] *)
Definition add (x y : sample) : sample :=
  match x, y with
  | Num a, Num b => Num (a + b)
  | _, _ => NaN
  end.

(** [x * y] *)
Definition mul (x y : sample) : sample :=
  match x, y with
  | Num a, Num b => Num (a * b)
  | _, _ => NaN
  end.

(** [Math.abs(x)] *)
Definition abs (x : sample) : sample :=
  match x with
  | Num a => Num (Rabs a)
  | NaN => NaN
  end.

(** [Math.max(x, y)]: NaN when an argument is NaN *)
Definition max (x y : sample) : sample :=
  match x, y with
  | Num a, Num b => Num (Rmax a b)
  | _, _ => NaN
  end.

(** [x / y] for a divisor that is not zero *)
Definition div (x y : sample) : sample :=
  match x, y with
  | Num a, Num b => Num (a / b)
  | _, _ => NaN
  end.

(** [x > 0]: false for NaN *)
Definition positive (x : sample) : bool :=
  match x with
  | Num a => if Rlt_dec 0 a then true else false
  | NaN => false
  end.

(** The number an element holds, if it holds one. *)
Definition value (x : sample) : option R :=
  match x with
  | Num a => Some a
  | NaN => None
  end.

(** [a[q]] where the code adds it to a number: [undefined] makes the sum NaN *)
Definition read (a : list R) (q : Q) : sample :=
  match getq a q with
  | Some x => Num x
  | None => NaN
  end.

(** [new Float32Array(n)] as a channel array *)
Definition zeros (n : nat) : list sample := repeat (Num 0) n.

End Sample.

(** ** Complex numbers, as the pairs (real[i], imag[i]) of the code *)

Definition C : Type := (R * R)%type.

Module Cx.
Local Open Scope R_scope.

Definition zero : C := (0, 0).
Definition one : C := (1, 0).
Definition add (x y : C) : C := (fst x + fst y, snd x + snd y).
Definition sub (x y : C) : C := (fst x - fst y, snd x - snd y).
Definition opp (x : C) : C := (- fst x, - snd x).
Definition mul (x y : C) : C :=
  (fst x * fst y - snd x * snd y, fst x * snd y + snd x * fst y).
Definition conj (x : C) : C := (fst x, - snd x).
Definition scale (r : R) (x : C) : C := (r * fst x, r * snd x).

(** sum of [f 0 .. f (n-1)] *)
Fixpoint sum (n : nat) (f : nat -> C) : C :=
  match n with
  | O => zero
  | S n' => add (sum n' f) (f n')
  end.

End Cx.

(** ** 32-bit integers: what [<<] and [>>] work on *)

Module Int32.

(** [ToInt32]: the integer modulo [2^32] that lies in [-2^31, 2^31) *)
Definition wrap (z : Z) : Z :=
  ((z + 2147483648) mod 4294967296 - 2147483648)%Z.

(** [x << 1] *)
Definition shl1 (x : Z) : Z := wrap (wrap x * 2).

(** [x >> 1]: the shift that keeps the sign *)
Definition shr1 (x : Z) : Z := (wrap x / 2)%Z.

(** The values [len] takes in [let len = 2; while (..) { ..; len <<= 1 }]:
    [2, 4, .., 2^30], then [-2^31], then [0]. *)
Definition reachable_len (len : Z) : Prop :=
  (exists k, (1 <= k <= 30)%Z /\ len = (2 ^ k)%Z) \/ len = (-2147483648)%Z \/ len = 0%Z.

End Int32.

(** ** The FFT of src/index.js and src/stretch-worker.js *)

Module FFT.
Local Open Scope R_scope.

Record t : Type := mk { size : nat; invSize : R }.

(** [constructor(size)] *)
Definition new (size : nat) : t := mk size (1 / INR size).

(** The element an integer indexes: there is none at a negative one. *)
Definition index (z : Z) : option nat :=
  if (z <? 0)%Z then None else Some (Z.to_nat z).

(** [[a[i], a[j]] = [a[j], a[i]]] *)
Definition swap (a : list R) (i j : nat) : option (list R) :=
  aj <- get a j ;;
  ai <- get a i ;;
  Some (set (set a i aj) j ai).

(** The bit reversal loop of [forward]; [j] and [k] are integers, [k] the
    result of 32-bit shifts. *)
Definition bit_reversal (fuel n : nat) (real imag : list R)
  : option (list R * list R) :=
  '(_, real, imag) <-
    for_loop 0 (n - 1)
      (fun i '(j, real, imag) =>
         '(real, imag) <-
           (if (Z.of_nat i <? j)%Z
            then j' <- index j ;;
                 real' <- swap real i j' ;;
                 imag' <- swap imag i j' ;;
                 Some (real', imag')
            else Some (real, imag)) ;;
         '(j, k) <-
           while_loop fuel (fun '(j, k) => (k <=? j)%Z)
             (fun '(j, k) => Some ((j - k)%Z, Int32.shr1 k))
             (j, Int32.shr1 (Z.of_nat n)) ;;
         Some ((j + k)%Z, real, imag))
      (0%Z, real, imag) ;;
  Some (real, imag).

(** The body of the innermost loop: one butterfly on [real[m]], [real[n]]. *)
Definition butterfly (cos sin : R) (m n : nat) (real imag : list R)
  : option (list R * list R) :=
  rn <- get real n ;;
  xn <- get imag n ;;
  let tReal := rn * cos - xn * sin in
  let tImag := rn * sin + xn * cos in
  rm <- get real m ;;
  let real := set real n (rm - tReal) in
  xm <- get imag m ;;
  let imag := set imag n (xm - tImag) in
  rm <- get real m ;;
  let real := set real m (rm + tReal) in
  xm <- get imag m ;;
  let imag := set imag m (xm + tImag) in
  Some (real, imag).

(** One pass [for (i = 0; i < n; i += len) for (j = 0; j < halfLen; j++)],
    with the twiddle factor of index [j] given by [twiddle]; [len] is an
    integer, [halfLen = len >> 1]. *)
Definition pass (fuel n : nat) (len : Z) (twiddle : nat -> R * R)
  (real imag : list R) : option (list R * list R) :=
  let halfLen := Int32.shr1 len in
  '(_, real, imag) <-
    while_loop fuel (fun '(i, _, _) => (i <? Z.of_nat n)%Z)
      (fun '(i, real, imag) =>
         '(real, imag) <-
           for_loop 0 (Z.to_nat halfLen)
             (fun j '(real, imag) =>
                m <- index (i + Z.of_nat j) ;;
                n <- index (i + Z.of_nat j + halfLen) ;;
                let '(cos, sin) := twiddle j in
                butterfly cos sin m n real imag)
             (real, imag) ;;
         Some ((i + len)%Z, real, imag))
      (0%Z, real, imag) ;;
  Some (real, imag).

(** [const angleStep = -2 * Math.PI / len; const angle = angleStep * j] *)
Definition twiddle (len : Z) (j : nat) : R * R :=
  let angleStep := -2 * PI / IZR len in
  let angle := angleStep * INR j in
  (cos angle, sin angle).

(** The passes [let len = 2; while (len <= n) { ...; len <<= 1 }]. *)
Definition passes (fuel n : nat) (tw : Z -> nat -> R * R)
  (real imag : list R) : option (list R * list R) :=
  '(_, real, imag) <-
    while_loop fuel (fun '(len, _, _) => (len <=? Z.of_nat n)%Z)
      (fun '(len, real, imag) =>
         '(real, imag) <- pass fuel n len (tw len) real imag ;;
         Some (Int32.shl1 len, real, imag))
      (2%Z, real, imag) ;;
  Some (real, imag).

(** [forward(real, imag)] *)
Definition forward (fuel : nat) (fft : t) (real imag : list R)
  : option (list R * list R) :=
  let n := size fft in
  '(real, imag) <- bit_reversal fuel n real imag ;;
  passes fuel n twiddle real imag.

(** [inverse(real, imag)] *)
Definition inverse (fuel : nat) (fft : t) (real imag : list R)
  : option (list R * list R) :=
  imag <- for_loop 0 (size fft)
            (fun i imag => x <- get imag i ;; Some (set imag i (- x))) imag ;;
  '(real, imag) <- forward fuel fft real imag ;;
  for_loop 0 (size fft)
    (fun i '(real, imag) =>
       r <- get real i ;;
       let real := set real i (r * invSize fft) in
       x <- get imag i ;;
       let imag := set imag i (x * - invSize fft) in
       Some (real, imag))
    (real, imag).

End FFT.

(** ** The FFT of src/paulstretch-fft.js, with its twiddle tables *)

Module FFTTable.
Local Open Scope R_scope.

Record t : Type := mk {
  size : nat;
  invSize : R;
  halfSize : nat;
  cosTable : list R;
  sinTable : list R
}.

(** [constructor(size)] *)
Definition new (size : nat) : t :=
  let halfSize := (size / 2)%nat in
  let '(cosTable, sinTable) :=
    for_each 0 halfSize
      (fun i '(cosTable, sinTable) =>
         let angle := -2 * PI * INR i / INR size in
         (set cosTable i (cos angle), set sinTable i (sin angle)))
      (zeros halfSize, zeros halfSize) in
  mk size (1 / INR size) halfSize cosTable sinTable.

(** One pass; [k] steps through the tables by [tableStep = n / len]. *)
Definition pass (fuel n : nat) (len : Z) (fft : t) (real imag : list R)
  : option (list R * list R) :=
  let halfLen := Int32.shr1 len in
  let tableStep := (num n / inject_Z len)%Q in
  '(_, real, imag) <-
    while_loop fuel (fun '(i, _, _) => (i <? Z.of_nat n)%Z)
      (fun '(i, real, imag) =>
         '(_, real, imag) <-
           for_loop 0 (Z.to_nat halfLen)
             (fun j '(k, real, imag) =>
                m <- FFT.index (i + Z.of_nat j) ;;
                n <- FFT.index (i + Z.of_nat j + halfLen) ;;
                cos <- getq (cosTable fft) k ;;
                sin <- getq (sinTable fft) k ;;
                '(real, imag) <- FFT.butterfly cos sin m n real imag ;;
                Some ((k + tableStep)%Q, real, imag))
             (0%Q, real, imag) ;;
         Some ((i + len)%Z, real, imag))
      (0%Z, real, imag) ;;
  Some (real, imag).

(** [forward(real, imag)]; the bit reversal loop is the one of src/index.js. *)
Definition forward (fuel : nat) (fft : t) (real imag : list R)
  : option (list R * list R) :=
  let n := size fft in
  '(real, imag) <- FFT.bit_reversal fuel n real imag ;;
  '(_, real, imag) <-
    while_loop fuel (fun '(len, _, _) => (len <=? Z.of_nat n)%Z)
      (fun '(len, real, imag) =>
         '(real, imag) <- pass fuel n len fft real imag ;;
         Some (Int32.shl1 len, real, imag))
      (2%Z, real, imag) ;;
  Some (real, imag).

(** [inverse(real, imag)] *)
Definition inverse (fuel : nat) (fft : t) (real imag : list R)
  : option (list R * list R) :=
  imag <- for_loop 0 (size fft)
            (fun i imag => x <- get imag i ;; Some (set imag i (- x))) imag ;;
  '(real, imag) <- forward fuel fft real imag ;;
  for_loop 0 (size fft)
    (fun i '(real, imag) =>
       r <- get real i ;;
       let real := set real i (r * invSize fft) in
       x <- get imag i ;;
       let imag := set imag i (x * - invSize fft) in
       Some (real, imag))
    (real, imag).

End FFTTable.

(** ** The loops of the FFT on unbounded naturals

    The loops of [FFT.forward] with counters that are naturals, [x * 2] for
    [x << 1] and [x / 2] for [x >> 1]: what the loops of the code compute
    as long as no shift leaves the 32-bit range.  This is a device of the
    proofs, which relate it to [FFT] and [FFTTable]; no statement about the
    code is about it alone. *)

Module Radix2.
Local Open Scope R_scope.

Definition bit_reversal (fuel n : nat) (real imag : list R)
  : option (list R * list R) :=
  '(_, real, imag) <-
    for_loop 0 (n - 1)
      (fun i '(j, real, imag) =>
         '(real, imag) <-
           (if (i <? j)%nat
            then real' <- FFT.swap real i j ;;
                 imag' <- FFT.swap imag i j ;;
                 Some (real', imag')
            else Some (real, imag)) ;;
         '(j, k) <-
           while_loop fuel (fun '(j, k) => (k <=? j)%nat)
             (fun '(j, k) => Some ((j - k)%nat, (k / 2)%nat))
             (j, (n / 2)%nat) ;;
         Some ((j + k)%nat, real, imag))
      (O, real, imag) ;;
  Some (real, imag).

Definition pass (fuel n len : nat) (twiddle : nat -> R * R)
  (real imag : list R) : option (list R * list R) :=
  let halfLen := (len / 2)%nat in
  '(_, real, imag) <-
    while_loop fuel (fun '(i, _, _) => (i <? n)%nat)
      (fun '(i, real, imag) =>
         '(real, imag) <-
           for_loop 0 halfLen
             (fun j '(real, imag) =>
                let m := (i + j)%nat in
                let n := (m + halfLen)%nat in
                let '(cos, sin) := twiddle j in
                FFT.butterfly cos sin m n real imag)
             (real, imag) ;;
         Some ((i + len)%nat, real, imag))
      (O, real, imag) ;;
  Some (real, imag).

Definition twiddle (len j : nat) : R * R :=
  let angleStep := -2 * PI / INR len in
  let angle := angleStep * INR j in
  (cos angle, sin angle).

Definition passes (fuel n : nat) (tw : nat -> nat -> R * R)
  (real imag : list R) : option (list R * list R) :=
  '(_, real, imag) <-
    while_loop fuel (fun '(len, _, _) => (len <=? n)%nat)
      (fun '(len, real, imag) =>
         '(real, imag) <- pass fuel n len (tw len) real imag ;;
         Some ((len * 2)%nat, real, imag))
      (2%nat, real, imag) ;;
  Some (real, imag).

Definition forward (fuel n : nat) (real imag : list R)
  : option (list R * list R) :=
  '(real, imag) <- bit_reversal fuel n real imag ;;
  passes fuel n twiddle real imag.

End Radix2.

(** ** JavaScript numbers used as sizes and positions *)

(** A JavaScript number is a binary64 value, and a product is the exact
    product rounded to the nearest such value, ties to the even one.  The
    two products whose floor is a size ([windowSize * sampleRate] and
    [length * stretchFactor]) are rounded so; the positions of the frames
    ([displacePos], [inputPos], [totalFrames]) are exact rationals: the
    rounding of the divisions and additions that give them moves a frame
    by less than a sample and is not modelled.  Numbers of magnitude
    [2^1024] and more (Infinity) and NaN are not among the values. *)
Module Double.

(** The integer nearest to [q], the even one of two that are as near. *)
Definition nearest_even (q : Q) : Z :=
  let f := Qfloor q in
  match Qcompare (q - inject_Z f) (1 # 2) with
  | Lt => f
  | Gt => (f + 1)%Z
  | Eq => if Z.even f then f else (f + 1)%Z
  end.

(** [floor(log2 q)] for a positive [q] *)
Definition exponent (q : Q) : Z :=
  let e := (Z.log2 (Qnum q) - Z.log2 (Zpos (Qden q)))%Z in
  if Qle_bool (Qpower 2 e) q then e else (e - 1)%Z.

(** The binary64 value nearest to [q]: 53 bits from the leading one, and
    no bit below [2^-1074]. *)
Definition round (q : Q) : Q :=
  let a := Qabs q in
  if Qle_bool a 0 then 0%Q
  else
    let e := Z.max (exponent a) (-1022) in
    let ulp := Qpower 2 (e - 52) in
    let m := Qred (inject_Z (nearest_even (a / ulp)) * ulp) in
    if Qle_bool 0 q then m else (- m)%Q.

(** [x * y] *)
Definition mul (x y : Q) : Q := round (x * y).

End Double.

(** The number of naturals [i] with [i <= hi]: the trip count of
    [for (let i = 0; i <= hi; i++)]. *)
Definition count_le (hi : Q) : nat := Z.to_nat (Qfloor hi + 1).

(** The number of naturals [i] with [i < hi]: the trip count of
    [for (let i = 0; i < hi; i++)]. *)
Definition count_lt (hi : Q) : nat := Z.to_nat (Qceiling hi).

(** [Math.pow(2, Math.ceil(Math.log2(n)))] for an integer [n >= 0]:
    [Math.log2(0)] is [-Infinity] and [Math.pow(2, -Infinity)] is [0]. *)
Definition pow2_ceil_log2 (n : Z) : nat :=
  if (n <=? 0)%Z then O else Z.to_nat (2 ^ Z.log2_up n).

(** [Math.pow(x, y)] for a [y] that is positive and not an integer: [NaN]
    (here [None]) on a negative [x]. *)
Definition Math_pow (x y : R) : option R :=
  if Rlt_dec x 0 then None
  else if Req_dec_T x 0 then Some 0%R
  else Some (Rpower x y).

(** ** AudioBuffer objects and the store of their channel arrays

    [getChannelData] returns the channel array itself, not a copy, so the
    arrays of an AudioBuffer live in a store and the buffer holds their
    locations.  The arrays a function allocates for itself and never hands
    out are plain values. *)

Abbreviation loc := nat (only parsing).
Abbreviation heap := (list (list sample)) (only parsing).

Module AudioBuffer.

Record t : Type := mk {
  sampleRate : Q;
  length : nat;
  numberOfChannels : nat;
  channels : list loc
}.

(** [buffer.getChannelData(ch)] *)
Definition getChannelData (b : t) (ch : nat) : option loc := get (channels b) ch.

(** The buffer [createBuffer] makes: zeroed arrays that no other buffer
    shares. *)
Definition allocate (numChannels : nat) (len : Z) (sampleRate : Q) (h : heap)
  : t * heap :=
  let n := Z.to_nat len in
  (mk sampleRate n numChannels (seq (List.length h) numChannels),
   h ++ repeat (Sample.zeros n) numChannels).

(** [audioContext.createBuffer(numChannels, length, sampleRate)] as Web
    Audio specifies it: a DOMException of the name given ([inl]) when there
    is no channel or no frame; the sample rate is the one of a buffer that
    exists, so it is in range.  The limits of an implementation on the sizes
    are not modelled. *)
Definition createBuffer (numChannels : nat) (len : Z) (sampleRate : Q) (h : heap)
  : string + t * heap :=
  if ((numChannels =? 0)%nat || (len <=? 0)%Z)%bool
  then inl "NotSupportedError"%string
  else inr (allocate numChannels len sampleRate h).

(** The samples of channel [ch]. *)
Definition samples (h : heap) (b : t) (ch : nat) : option (list sample) :=
  l <- getChannelData b ch ;; get h l.

(** A buffer whose channels are in the store with the length it declares. *)
Definition wf (h : heap) (b : t) : Prop :=
  List.length (channels b) = numberOfChannels b /\
  (1 <= numberOfChannels b)%nat /\
  forall ch l, get (channels b) ch = Some l ->
    exists a, get h l = Some a /\ List.length a = length b.


End AudioBuffer.

(** ** src/index.js *)

Module PaulStretch.
Local Open Scope R_scope.

(** [createWindow(winSize)] *)
Definition createWindow (winSize : nat) : option (list R) :=
  let winArray := zeros winSize in
  let counter := -1 in
  let step := 2 / (INR winSize - 1) in
  '(winArray, _) <-
    for_loop 0 winSize
      (fun i '(winArray, counter) =>
         v <- Math_pow (1 - counter * counter) 1.25 ;;
         Some (set winArray i v, counter + step))
      (winArray, counter) ;;
  Some winArray.

(** [applyWindow(block, winArray)] *)
Definition applyWindow (block : list (list R)) (winArray : list R)
  : option (list (list R)) :=
  b0 <- get block 0 ;;
  let frameCount := List.length b0 in
  let channelCount := List.length block in
  for_loop 0 frameCount
    (fun i block =>
       for_loop 0 channelCount
         (fun ch block =>
            b <- get block ch ;;
            x <- get b i ;;
            w <- get winArray i ;;
            Some (set block ch (set b i (x * w))))
         block)
    block.

(** [x < y] on numbers *)
Definition Qltb (x y : Q) : bool := negb (Qle_bool y x).

(** The loop "Get amplitudes and apply new phases". *)
Definition apply_phases (halfWinSize : Q) (phases real imag : list R)
  : option (list R * list R) :=
  for_loop 0 (count_le halfWinSize)
    (fun i '(real, imag) =>
       re <- get real i ;;
       im <- get imag i ;;
       let amplitude := sqrt (re * re + im * im) in
       ph <- get phases i ;;
       let real := set real i (amplitude * cos ph) in
       let imag := set imag i (amplitude * sin ph) in
       Some (real, imag))
    (real, imag).

(** The loop "Mirror for negative frequencies". *)
Definition mirror (winSize : nat) (halfWinSize : Q) (real imag : list R)
  : option (list R * list R) :=
  for_loop 1 (count_lt halfWinSize - 1)
    (fun i '(real, imag) =>
       re <- get real i ;;
       let real := set real (winSize - i) re in
       im <- get imag i ;;
       let imag := set imag (winSize - i) (- im) in
       Some (real, imag))
    (real, imag).

(** The spectrum the rephaser hands to the inverse FFT. *)
Definition rephased_spectrum (fuel winSize : nat) (array phases : list R)
  : option (list R * list R) :=
  let halfWinSize := (num winSize / 2)%Q in
  let fft := FFT.new winSize in
  let real := array in
  let imag := zeros winSize in
  '(real, imag) <- FFT.forward fuel fft real imag ;;
  '(real, imag) <- apply_phases halfWinSize phases real imag ;;
  mirror winSize halfWinSize real imag.

(** The function [makeRephaser(winSize)] returns: [array] is rewritten in
    place, its new contents are the result. *)
Definition rephase (fuel winSize : nat) (array phases : list R)
  : option (list R) :=
  '(real, imag) <- rephased_spectrum fuel winSize array phases ;;
  '(real, imag) <- FFT.inverse fuel (FFT.new winSize) real imag ;;
  for_loop 0 winSize
    (fun i array => r <- get real i ;; Some (set array i r))
    array.

(** *** The worker (src/stretch-worker.js, and the same text inlined in
    [_getWorkerCode] of src/index.js) *)

(** An item of [workQueue].  [postMessage] hands the worker a copy of the
    arrays, so they are values here. *)
Record workUnit : Type := mkUnit {
  u_inputData : list sample;
  u_startFrame : Q;
  u_numFrames : Z;
  u_winSize : nat;
  u_stretchFactor : Q;
  u_winArray : list R;
  u_channelIndex : nat
}.

(** [params] of a ['processFrames'] message. *)
Record params : Type := mkParams {
  p_inputData : list sample;
  p_startFrame : Q;
  p_numFrames : Z;
  p_winSize : nat;
  p_stretchFactor : Q;
  p_winArray : list R;
  p_taskId : nat;
  p_channelIndex : nat
}.

(** An element of [results]: [{ block, inputPos }]. *)
Definition result : Type := (list R * Q)%type.

(** The message a worker posts back. *)
Inductive message : Type :=
| Success (taskId channelIndex : nat) (blocks : list (list R)) (positions : list Q)
| Failure (taskId : nat) (error : string).

Definition message_taskId (m : message) : nat :=
  match m with
  | Success taskId _ _ _ => taskId
  | Failure taskId _ => taskId
  end.

(** The body of the loop of [processFrames] for the frame at [inputPos]. *)
Definition worker_frame (fuel : nat) (random : nat -> R) (p : params)
  (halfWinSize inputPos : Q) (phaseArray : list R) (calls : nat)
  : option (list R * list R * nat) :=
  let winSize := p_winSize p in
  let fft := FFT.new winSize in
  let blockIn := zeros winSize in
  blockIn <- for_loop 0 winSize
               (fun j blockIn =>
                  v <- getq (p_inputData p) (inject_Z (Qfloor inputPos) + num j) ;;
                  v <- Sample.value v ;;
                  Some (set blockIn j v))
               blockIn ;;
  blockIn <- for_loop 0 winSize
               (fun j blockIn =>
                  x <- get blockIn j ;;
                  w <- get (p_winArray p) j ;;
                  Some (set blockIn j (x * w)))
               blockIn ;;
  let real := blockIn in
  let imag := zeros winSize in
  '(real, imag) <- FFT.forward fuel fft real imag ;;
  let '(phaseArray, calls) :=
    for_each 0 (count_le halfWinSize)
      (fun j '(phaseArray, calls) =>
         (set phaseArray j (random calls * 2 * PI), S calls))
      (phaseArray, calls) in
  '(real, imag) <- apply_phases halfWinSize phaseArray real imag ;;
  '(real, imag) <- mirror winSize halfWinSize real imag ;;
  '(real, imag) <- FFT.inverse fuel fft real imag ;;
  blockIn <- for_loop 0 winSize
               (fun j blockIn =>
                  r <- get real j ;;
                  w <- get (p_winArray p) j ;;
                  Some (set blockIn j (r * w)))
               blockIn ;;
  Some (blockIn, phaseArray, calls).

(** [processFrames(params)] *)
Definition processFrames (fuel : nat) (random : nat -> R) (p : params)
  : option (list result) :=
  let winSize := p_winSize p in
  let halfWinSize := (num winSize / 2)%Q in
  let displacePos := (halfWinSize / p_stretchFactor p)%Q in
  let phaseArray := zeros (Z.to_nat (Qfloor (halfWinSize + 1))) in
  '(_, _, _, _, results) <-
    while_loop fuel
      (fun '(i, inputPos, _, _, _) =>
         (Z.of_nat i <? p_numFrames p)%Z &&
         negb (Qltb (num (length (p_inputData p))) (inputPos + num winSize)))
      (fun '(i, inputPos, phaseArray, calls, results) =>
         '(blockIn, phaseArray, calls) <-
           worker_frame fuel random p halfWinSize inputPos phaseArray calls ;;
         Some (S i, (inputPos + displacePos)%Q, phaseArray, calls,
               results ++ [(blockIn, inputPos)]))
      (O, p_startFrame p, phaseArray, O, []) ;;
  Some results.

(** [self.onmessage] for a ['processFrames'] message.  [failure] is the
    message of the exception the [try] block raised, if it raised one: the
    arithmetic modelled here raises none, the platform may (an allocation
    that fails, for one). *)
Definition onmessage (fuel : nat) (random : nat -> R) (failure : option string)
  (p : params) : option message :=
  match failure with
  | Some error => Some (Failure (p_taskId p) error)
  | None =>
      results <- processFrames fuel random p ;;
      Some (Success (p_taskId p) (p_channelIndex p)
              (map fst results) (map snd results))
  end.

(** *** The class PaulStretch *)

(** The instance: the fields of [this] the stretch reads. *)
Record t : Type := mk {
  stretchFactor : Q;
  windowSize : Q;
  useWorkers : bool;
  workers : nat;          (* this.workers.length *)
  taskIdCounter : nat
}.

(** [Math.floor(this.windowSize * sampleRate)] *)
Definition windowSamples (this : t) (sampleRate : Q) : Z :=
  Qfloor (Double.mul (windowSize this) sampleRate).

(** [Math.pow(2, Math.ceil(Math.log2(windowSamples)))] *)
Definition winSize (this : t) (sampleRate : Q) : nat :=
  pow2_ceil_log2 (windowSamples this sampleRate).

(** [winSize / 2] *)
Definition halfWinSize (this : t) (sampleRate : Q) : Q :=
  (num (winSize this sampleRate) / 2)%Q.

(** [Math.floor(audioBuffer.length * this.stretchFactor)] *)
Definition outputLength (this : t) (audioBuffer : AudioBuffer.t) : Z :=
  Qfloor (Double.mul (num (AudioBuffer.length audioBuffer)) (stretchFactor this)).

(** [a[q] += v]: nothing happens when [q] is not an index of [a] *)
Definition add_at (a : list sample) (q : Q) (v : sample) : list sample :=
  match index_of q with
  | Some i => match get a i with
              | Some x => set a i (Sample.add x v)
              | None => a
              end
  | None => a
  end.

(** The peak normalization of one channel:
    [maxVal = Math.max(maxVal, Math.abs(channelData[i]))] over the channel,
    then [channelData[i] *= 0.95 / maxVal] when [maxVal > 0]. *)
Definition normalize (channelData : list sample) : list sample :=
  let maxVal :=
    fold_left (fun maxVal x => Sample.max maxVal (Sample.abs x)) channelData (Num 0) in
  if Sample.positive maxVal
  then let scale := Sample.div (Num 0.95) maxVal in
       map (fun x => Sample.mul x scale) channelData
  else channelData.

(** "Normalize output": every channel of [output], in place. *)
Definition normalize_output (output : AudioBuffer.t) (numChannels : nat) (h : heap)
  : option heap :=
  for_loop 0 numChannels
    (fun ch h =>
       l <- AudioBuffer.getChannelData output ch ;;
       channelData <- get h l ;;
       Some (set h l (normalize channelData)))
    h.

(** "Overlap-add: first half of current + second half of previous", for
    one channel: [channelOut] is the array at [l], [block] the current block
    and [blockOut] the previous one; then [blockOut] takes the block. *)
Definition overlap_add (fuel winSize : nat) (halfWinSize outputPos : Q)
  (outputLength : Z) (l : loc) (block blockOut : list R) (h : heap)
  : option (list R * heap) :=
  '(_, h) <-
    while_loop fuel
      (fun '(i, _) =>
         Qltb (num i) halfWinSize &&
         Qltb (outputPos + num i) (inject_Z outputLength))
      (fun '(i, h) =>
         channelOut <- get h l ;;
         let x := Sample.read block (num i) in
         let y := Sample.read blockOut (halfWinSize + num i) in
         Some (S i, set h l (add_at channelOut (outputPos + num i) (Sample.add x y))))
      (O, h) ;;
  blockOut <- for_loop 0 winSize
                (fun i blockOut => x <- get block i ;; Some (set blockOut i x))
                blockOut ;;
  Some (blockOut, h).

(** The variables of the loop of [_stretchSingleThread]. *)
Record frame : Type := mkFrame {
  inputPos : Q;
  outputPos : Q;
  frameCount : nat;
  blockIn : list (list R);
  blockOut : list (list R);
  phaseArray : list R;
  randomCalls : nat;      (* how many times Math.random() was called *)
  store : heap
}.

(** "Fill input block" *)
Definition fill_blocks (inputData : list loc) (numChannels winSize : nat)
  (inputPos : Q) (h : heap) (blockIn : list (list R)) : option (list (list R)) :=
  for_loop 0 numChannels
    (fun ch blockIn =>
       for_loop 0 winSize
         (fun i blockIn =>
            l <- get inputData ch ;;
            a <- get h l ;;
            v <- getq a (inject_Z (Qfloor inputPos) + num i) ;;
            v <- Sample.value v ;;
            b <- get blockIn ch ;;
            Some (set blockIn ch (set b i v)))
         blockIn)
    blockIn.

(** "Generate random phases": [random k] is what the [k]-th call of
    [Math.random()] returns. *)
Definition random_phases (random : nat -> R) (halfWinSize : Q)
  (phaseArray : list R) (calls : nat) : list R * nat :=
  for_each 0 (count_le halfWinSize)
    (fun i '(phaseArray, calls) =>
       (set phaseArray i (random calls * 2 * PI), S calls))
    (phaseArray, calls).

(** "Randomize phases for each channel" *)
Definition randomize (fuel : nat) (random : nat -> R) (numChannels winSize : nat)
  (halfWinSize : Q) (blockIn : list (list R)) (phaseArray : list R) (calls : nat)
  : option (list (list R) * list R * nat) :=
  for_loop 0 numChannels
    (fun ch '(blockIn, phaseArray, calls) =>
       let '(phaseArray, calls) := random_phases random halfWinSize phaseArray calls in
       b <- get blockIn ch ;;
       b <- rephase fuel winSize b phaseArray ;;
       Some (set blockIn ch b, phaseArray, calls))
    (blockIn, phaseArray, calls).

(** The overlap-add of every channel. *)
Definition overlap_add_channels (fuel : nat) (output : AudioBuffer.t)
  (numChannels winSize : nat) (halfWinSize outputPos : Q) (outputLength : Z)
  (blockIn blockOut : list (list R)) (h : heap)
  : option (list (list R) * heap) :=
  for_loop 0 numChannels
    (fun ch '(blockOut, h) =>
       channelOut <- AudioBuffer.getChannelData output ch ;;
       bi <- get blockIn ch ;;
       bo <- get blockOut ch ;;
       '(bo, h) <- overlap_add fuel winSize halfWinSize outputPos outputLength
                     channelOut bi bo h ;;
       Some (set blockOut ch bo, h))
    (blockOut, h).

(** One turn of the loop [while (inputPos + winSize <= audioBuffer.length)];
    the progress callback is not modelled. *)
Definition process_frame (fuel : nat) (random : nat -> R) (inputData : list loc)
  (output : AudioBuffer.t) (numChannels winSize : nat)
  (halfWinSize displacePos : Q) (outputLength : Z) (winArray : list R)
  (f : frame) : option frame :=
  blockIn <- fill_blocks inputData numChannels winSize (inputPos f) (store f)
               (blockIn f) ;;
  blockIn <- applyWindow blockIn winArray ;;
  '(blockIn, phaseArray, calls) <-
    randomize fuel random numChannels winSize halfWinSize blockIn
      (phaseArray f) (randomCalls f) ;;
  blockIn <- applyWindow blockIn winArray ;;
  '(blockOut, h) <-
    overlap_add_channels fuel output numChannels winSize halfWinSize
      (outputPos f) outputLength blockIn (blockOut f) (store f) ;;
  Some (mkFrame (inputPos f + displacePos)%Q (outputPos f + halfWinSize)%Q
          (S (frameCount f)) blockIn blockOut phaseArray calls h).

(** What [stretch] raises: [new PaulStretchError(msg)] (the class is of
    src/utils/errors.js), [new Error(msg)], or the DOMException of
    [createBuffer], by its name. *)
Inductive error : Type :=
| PaulStretchError (msg : string)
| Error (msg : string)
| DOMException (name : string).

(** How a call ends: [return a] or [throw e]. *)
Inductive outcome (A : Type) : Type :=
| Returned (a : A)
| Thrown (e : error).
Arguments Returned {A} a.
Arguments Thrown {A} e.

(** [_stretchSingleThread] from "Create window and rephaser" to the end of
    the loop [while (inputPos + winSize <= audioBuffer.length)]: the store
    as the overlap-add leaves it, before "Normalize output". *)
Definition overlap_add_frames (fuel : nat) (this : t) (random : nat -> R)
  (audioBuffer output : AudioBuffer.t) (h : heap) : option heap :=
  let sampleRate := AudioBuffer.sampleRate audioBuffer in
  let numChannels := AudioBuffer.numberOfChannels audioBuffer in
  let winSize := winSize this sampleRate in
  let halfWinSize := halfWinSize this sampleRate in
  let outputLength := outputLength this audioBuffer in
  winArray <- createWindow winSize ;;
  inputData <- for_loop 0 numChannels
                 (fun ch inputData =>
                    l <- AudioBuffer.getChannelData audioBuffer ch ;;
                    Some (inputData ++ [l]))
                 [] ;;
  let displacePos := (halfWinSize / stretchFactor this)%Q in
  let phaseArray := zeros (Z.to_nat (Qfloor (halfWinSize + 1))) in
  let blockIn := repeat (zeros winSize) numChannels in
  let blockOut := repeat (zeros winSize) numChannels in
  f <- while_loop fuel
         (fun f => Qle_bool (inputPos f + num winSize)
                            (num (AudioBuffer.length audioBuffer)))
         (process_frame fuel random inputData output numChannels winSize
            halfWinSize displacePos outputLength winArray)
         (mkFrame 0 0 0 blockIn blockOut phaseArray 0 h) ;;
  Some (store f).

(** [_stretchSingleThread(audioBuffer, progressCallback)] for the
    [progressCallback] that [stretch(audioBuffer)] passes on: [null].  An
    exception of [createBuffer] ends the call. *)
Definition stretchSingleThread (fuel : nat) (this : t) (random : nat -> R)
  (audioBuffer : AudioBuffer.t) (h : heap)
  : option (outcome AudioBuffer.t * heap) :=
  let sampleRate := AudioBuffer.sampleRate audioBuffer in
  let numChannels := AudioBuffer.numberOfChannels audioBuffer in
  let outputLength := outputLength this audioBuffer in
  match AudioBuffer.createBuffer numChannels outputLength sampleRate h with
  | inl name => Some (Thrown (DOMException name), h)
  | inr (output, h) =>
      h <- overlap_add_frames fuel this random audioBuffer output h ;;
      h <- normalize_output output numChannels h ;;
      Some (Returned output, h)
  end.

(** *** The parallel path *)

(** [{ ...params, taskId }] *)
Definition with_taskId (u : workUnit) (taskId : nat) : params :=
  mkParams (u_inputData u) (u_startFrame u) (u_numFrames u) (u_winSize u)
    (u_stretchFactor u) (u_winArray u) taskId (u_channelIndex u).

(** "Split this channel into many small chunks"; the flag is the [break]. *)
Definition chunk_channel (fuel : nat) (inputData : list sample) (displacePos : Q)
  (totalFrames idealChunkSize : Z) (winSize : nat) (stretchFactor : Q)
  (winArray : list R) (ch : nat) (workQueue : list workUnit)
  : option (list workUnit) :=
  '(_, _, workQueue) <-
    while_loop fuel
      (fun '(frameIdx, stop, _) => negb stop && (frameIdx <? totalFrames)%Z)
      (fun '(frameIdx, _, workQueue) =>
         let numFrames := Z.min idealChunkSize (totalFrames - frameIdx) in
         if (numFrames <=? 0)%Z
         then Some (frameIdx, true, workQueue)
         else Some ((frameIdx + numFrames)%Z, false,
                    workQueue ++
                    [mkUnit inputData (inject_Z frameIdx * displacePos)%Q numFrames
                       winSize stretchFactor winArray ch]))
      (0%Z, false, workQueue) ;;
  Some workQueue.

(** "Create work queue".  [stretch] takes this path with one worker at
    least, so the division by [this.workers.length * 3] is by no zero. *)
Definition work_queue (fuel : nat) (this : t) (audioBuffer : AudioBuffer.t)
  (winArray : list R) (h : heap) : option (list workUnit) :=
  let sampleRate := AudioBuffer.sampleRate audioBuffer in
  let numChannels := AudioBuffer.numberOfChannels audioBuffer in
  let winSize := winSize this sampleRate in
  let displacePos := (halfWinSize this sampleRate / stretchFactor this)%Q in
  let totalFrames :=
    Qfloor ((num (AudioBuffer.length audioBuffer) - num winSize) / displacePos) in
  let targetChunksPerWorker := 3%nat in
  let idealChunkSize :=
    Z.max 1 (Qfloor (inject_Z totalFrames /
                     num (workers this * targetChunksPerWorker))) in
  for_loop 0 numChannels
    (fun ch workQueue =>
       l <- AudioBuffer.getChannelData audioBuffer ch ;;
       inputData <- get h l ;;
       chunk_channel fuel inputData displacePos totalFrames idealChunkSize
         winSize (stretchFactor this) winArray ch workQueue)
    [].

(** A promise of [workerPromises] once it is settled. *)
Inductive settled : Type :=
| Resolved (m : message)
| Rejected (e : error).

(** The main thread while it awaits: [this.workerTasks] sends a task id to
    the promise it settles, [promises] are the [workerPromises], [all] is
    [Promise.all(workerPromises)] once it is settled. *)
Record pending : Type := mkPending {
  workerTasks : list (nat * nat);
  promises : list (option settled);
  all : option (outcome (list message))
}.

Fixpoint tasks_get (taskId : nat) (tasks : list (nat * nat)) : option nat :=
  match tasks with
  | [] => None
  | (id, k) :: rest => if (id =? taskId)%nat then Some k else tasks_get taskId rest
  end.

Definition tasks_delete (taskId : nat) (tasks : list (nat * nat)) : list (nat * nat) :=
  filter (fun '(id, _) => negb (id =? taskId)%nat) tasks.

(** The values of the promises when every one of them is resolved. *)
Fixpoint all_resolved (ps : list (option settled)) : option (list message) :=
  match ps with
  | [] => Some []
  | Some (Resolved m) :: rest => ms <- all_resolved rest ;; Some (m :: ms)
  | _ => None
  end.

(** [Promise.all] settles once: with the first rejection, or with all the
    values when the last promise resolves. *)
Definition settle (k : nat) (r : settled) (st : pending) : pending :=
  let promises := set (promises st) k (Some r) in
  let all :=
    match all st, r with
    | Some o, _ => Some o
    | None, Rejected e => Some (Thrown e)
    | None, Resolved _ =>
        match all_resolved promises with
        | Some ms => Some (Returned ms)
        | None => None
        end
    end in
  mkPending (workerTasks st) promises all.

(** [_handleWorkerMessage(e)] *)
Definition handleWorkerMessage (m : message) (st : pending) : pending :=
  let taskId := message_taskId m in
  match tasks_get taskId (workerTasks st) with
  | Some k =>
      let st := mkPending (tasks_delete taskId (workerTasks st)) (promises st) (all st) in
      match m with
      | Success _ _ _ _ => settle k (Resolved m) st
      | Failure _ error => settle k (Rejected (Error error)) st
      end
  | None => st
  end.

(** What is outside the main thread: [random id] are the numbers
    [Math.random()] yields in the worker while it handles task [id],
    [failure id] is the exception that task raises there (if any), [arrival]
    lists the task ids in the order their messages reach the main thread, and
    [main_random] are the numbers of [Math.random()] on the main thread. *)
Record env : Type := mkEnv {
  random : nat -> nat -> R;
  failure : nat -> option string;
  arrival : list nat;
  main_random : nat -> R
}.

(** [for (const x of l) s = body(x, s)] *)
Fixpoint for_of {A St : Type} (l : list A) (body : A -> St -> option St) (s : St)
  : option St :=
  match l with
  | [] => Some s
  | x :: rest => s' <- body x s ;; for_of rest body s'
  end.

(** "Collect all blocks for this channel" *)
Definition collect_blocks (channelResults : list message) : option (list result) :=
  for_of channelResults
    (fun workerResult allBlocks =>
       match workerResult with
       | Success _ _ blocks positions =>
           for_loop 0 (length blocks)
             (fun i allBlocks =>
                block <- get blocks i ;;
                inputPos <- get positions i ;;
                Some (allBlocks ++ [(block, inputPos)]))
             allBlocks
       | Failure _ _ => None
       end)
    [].

(** [allBlocks.sort((a, b) => a.inputPos - b.inputPos)]: the sort of an
    array is stable, so the result is the one of a stable insertion sort. *)
Fixpoint insert_by_pos (x : result) (l : list result) : list result :=
  match l with
  | [] => [x]
  | y :: rest =>
      if Qle_bool (snd x) (snd y) then x :: l else y :: insert_by_pos x rest
  end.

Fixpoint sort_by_pos (l : list result) : list result :=
  match l with
  | [] => []
  | x :: rest => insert_by_pos x (sort_by_pos rest)
  end.

(** "Apply overlap-add" over the blocks of a channel, in the order given. *)
Definition overlap_add_blocks (fuel winSize : nat) (halfWinSize : Q)
  (outputLength : Z) (channelOut : loc) (allBlocks : list result) (h : heap)
  : option heap :=
  let blockOut := zeros winSize in
  let outputPos := 0%Q in
  '(_, _, h) <-
    for_of allBlocks
      (fun '(block, _) '(outputPos, blockOut, h) =>
         '(blockOut, h) <- overlap_add fuel winSize halfWinSize outputPos
                             outputLength channelOut block blockOut h ;;
         Some ((outputPos + halfWinSize)%Q, blockOut, h))
      (outputPos, blockOut, h) ;;
  Some h.

(** What is done with the blocks collected for a channel: "Sort by position
    to ensure correct order", "Apply overlap-add", "Normalize channel". *)
Definition reassemble_channel (fuel winSize : nat) (halfWinSize : Q)
  (outputLength : Z) (channelOut : loc) (allBlocks : list result) (h : heap)
  : option heap :=
  let allBlocks := sort_by_pos allBlocks in
  h <- overlap_add_blocks fuel winSize halfWinSize outputLength channelOut
         allBlocks h ;;
  channelData <- get h channelOut ;;
  Some (set h channelOut (normalize channelData)).

(** "Group results by channel" and "Apply results to each channel". *)
Definition reassemble (fuel : nat) (output : AudioBuffer.t)
  (numChannels winSize : nat) (halfWinSize : Q) (outputLength : Z)
  (allResults : list message) (h : heap) : option heap :=
  for_loop 0 numChannels
    (fun ch h =>
       let channelResults :=
         filter (fun m => match m with
                          | Success _ channelIndex _ _ => (channelIndex =? ch)%nat
                          | Failure _ _ => false
                          end) allResults in
       channelOut <- AudioBuffer.getChannelData output ch ;;
       allBlocks <- collect_blocks channelResults ;;
       reassemble_channel fuel winSize halfWinSize outputLength channelOut
         allBlocks h)
    h.

(** [await Promise.all(workerPromises)]: the messages are handled in their
    order of arrival until [Promise.all] is settled; task [taskIdCounter + k]
    is item [k] of the queue, and a message for no task of the queue is one
    [_handleWorkerMessage] ignores.  What arrives after [Promise.all] is
    settled does not reach this call. *)
Definition await_all (fuel : nat) (e : env) (taskIdCounter : nat)
  (workQueue : list workUnit) (st : pending) : option pending :=
  for_of (arrival e)
    (fun taskId st =>
       match all st with
       | Some _ => Some st
       | None =>
           match get workQueue (taskId - taskIdCounter) with
           | Some u =>
               if (taskIdCounter <=? taskId)%nat
               then m <- onmessage fuel (random e taskId) (failure e taskId)
                           (with_taskId u taskId) ;;
                    Some (handleWorkerMessage m st)
               else Some st
           | None => Some st
           end
       end)
    st.

(** [_stretchParallel(audioBuffer, progressCallback)] for the
    [progressCallback] that [stretch(audioBuffer)] passes on: [null];
    [None] when the promises never settle.  An exception of [createBuffer]
    ends the call. *)
Definition stretchParallel (fuel : nat) (this : t) (e : env)
  (audioBuffer : AudioBuffer.t) (h : heap)
  : option (outcome AudioBuffer.t * heap) :=
  let sampleRate := AudioBuffer.sampleRate audioBuffer in
  let numChannels := AudioBuffer.numberOfChannels audioBuffer in
  let winSize := winSize this sampleRate in
  let halfWinSize := halfWinSize this sampleRate in
  let displacePos := (halfWinSize / stretchFactor this)%Q in
  let outputLength := outputLength this audioBuffer in
  match AudioBuffer.createBuffer numChannels outputLength sampleRate h with
  | inl name => Some (Thrown (DOMException name), h)
  | inr (output, h) =>
      winArray <- createWindow winSize ;;
      (* a division by zero gives Infinity or NaN frames: not a Q *)
      if Qeq_bool displacePos 0 then None else
      workQueue <- work_queue fuel this audioBuffer winArray h ;;
      let taskIds := seq (taskIdCounter this) (length workQueue) in
      let st :=
        mkPending (combine taskIds (seq 0 (length workQueue)))
          (repeat None (length workQueue))
          (match workQueue with [] => Some (Returned []) | _ => None end) in
      st <- await_all fuel e (taskIdCounter this) workQueue st ;;
      match all st with
      | None => None
      | Some (Thrown err) => Some (Thrown err, h)
      | Some (Returned allResults) =>
          h <- reassemble fuel output numChannels winSize halfWinSize
                 outputLength allResults h ;;
          Some (Returned output, h)
      end
  end.

(** The argument of [stretch]: [null], [undefined], an AudioBuffer, or any
    other value. *)
Inductive jsvalue : Type :=
| JsNull
| JsUndefined
| JsOther
| JsAudioBuffer (b : AudioBuffer.t).

(** [stretch(audioBuffer)]: the call with [progressCallback] left at its
    default [null], so that no branch [if (progressCallback ...)] is taken. *)
Definition stretch (fuel : nat) (this : t) (e : env) (audioBuffer : jsvalue)
  (h : heap) : option (outcome AudioBuffer.t * heap) :=
  match audioBuffer with
  | JsAudioBuffer b =>
      if useWorkers this && (0 <? workers this)%nat
      then stretchParallel fuel this e b h
      else stretchSingleThread fuel this (main_random e) b h
  | _ => Some (Thrown (PaulStretchError "Invalid audio buffer"), h)
  end.

End PaulStretch.

(** ** src/paulstretch-fft.js: the class PaulStretchFFT *)

Module PaulStretchFFT.
Local Open Scope R_scope.


(** [_nextPowerOf2(n)] *)
Definition nextPowerOf2 (n : Z) : nat := pow2_ceil_log2 n.

(** [const fftSize = this._nextPowerOf2(winSize * 2)] of [stretch], for
    [winSize = Math.floor(this.windowSize * audioBuffer.sampleRate)] *)
Definition fftSize (windowSize sampleRate : Q) : nat :=
  let winSize := Qfloor (windowSize * sampleRate) in
  nextPowerOf2 (winSize * 2).

End PaulStretchFFT.

(** ** What the claims speak of *)

Module Signal.
Local Open Scope R_scope.

(** [M = max(|output[i]|)], and [0] for an empty channel *)
Definition peak (l : list R) : R :=
  fold_right (fun x m => Rmax (Rabs x) m) 0 l.

(** Every sample is within [-1, 1]. *)
Definition bounded (l : list R) : Prop :=
  Forall (fun x => Rabs x <= 1) l.

(** The store [h'] is the store [h] up to writes into the arrays at the
    locations [W]; no array changed its length. *)
Definition evolves (W : loc -> Prop) (h h' : heap) : Prop :=
  length h' = length h /\
  forall l, (~ W l -> get h' l = get h l) /\
            length (nth l h' []) = length (nth l h []).

(** The locations of the channel arrays of [output]. *)
Definition in_output (output : AudioBuffer.t) (l : loc) : Prop :=
  In l (AudioBuffer.channels output).










(** What one overlap-add does to the channel [a]: the samples at the
    positions [outputPos + i] for [i < hn] that are below [outLen] get
    [block[i] + prev[hn + i]] added. *)
Definition overlapped (hn outputPos : nat) (outLen : Z) (block prev : list R)
  (a : list sample) : list sample :=
  map (fun p =>
         let x := nth p a NaN in
         if ((outputPos <=? p)%nat && (p <? outputPos + hn)%nat &&
             (Z.of_nat p <? outLen)%Z)%bool
         then Sample.add x (Num (nth (p - outputPos) block 0 +
                                 nth (hn + (p - outputPos)) prev 0))
         else x)
      (seq 0 (length a)).








End Signal.

(** ** The discrete Fourier transform, as the specification states it *)

Module DFT.
Local Open Scope R_scope.

(** [e^(-2 pi i k / N)] *)
Definition omega (N k : nat) : C :=
  (cos (-2 * PI * INR k / INR N), sin (-2 * PI * INR k / INR N)).

(** The complex sequence held by the two arrays. *)
Definition view (real imag : list R) (i : nat) : C :=
  (nth i real 0, nth i imag 0).

(** [X[k] = sum over n of x[n] * e^(-2 pi i k n / N)] *)
Definition dft (N : nat) (x : nat -> C) (k : nat) : C :=
  Cx.sum N (fun n => Cx.mul (x n) (omega N (k * n))).

(** The inverse transform as [FFT.inverse] computes it: conjugate, transform,
    conjugate and scale by [1 / N]. *)
Definition idft (N : nat) (X : nat -> C) (t : nat) : C :=
  Cx.scale (1 / INR N) (Cx.conj (dft N (fun k => Cx.conj (X k)) t)).

(** The arrays that hold [f 0 .. f (N-1)]. *)
Definition reals (N : nat) (f : nat -> C) : list R :=
  map (fun k => fst (f k)) (seq 0 N).
Definition imags (N : nat) (f : nat -> C) : list R :=
  map (fun k => snd (f k)) (seq 0 N).

(** The reversal of the [q] low bits of [b]. *)
Fixpoint brev (q b : nat) : nat :=
  match q with
  | O => O
  | S q' => ((b mod 2) * 2 ^ q' + brev q' (b / 2))%nat
  end.

(** The transform of length [2^s] of the subsequence of [x] that starts at
    [off] and advances by [stride]. *)
Definition sdft (x : nat -> C) (s stride off j : nat) : C :=
  Cx.sum (2 ^ s) (fun t => Cx.mul (x (off + stride * t)%nat) (omega (2 ^ s) (j * t))).

(** The state of the arrays once the passes of length up to [2^s] are done:
    block [b] holds the transform of the subsequence of stride [2^q] whose
    offset is the reversal of [b]. *)
Definition stage_inv (x : nat -> C) (s q : nat) (v : nat -> C) : Prop :=
  forall b j, (b < 2 ^ q)%nat -> (j < 2 ^ s)%nat ->
    v (b * 2 ^ s + j)%nat = sdft x s (2 ^ q) (brev q b) j.


(** Where the value at index [t] comes from once the bit reversal loop has
    handled the indices below [i]: the pairs [(u, brev u)] with a member below
    [i] are exchanged, the others are still in place. *)
Definition brperm (p i t : nat) : nat :=
  if ((t <? i) || (brev p t <? i))%bool then brev p t else t.

End DFT.

(** * Theorems *)

(** ** Loops *)

Lemma bind_some {A B : Type} (m : option A) (k : A -> option B) (a : A) :
  m = Some a -> bind m k = k a.
Proof. intros ->. reflexivity. Qed.

Lemma for_loop_inv {St : Type} (P : nat -> St -> Prop) (body : nat -> St -> option St) :
  forall cnt lo s,
    P lo s ->
    (forall i s0, (lo <= i < lo + cnt)%nat -> P i s0 ->
                  exists s1, body i s0 = Some s1 /\ P (S i) s1) ->
    exists s', for_loop lo cnt body s = Some s' /\ P (lo + cnt)%nat s'.
Proof.
  induction cnt as [|c IH]; intros lo s H0 Hstep; simpl.
  - exists s. rewrite Nat.add_0_r. auto.
  - destruct (Hstep lo s) as [s1 [Hb Hp]]; [lia | assumption |].
    rewrite Hb. simpl.
    destruct (IH (S lo) s1 Hp) as [s' [Hl Hq]].
    + intros i s0 Hi. apply Hstep. lia.
    + exists s'. split; [assumption |].
      replace (lo + S c)%nat with (S lo + c)%nat by lia. assumption.
Qed.

Lemma while_loop_inv {St : Type} (P : St -> Prop) (measure : St -> nat)
  (cond : St -> bool) (body : St -> option St) :
  (forall s, P s -> cond s = true ->
             exists s', body s = Some s' /\ P s' /\ (measure s' < measure s)%nat) ->
  forall fuel s,
    P s -> (measure s < fuel)%nat ->
    exists s', while_loop fuel cond body s = Some s' /\ P s' /\ cond s' = false.
Proof.
  intros Hstep. induction fuel as [|f IH]; intros s Hp Hm; [lia |].
  simpl. destruct (cond s) eqn:Hc.
  - destruct (Hstep s Hp Hc) as [s1 [Hb [Hp1 Hm1]]].
    rewrite Hb. simpl. apply IH; [assumption | lia].
  - exists s. auto.
Qed.

Lemma for_loop_post {St : Type} (P : nat -> St -> Prop) (body : nat -> St -> option St) :
  forall cnt lo s s',
    for_loop lo cnt body s = Some s' ->
    P lo s ->
    (forall i s0 s1, (lo <= i < lo + cnt)%nat -> P i s0 -> body i s0 = Some s1 ->
                     P (S i) s1) ->
    P (lo + cnt)%nat s'.
Proof.
  induction cnt as [|c IH]; intros lo s s' Hrun H0 Hstep; simpl in Hrun.
  - injection Hrun as <-. rewrite Nat.add_0_r. assumption.
  - destruct (body lo s) as [s1 |] eqn:Hb; [| discriminate]. cbn [bind] in Hrun.
    replace (lo + S c)%nat with (S lo + c)%nat by lia.
    apply IH with (s := s1); try assumption.
    + apply Hstep with (s0 := s); [lia | assumption | assumption].
    + intros i s0 s2 Hi. apply Hstep. lia.
Qed.

Lemma while_loop_post {St : Type} (P : St -> Prop) (cond : St -> bool)
  (body : St -> option St) :
  (forall s s1, P s -> cond s = true -> body s = Some s1 -> P s1) ->
  forall fuel s s',
    while_loop fuel cond body s = Some s' -> P s -> P s' /\ cond s' = false.
Proof.
  intros Hstep. induction fuel as [|f IH]; intros s s' Hrun H0; simpl in Hrun.
  - discriminate.
  - destruct (cond s) eqn:Hc.
    + destruct (body s) as [s1 |] eqn:Hb; [| discriminate]. cbn [bind] in Hrun.
      apply IH with (s := s1); [assumption |]. apply Hstep with (s := s); assumption.
    + injection Hrun as <-. auto.
Qed.

Lemma bind_inv {A B : Type} (m : option A) (k : A -> option B) (b : B) :
  bind m k = Some b -> exists a, m = Some a /\ k a = Some b.
Proof.
  destruct m as [a |]; simpl; [eauto | discriminate].
Qed.

Lemma for_loop_sim {S1 S2 : Type} (Rel : nat -> S1 -> S2 -> Prop)
  (body1 : nat -> S1 -> option S1) (body2 : nat -> S2 -> option S2) :
  forall cnt lo s t t',
    Rel lo s t ->
    (forall i s0 t0 t1, (lo <= i < lo + cnt)%nat -> Rel i s0 t0 ->
        body2 i t0 = Some t1 ->
        exists s1, body1 i s0 = Some s1 /\ Rel (S i) s1 t1) ->
    for_loop lo cnt body2 t = Some t' ->
    exists s', for_loop lo cnt body1 s = Some s' /\ Rel (lo + cnt)%nat s' t'.
Proof.
  induction cnt as [|c IH]; intros lo s t t' H0 Hstep Hrun; simpl in *.
  - injection Hrun as <-. exists s. rewrite Nat.add_0_r. auto.
  - destruct (body2 lo t) as [t1 |] eqn:Hb2; [| discriminate].
    cbn [bind] in Hrun.
    destruct (Hstep lo s t t1) as [s1 [Hb1 Hr1]]; [lia | assumption | assumption |].
    rewrite Hb1. cbn [bind].
    replace (lo + S c)%nat with (S lo + c)%nat by lia.
    apply IH with (t := t1); try assumption.
    intros i s0 t0 t2 Hi. apply Hstep. lia.
Qed.

Lemma while_loop_sim {S1 S2 : Type} (Rel : S1 -> S2 -> Prop)
  (cond1 : S1 -> bool) (cond2 : S2 -> bool)
  (body1 : S1 -> option S1) (body2 : S2 -> option S2) :
  (forall s t, Rel s t -> cond1 s = cond2 t) ->
  (forall s t t1, Rel s t -> cond2 t = true -> body2 t = Some t1 ->
      exists s1, body1 s = Some s1 /\ Rel s1 t1) ->
  forall fuel s t t',
    Rel s t ->
    while_loop fuel cond2 body2 t = Some t' ->
    exists s', while_loop fuel cond1 body1 s = Some s' /\ Rel s' t'.
Proof.
  intros Hcond Hstep. induction fuel as [|f IH]; intros s t t' H0 Hrun; simpl in *.
  - discriminate.
  - rewrite (Hcond s t H0). destruct (cond2 t) eqn:Hc.
    + destruct (body2 t) as [t1 |] eqn:Hb2; [| discriminate].
      cbn [bind] in Hrun.
      destruct (Hstep s t t1 H0 Hc Hb2) as [s1 [Hb1 Hr1]].
      rewrite Hb1. cbn [bind]. apply IH with (t := t1); assumption.
    + injection Hrun as <-. exists s. auto.
Qed.

(** ** Arrays *)

Lemma set_length {A : Type} (a : list A) i v : length (set a i v) = length a.
Proof.
  revert i. induction a as [|h t IH]; intros [|i]; simpl; auto.
Qed.

Lemma nth_set_eq {A : Type} (a : list A) i v d :
  (i < length a)%nat -> nth i (set a i v) d = v.
Proof.
  revert i. induction a as [|h t IH]; intros [|i] Hi; simpl in *; try lia; auto.
  apply IH. lia.
Qed.

Lemma nth_set_neq {A : Type} (a : list A) i j v d :
  i <> j -> nth j (set a i v) d = nth j a d.
Proof.
  revert i j. induction a as [|h t IH]; intros [|i] [|j] Hij; simpl; auto; lia.
Qed.

Lemma get_some (a : list R) i :
  (i < length a)%nat -> get a i = Some (nth i a 0%R).
Proof.
  intros Hi. unfold get. apply nth_error_nth'. assumption.
Qed.


Lemma get_some_nth {A : Type} (a : list A) i d :
  (i < length a)%nat -> get a i = Some (nth i a d).
Proof.
  intros Hi. unfold get. apply nth_error_nth'. assumption.
Qed.

Lemma get_in_range {A : Type} (a : list A) i v :
  get a i = Some v -> (i < length a)%nat.
Proof.
  unfold get. intros H. apply nth_error_Some. congruence.
Qed.

(** ** Complex arithmetic *)

Ltac cx_ring :=
  intros; apply injective_projections;
  unfold Cx.add, Cx.sub, Cx.opp, Cx.mul, Cx.conj, Cx.scale, Cx.zero, Cx.one;
  simpl; ring.

Lemma cx_add_comm (x y : C) : Cx.add x y = Cx.add y x.
Proof. cx_ring. Qed.

Lemma cx_add_assoc (x y z : C) : Cx.add x (Cx.add y z) = Cx.add (Cx.add x y) z.
Proof. cx_ring. Qed.

Lemma cx_add_0_l (x : C) : Cx.add Cx.zero x = x.
Proof. cx_ring. Qed.

Lemma cx_add_0_r (x : C) : Cx.add x Cx.zero = x.
Proof. cx_ring. Qed.

Lemma cx_mul_comm (x y : C) : Cx.mul x y = Cx.mul y x.
Proof. cx_ring. Qed.

Lemma cx_mul_assoc (x y z : C) : Cx.mul x (Cx.mul y z) = Cx.mul (Cx.mul x y) z.
Proof. cx_ring. Qed.

Lemma cx_mul_1_r (x : C) : Cx.mul x Cx.one = x.
Proof. cx_ring. Qed.

Lemma cx_mul_0_r (x : C) : Cx.mul x Cx.zero = Cx.zero.
Proof. cx_ring. Qed.

Lemma cx_mul_add_distr_l (x y z : C) :
  Cx.mul x (Cx.add y z) = Cx.add (Cx.mul x y) (Cx.mul x z).
Proof. cx_ring. Qed.

Lemma cx_mul_add_distr_r (x y z : C) :
  Cx.mul (Cx.add x y) z = Cx.add (Cx.mul x z) (Cx.mul y z).
Proof. cx_ring. Qed.

Lemma cx_surj (x : C) : (fst x, snd x) = x.
Proof. destruct x. reflexivity. Qed.

(** ** Finite sums *)

Lemma sum_ext n (f g : nat -> C) :
  (forall i, (i < n)%nat -> f i = g i) -> Cx.sum n f = Cx.sum n g.
Proof.
  induction n as [|n IH]; intros H; simpl; [reflexivity |].
  rewrite IH, H; auto.
Qed.

Lemma sum_zero n : Cx.sum n (fun _ => Cx.zero) = Cx.zero.
Proof.
  induction n as [|n IH]; simpl; [reflexivity |].
  rewrite IH. apply cx_add_0_l.
Qed.

Lemma sum_add n (f g : nat -> C) :
  Cx.sum n (fun i => Cx.add (f i) (g i)) = Cx.add (Cx.sum n f) (Cx.sum n g).
Proof.
  induction n as [|n IH]; simpl; [cx_ring |].
  rewrite IH. cx_ring.
Qed.

Lemma sum_mul_l n (c : C) (f : nat -> C) :
  Cx.sum n (fun i => Cx.mul c (f i)) = Cx.mul c (Cx.sum n f).
Proof.
  induction n as [|n IH]; simpl; [cx_ring |].
  rewrite IH. cx_ring.
Qed.

Lemma sum_mul_r n (c : C) (f : nat -> C) :
  Cx.sum n (fun i => Cx.mul (f i) c) = Cx.mul (Cx.sum n f) c.
Proof.
  induction n as [|n IH]; simpl; [cx_ring |].
  rewrite IH. cx_ring.
Qed.

Lemma sum_conj n (f : nat -> C) :
  Cx.conj (Cx.sum n f) = Cx.sum n (fun i => Cx.conj (f i)).
Proof.
  induction n as [|n IH]; simpl; [cx_ring |].
  rewrite <- IH. cx_ring.
Qed.

Lemma sum_scale n (r : R) (f : nat -> C) :
  Cx.scale r (Cx.sum n f) = Cx.sum n (fun i => Cx.scale r (f i)).
Proof.
  induction n as [|n IH]; simpl; [cx_ring |].
  rewrite <- IH. cx_ring.
Qed.

Lemma sum_even_odd n (f : nat -> C) :
  Cx.sum (2 * n) f =
  Cx.add (Cx.sum n (fun u => f (2 * u)%nat)) (Cx.sum n (fun u => f (2 * u + 1)%nat)).
Proof.
  induction n as [|n IH]; simpl; [cx_ring |].
  replace (n + S (n + 0))%nat with (S (2 * n)) by lia.
  simpl Cx.sum. replace (n + (n + 0))%nat with (2 * n)%nat in * by lia.
  rewrite IH.
  replace (S (2 * n)) with (2 * n + 1)%nat by lia.
  cx_ring.
Qed.

Lemma sum_swap n m (f : nat -> nat -> C) :
  Cx.sum n (fun i => Cx.sum m (fun j => f i j)) =
  Cx.sum m (fun j => Cx.sum n (fun i => f i j)).
Proof.
  induction n as [|n IH]; simpl.
  - symmetry. apply sum_zero.
  - rewrite IH. symmetry. apply sum_add.
Qed.

Lemma sum_single n (f : nat -> C) (t : nat) :
  (t < n)%nat ->
  (forall i, (i < n)%nat -> i <> t -> f i = Cx.zero) ->
  Cx.sum n f = f t.
Proof.
  induction n as [|n IH]; intros Ht Hz; [lia |].
  simpl. destruct (Nat.eq_dec t n) as [-> | Hne].
  - rewrite (sum_ext n f (fun _ => Cx.zero)).
    + rewrite sum_zero. apply cx_add_0_l.
    + intros i Hi. apply Hz; lia.
  - rewrite IH; [| lia | intros; apply Hz; lia].
    rewrite (Hz n); [apply cx_add_0_r | lia | congruence].
Qed.

(** ** Roots of unity *)

Section Omega.
Local Open Scope R_scope.

Lemma omega_0 N : DFT.omega N 0 = Cx.one.
Proof.
  unfold DFT.omega, Cx.one. simpl INR.
  replace (-2 * PI * 0 / INR N) with 0 by (unfold Rdiv; ring).
  rewrite cos_0, sin_0. reflexivity.
Qed.

Lemma omega_add N a b :
  N <> O -> Cx.mul (DFT.omega N a) (DFT.omega N b) = DFT.omega N (a + b).
Proof.
  intros HN. unfold DFT.omega, Cx.mul. simpl fst. simpl snd.
  assert (HR : INR N <> 0) by (apply not_0_INR; assumption).
  replace (-2 * PI * INR (a + b) / INR N)
    with (-2 * PI * INR a / INR N + -2 * PI * INR b / INR N)
    by (rewrite plus_INR; field; try assumption).
  rewrite cos_plus, sin_plus. f_equal; ring.
Qed.

Lemma omega_double N k :
  N <> O -> DFT.omega (2 * N) (2 * k) = DFT.omega N k.
Proof.
  intros HN. unfold DFT.omega.
  assert (HR : INR N <> 0) by (apply not_0_INR; assumption).
  replace (-2 * PI * INR (2 * k) / INR (2 * N)) with (-2 * PI * INR k / INR N).
  - reflexivity.
  - rewrite !mult_INR. simpl INR. field. assumption.
Qed.

Lemma omega_period N k : N <> O -> DFT.omega N (N * k) = Cx.one.
Proof.
  intros HN. unfold DFT.omega, Cx.one.
  assert (HR : INR N <> 0) by (apply not_0_INR; assumption).
  replace (-2 * PI * INR (N * k) / INR N) with (- (0 + 2 * INR k * PI))
    by (rewrite mult_INR; field; try assumption).
  rewrite cos_neg, sin_neg, cos_period, sin_period, cos_0, sin_0.
  f_equal; ring.
Qed.

Lemma omega_half N : N <> O -> DFT.omega (2 * N) N = Cx.opp Cx.one.
Proof.
  intros HN. unfold DFT.omega, Cx.opp, Cx.one. simpl fst. simpl snd.
  assert (HR : INR N <> 0) by (apply not_0_INR; assumption).
  replace (-2 * PI * INR N / INR (2 * N)) with (- PI)
    by (rewrite mult_INR; simpl INR; field; try assumption).
  rewrite cos_neg, sin_neg, cos_PI, sin_PI. f_equal; ring.
Qed.

Lemma twiddle_omega len j : Radix2.twiddle len j = DFT.omega len j.
Proof.
  unfold Radix2.twiddle, DFT.omega.
  replace (-2 * PI / INR len * INR j) with (-2 * PI * INR j / INR len)
    by (unfold Rdiv; ring).
  reflexivity.
Qed.

End Omega.

(** ** Bit reversal *)

Lemma pow2_pos q : (0 < 2 ^ q)%nat.
Proof. apply Nat.neq_0_lt_0, Nat.pow_nonzero. discriminate. Qed.

Lemma brev_lt q : forall b, (DFT.brev q b < 2 ^ q)%nat.
Proof.
  induction q as [|q IH]; intros b; [simpl; lia |].
  cbn [DFT.brev]. rewrite Nat.pow_succ_r'.
  specialize (IH (b / 2)%nat).
  assert (Hm : (b mod 2 < 2)%nat) by (apply Nat.mod_upper_bound; discriminate).
  assert (Hp : ((b mod 2) * 2 ^ q <= 1 * 2 ^ q)%nat)
    by (apply Nat.mul_le_mono_r; lia).
  lia.
Qed.

Lemma brev_even q b : DFT.brev (S q) (2 * b) = DFT.brev q b.
Proof.
  cbn [DFT.brev].
  replace ((2 * b) mod 2)%nat with O
    by (symmetry; rewrite Nat.mul_comm; apply Nat.Div0.mod_mul).
  replace (2 * b / 2)%nat with b
    by (symmetry; rewrite Nat.mul_comm; apply Nat.div_mul; discriminate).
  lia.
Qed.

Lemma brev_odd q b : DFT.brev (S q) (2 * b + 1) = (2 ^ q + DFT.brev q b)%nat.
Proof.
  cbn [DFT.brev].
  replace ((2 * b + 1) mod 2)%nat with 1%nat.
  - replace ((2 * b + 1) / 2)%nat with b; [lia |].
    symmetry. rewrite Nat.add_comm, Nat.mul_comm.
    rewrite Nat.div_add by discriminate. reflexivity.
  - symmetry. rewrite Nat.add_comm, Nat.mul_comm.
    rewrite Nat.Div0.mod_add. reflexivity.
Qed.

Lemma even_or_odd b : exists h, b = (2 * h)%nat \/ b = (2 * h + 1)%nat.
Proof.
  exists (b / 2)%nat.
  pose proof (Nat.div_mod_eq b 2).
  assert (b mod 2 < 2)%nat by (apply Nat.mod_upper_bound; discriminate).
  lia.
Qed.

Lemma brev_snoc q : forall b c,
  (b < 2 ^ q)%nat -> (c < 2)%nat ->
  DFT.brev (S q) (b + c * 2 ^ q) = (2 * DFT.brev q b + c)%nat.
Proof.
  induction q as [|q IH]; intros b c Hb Hc.
  - simpl in Hb. assert (b = O) by lia. subst b.
    cbn [DFT.brev]. change (2 ^ 0)%nat with 1%nat.
    rewrite Nat.mul_1_r, Nat.add_0_l, Nat.mod_small by lia. lia.
  - destruct (even_or_odd b) as [h [-> | ->]].
    + replace (2 * h + c * 2 ^ S q)%nat with (2 * (h + c * 2 ^ q))%nat
        by (simpl; lia).
      rewrite brev_even, brev_even. apply IH; [simpl in Hb; lia | assumption].
    + replace (2 * h + 1 + c * 2 ^ S q)%nat with (2 * (h + c * 2 ^ q) + 1)%nat
        by (simpl; lia).
      rewrite brev_odd, brev_odd. rewrite IH; [| simpl in Hb; lia | assumption].
      simpl. lia.
Qed.

Lemma brev_involutive q : forall b,
  (b < 2 ^ q)%nat -> DFT.brev q (DFT.brev q b) = b.
Proof.
  induction q as [|q IH]; intros b Hb.
  - simpl in *. lia.
  - destruct (even_or_odd b) as [h [-> | ->]].
    + rewrite brev_even.
      replace (DFT.brev q h) with (DFT.brev q h + 0 * 2 ^ q)%nat by lia.
      rewrite brev_snoc; [| apply brev_lt | lia].
      rewrite IH; [lia | simpl in Hb; lia].
    + rewrite brev_odd.
      replace (2 ^ q + DFT.brev q h)%nat with (DFT.brev q h + 1 * 2 ^ q)%nat by lia.
      rewrite brev_snoc; [| apply brev_lt | lia].
      rewrite IH; [lia | simpl in Hb; lia].
Qed.

(** The inner [while (k <= j)] loop steps [j] from the reversal of [b] to
    the reversal of [b + 1]. *)
Lemma brev_increment q : forall fuel b,
  (S b < 2 ^ q)%nat -> (q < fuel)%nat ->
  exists j k,
    while_loop fuel (fun '(j, k) => (k <=? j)%nat)
      (fun '(j, k) => Some ((j - k)%nat, (k / 2)%nat))
      (DFT.brev q b, (2 ^ q / 2)%nat) = Some (j, k)
    /\ (j + k)%nat = DFT.brev q (S b).
Proof.
  induction q as [|q IH]; intros fuel b Hb Hf.
  - simpl in Hb. lia.
  - destruct fuel as [|fuel]; [lia |].
    assert (Hk : (2 ^ S q / 2 = 2 ^ q)%nat).
    { rewrite Nat.pow_succ_r', Nat.mul_comm. apply Nat.div_mul. discriminate. }
    rewrite Hk.
    destruct (even_or_odd b) as [h [-> | ->]].
    + rewrite brev_even. simpl while_loop.
      pose proof (brev_lt q h) as Hlt.
      destruct (Nat.leb_spec (2 ^ q) (DFT.brev q h)) as [Hle | _]; [lia |].
      exists (DFT.brev q h), (2 ^ q)%nat. split; [reflexivity |].
      replace (S (2 * h)) with (2 * h + 1)%nat by lia.
      rewrite brev_odd. lia.
    + rewrite brev_odd. simpl while_loop.
      destruct (Nat.leb_spec (2 ^ q) (2 ^ q + DFT.brev q h)) as [_ | Hgt]; [| lia].
      simpl bind.
      replace (2 ^ q + DFT.brev q h - 2 ^ q)%nat with (DFT.brev q h) by lia.
      destruct (IH fuel h) as [j [k [Hw Hjk]]]; [simpl in Hb; lia | lia |].
      exists j, k. split; [assumption |].
      replace (S (2 * h + 1)) with (2 * S h)%nat by lia.
      rewrite brev_even. assumption.
Qed.

Lemma brperm_other p i t :
  (t < 2 ^ p)%nat -> (i < 2 ^ p)%nat -> t <> i -> t <> DFT.brev p i ->
  DFT.brperm p (S i) t = DFT.brperm p i t.
Proof.
  intros Ht Hi Hti Htj. unfold DFT.brperm.
  assert (Hb : DFT.brev p t <> i).
  { intros E. apply Htj. rewrite <- E. symmetry. apply brev_involutive. assumption. }
  destruct (Nat.ltb_spec t (S i)), (Nat.ltb_spec t i),
    (Nat.ltb_spec (DFT.brev p t) (S i)), (Nat.ltb_spec (DFT.brev p t) i);
    simpl; try reflexivity; lia.
Qed.

Lemma brperm_noswap p i t :
  (t < 2 ^ p)%nat -> (i < 2 ^ p)%nat -> (DFT.brev p i <= i)%nat ->
  DFT.brperm p (S i) t = DFT.brperm p i t.
Proof.
  intros Ht Hi Hji.
  destruct (Nat.eq_dec t i) as [-> | Hti].
  - unfold DFT.brperm.
    destruct (Nat.ltb_spec i (S i)), (Nat.ltb_spec i i),
      (Nat.ltb_spec (DFT.brev p i) i); simpl; try reflexivity; lia.
  - destruct (Nat.eq_dec t (DFT.brev p i)) as [-> | Htj].
    + unfold DFT.brperm. rewrite brev_involutive by assumption.
      destruct (Nat.ltb_spec (DFT.brev p i) (S i)), (Nat.ltb_spec (DFT.brev p i) i),
        (Nat.ltb_spec i (S i)), (Nat.ltb_spec i i); simpl; try reflexivity; lia.
    + apply brperm_other; assumption.
Qed.

Lemma brperm_swap p i :
  (i < 2 ^ p)%nat -> (i < DFT.brev p i)%nat ->
  DFT.brperm p (S i) i = DFT.brev p i /\
  DFT.brperm p i (DFT.brev p i) = DFT.brev p i /\
  DFT.brperm p (S i) (DFT.brev p i) = i /\
  DFT.brperm p i i = i.
Proof.
  intros Hi Hij. unfold DFT.brperm. rewrite brev_involutive by assumption.
  destruct (Nat.ltb_spec (DFT.brev p i) (S i)), (Nat.ltb_spec (DFT.brev p i) i),
    (Nat.ltb_spec i (S i)), (Nat.ltb_spec i i); simpl; try lia; auto.
Qed.

Lemma brperm_last p t :
  (t < 2 ^ p)%nat -> DFT.brperm p (2 ^ p - 1) t = DFT.brev p t.
Proof.
  intros Ht. unfold DFT.brperm. pose proof (brev_lt p t).
  destruct (Nat.ltb_spec t (2 ^ p - 1)), (Nat.ltb_spec (DFT.brev p t) (2 ^ p - 1));
    simpl; try reflexivity; lia.
Qed.

Lemma swap_spec (a : list R) i j :
  (i < length a)%nat -> (j < length a)%nat -> i <> j ->
  exists a', FFT.swap a i j = Some a' /\ length a' = length a /\
    forall t, nth t a' 0%R =
              if (t =? i)%nat then nth j a 0%R
              else if (t =? j)%nat then nth i a 0%R else nth t a 0%R.
Proof.
  intros Hi Hj Hij. unfold FFT.swap.
  rewrite (get_some a j Hj), (get_some a i Hi). simpl bind.
  eexists. split; [reflexivity |]. split; [rewrite !set_length; reflexivity |].
  intros t.
  destruct (Nat.eqb_spec t i) as [-> | Hti].
  - rewrite nth_set_neq by congruence. apply nth_set_eq. assumption.
  - destruct (Nat.eqb_spec t j) as [-> | Htj].
    + apply nth_set_eq. rewrite set_length. assumption.
    + rewrite !nth_set_neq by congruence. reflexivity.
Qed.

Lemma bit_reversal_correct p fuel (real imag : list R) :
  length real = (2 ^ p)%nat -> length imag = (2 ^ p)%nat -> (p < fuel)%nat ->
  exists real' imag',
    Radix2.bit_reversal fuel (2 ^ p) real imag = Some (real', imag') /\
    length real' = (2 ^ p)%nat /\ length imag' = (2 ^ p)%nat /\
    forall t, (t < 2 ^ p)%nat ->
      nth t real' 0%R = nth (DFT.brev p t) real 0%R /\
      nth t imag' 0%R = nth (DFT.brev p t) imag 0%R.
Proof.
  intros Hre Him Hf. unfold Radix2.bit_reversal.
  pose (P := fun (i : nat) (s : nat * list R * list R) =>
    let '(j, re, im) := s in
    j = DFT.brev p i /\ length re = (2 ^ p)%nat /\ length im = (2 ^ p)%nat /\
    forall t, (t < 2 ^ p)%nat ->
      nth t re 0%R = nth (DFT.brperm p i t) real 0%R /\
      nth t im 0%R = nth (DFT.brperm p i t) imag 0%R).
  pose proof (pow2_pos p) as Hpos.
  edestruct (for_loop_inv P) as [[[j re] im] [Hloop HP]]; cycle 2.
  - rewrite Hloop. cbn [bind]. exists re, im. split; [reflexivity |].
    destruct HP as [_ [Hl1 [Hl2 Hv]]]. repeat split; try assumption.
    + rewrite (proj1 (Hv t H)). simpl. rewrite brperm_last by assumption. reflexivity.
    + rewrite (proj2 (Hv t H)). simpl. rewrite brperm_last by assumption. reflexivity.
  - simpl. repeat split; try assumption.
    + clear. induction p; simpl; auto.
  - intros i [[j re] im] Hi [Hj [Hl1 [Hl2 Hv]]]. simpl in Hi.
    destruct (brev_increment p fuel i) as [j' [k' [Hw Hjk]]]; [lia | assumption |].
    subst j.
    destruct (Nat.ltb_spec i (DFT.brev p i)) as [Hlt | Hge].
    + pose proof (brev_lt p i) as Hjlt.
      destruct (swap_spec re i (DFT.brev p i)) as [re' [Hs1 [Hlr Hnr]]]; try lia.
      destruct (swap_spec im i (DFT.brev p i)) as [im' [Hs2 [Hli Hni]]]; try lia.
      rewrite Hs1, Hs2. cbn [bind]. rewrite Hw. cbn [bind].
      eexists. split; [reflexivity |]. unfold P.
      split; [exact Hjk |]. split; [lia |]. split; [lia |].
      intros t Ht. rewrite Hnr, Hni.
      destruct (brperm_swap p i) as [E1 [E2 [E3 E4]]]; [lia | assumption |].
      destruct (Nat.eqb_spec t i) as [-> | Hti].
      * rewrite E1. destruct (Hv (DFT.brev p i) Hjlt) as [-> ->].
        rewrite E2. auto.
      * destruct (Nat.eqb_spec t (DFT.brev p i)) as [-> | Htj].
        -- rewrite E3. destruct (Hv i) as [-> ->]; [lia |]. rewrite E4. auto.
        -- rewrite brperm_other by (assumption || lia). apply Hv. assumption.
    + cbn [bind]. rewrite Hw. cbn [bind].
      eexists. split; [reflexivity |]. unfold P.
      split; [exact Hjk |]. split; [assumption |]. split; [assumption |].
      intros t Ht. rewrite brperm_noswap by (assumption || lia). apply Hv. assumption.
Qed.

(** ** One butterfly pass *)

Lemma view_set_real real imag i v t :
  DFT.view (set real i v) imag t =
  if (t =? i)%nat
  then (nth t (set real i v) 0%R, nth t imag 0%R)
  else DFT.view real imag t.
Proof.
  unfold DFT.view. destruct (Nat.eqb_spec t i) as [-> | Hne]; [reflexivity |].
  rewrite nth_set_neq by congruence. reflexivity.
Qed.

Lemma butterfly_spec (c s : R) (m n : nat) (real imag : list R) :
  (m < length real)%nat -> (n < length real)%nat ->
  length imag = length real -> m <> n ->
  exists real' imag',
    FFT.butterfly c s m n real imag = Some (real', imag') /\
    length real' = length real /\ length imag' = length imag /\
    DFT.view real' imag' m =
      Cx.add (DFT.view real imag m) (Cx.mul (DFT.view real imag n) (c, s)) /\
    DFT.view real' imag' n =
      Cx.sub (DFT.view real imag m) (Cx.mul (DFT.view real imag n) (c, s)) /\
    forall t, t <> m -> t <> n -> DFT.view real' imag' t = DFT.view real imag t.
Proof.
  intros Hm Hn Hl Hmn. unfold FFT.butterfly.
  rewrite (get_some real n Hn), (get_some imag n) by lia. cbn [bind].
  rewrite (get_some real m Hm). cbn [bind].
  rewrite (get_some imag m) by lia. cbn [bind].
  rewrite (get_some (set real n _) m) by (rewrite set_length; assumption).
  cbn [bind].
  rewrite (get_some (set imag n _) m) by (rewrite set_length; lia).
  cbn [bind].
  eexists. eexists. split; [reflexivity |].
  split; [rewrite !set_length; reflexivity |].
  split; [rewrite !set_length; reflexivity |].
  unfold DFT.view, Cx.add, Cx.sub, Cx.mul. cbn [fst snd].
  split; [| split].
  - rewrite !nth_set_eq by (rewrite set_length; lia).
    rewrite !(nth_set_neq _ n m) by congruence. f_equal; ring.
  - rewrite !(nth_set_neq _ m n) by congruence.
    rewrite !nth_set_eq by lia. f_equal; ring.
  - intros t Htm Htn. rewrite !nth_set_neq by congruence. reflexivity.
Qed.

(** What a pass computes from the sequence [a] it starts from. *)
Lemma pass_correct fuel nb halfLen (tw : nat -> R * R) (real imag : list R) :
  let len := (2 * halfLen)%nat in
  let n := (nb * len)%nat in
  (0 < halfLen)%nat -> (n < fuel)%nat ->
  length real = n -> length imag = n ->
  exists real' imag',
    Radix2.pass fuel n len tw real imag = Some (real', imag') /\
    length real' = n /\ length imag' = n /\
    forall b j, (b < nb)%nat -> (j < halfLen)%nat ->
      DFT.view real' imag' (b * len + j) =
        Cx.add (DFT.view real imag (b * len + j))
               (Cx.mul (DFT.view real imag (b * len + j + halfLen)) (tw j)) /\
      DFT.view real' imag' (b * len + j + halfLen) =
        Cx.sub (DFT.view real imag (b * len + j))
               (Cx.mul (DFT.view real imag (b * len + j + halfLen)) (tw j)).
Proof.
  intros len n Hh Hf Hre Him. unfold Radix2.pass.
  assert (Hhalf : (len / 2 = halfLen)%nat).
  { unfold len. rewrite Nat.mul_comm. apply Nat.div_mul. discriminate. }
  rewrite Hhalf.
  set (a := DFT.view real imag).
  pose (new_at := fun (re im : list R) (b j : nat) =>
    DFT.view re im (b * len + j) =
      Cx.add (a (b * len + j)%nat) (Cx.mul (a (b * len + j + halfLen)%nat) (tw j)) /\
    DFT.view re im (b * len + j + halfLen) =
      Cx.sub (a (b * len + j)%nat) (Cx.mul (a (b * len + j + halfLen)%nat) (tw j))).
  pose (P := fun (s : nat * list R * list R) =>
    let '(i, re, im) := s in
    exists b, (b <= nb)%nat /\ i = (b * len)%nat /\
      length re = n /\ length im = n /\
      (forall t, (i <= t)%nat -> DFT.view re im t = a t) /\
      (forall b' j, (b' < b)%nat -> (j < halfLen)%nat -> new_at re im b' j)).
  edestruct (while_loop_inv P (fun '(i, _, _) => (n - i)%nat))
    as [[[i re] im] [Hloop [HP Hc]]]; cycle 3.
  - rewrite Hloop. cbn [bind]. exists re, im. split; [reflexivity |].
    destruct HP as [b [Hb [Hi [Hl1 [Hl2 [_ Hnew]]]]]].
    split; [assumption |]. split; [assumption |].
    intros b' j Hb' Hj. apply Hnew; [| assumption].
    apply Nat.ltb_ge in Hc. subst i. unfold n in Hc.
    assert (nb <= b)%nat by (apply Nat.mul_le_mono_pos_r with (p := len); unfold len; lia).
    lia.
  - intros [[i re] im] [b [Hb [Hi [Hl1 [Hl2 [Hold Hnew]]]]]] Hc.
    apply Nat.ltb_lt in Hc.
    assert (Hbn : (b < nb)%nat).
    { destruct (Nat.lt_ge_cases b nb) as [|Hge]; [assumption |].
      assert (nb * len <= b * len)%nat by (apply Nat.mul_le_mono_r; assumption).
      unfold n in Hc. lia. }
    assert (Hin : (i + len <= n)%nat).
    { subst i. unfold n. replace (b * len + len)%nat with (S b * len)%nat by lia.
      apply Nat.mul_le_mono_r. lia. }
    pose (Q := fun (j : nat) (s : list R * list R) =>
      let '(re', im') := s in
      length re' = n /\ length im' = n /\
      (forall t, (t < i \/ (i + j <= t < i + halfLen) \/ i + halfLen + j <= t)%nat ->
                 DFT.view re' im' t = DFT.view re im t) /\
      (forall j', (j' < j)%nat -> new_at re' im' b j')).
    edestruct (for_loop_inv Q) as [[re' im'] [Hfor HQ]]; cycle 2.
    + rewrite Hfor. cbn [bind]. eexists. split; [reflexivity |].
      destruct HQ as [Hl1' [Hl2' [Hsame Hnb]]]. simpl in Hsame, Hnb.
      split; [| lia]. exists (S b).
      split; [lia |]. split; [lia |]. split; [assumption |]. split; [assumption |].
      split.
      * intros t Ht. rewrite Hsame by (unfold len in *; lia). apply Hold. lia.
      * intros b' j Hb' Hj.
        destruct (Nat.eq_dec b' b) as [-> | Hne]; [apply Hnb; assumption |].
        assert (Hlt : (b' < b)%nat) by lia.
        assert (Hle : (S b' * len <= b * len)%nat) by (apply Nat.mul_le_mono_r; lia).
        destruct (Hnew b' j Hlt Hj) as [E1 E2]. unfold new_at.
        rewrite !Hsame by (unfold len in *; lia). split; assumption.
    + unfold Q. split; [assumption |]. split; [assumption |].
      split; [reflexivity |]. intros j' Hj'. lia.
    + intros j [re' im'] Hj [Hl1' [Hl2' [Hsame Hnb]]]. simpl in Hj.
      destruct (tw j) as [c s] eqn:Htw.
      destruct (butterfly_spec c s (i + j) (i + j + halfLen) re' im')
        as [re2 [im2 [Hbf [Hl1'' [Hl2'' [Em [En Eo]]]]]]];
        try (unfold len in *; lia).
      rewrite Hbf. eexists. split; [reflexivity |]. unfold Q.
      split; [lia |]. split; [lia |]. split.
      * intros t Ht. rewrite Eo by lia. apply Hsame. lia.
      * intros j' Hj'. unfold new_at.
        destruct (Nat.eq_dec j' j) as [-> | Hne].
        -- replace (b * len + j)%nat with (i + j)%nat by lia.
           rewrite Em, En, Htw.
           rewrite !Hsame by lia.
           rewrite <- !Hold by lia. auto.
        -- destruct (Hnb j') as [E1 E2]; [lia |].
           rewrite !Eo by lia. split; assumption.
  - unfold P. exists O. split; [lia |]. split; [reflexivity |].
    split; [assumption |]. split; [assumption |].
    split; [reflexivity |]. intros b' j Hb'. lia.
  - simpl. lia.
Qed.

(** ** The Danielson-Lanczos step *)

Lemma sdft_split_lo x s stride off j :
  DFT.sdft x (S s) stride off j =
  Cx.add (DFT.sdft x s (2 * stride) off j)
         (Cx.mul (DFT.sdft x s (2 * stride) (off + stride) j) (DFT.omega (2 ^ S s) j)).
Proof.
  unfold DFT.sdft. rewrite Nat.pow_succ_r'. rewrite sum_even_odd.
  pose proof (pow2_pos s) as Hpos.
  f_equal.
  - apply sum_ext. intros u _.
    replace (off + stride * (2 * u))%nat with (off + 2 * stride * u)%nat by lia.
    replace (j * (2 * u))%nat with (2 * (j * u))%nat by lia.
    rewrite omega_double by lia. reflexivity.
  - rewrite <- sum_mul_r. apply sum_ext. intros u _.
    replace (off + stride * (2 * u + 1))%nat with (off + stride + 2 * stride * u)%nat by lia.
    replace (j * (2 * u + 1))%nat with (2 * (j * u) + j)%nat by lia.
    rewrite <- omega_add by lia. rewrite omega_double by lia.
    apply cx_mul_assoc.
Qed.

Lemma sdft_split_hi x s stride off j :
  DFT.sdft x (S s) stride off (j + 2 ^ s) =
  Cx.sub (DFT.sdft x s (2 * stride) off j)
         (Cx.mul (DFT.sdft x s (2 * stride) (off + stride) j) (DFT.omega (2 ^ S s) j)).
Proof.
  unfold DFT.sdft. rewrite Nat.pow_succ_r'. rewrite sum_even_odd.
  pose proof (pow2_pos s) as Hpos.
  set (M := (2 ^ s)%nat) in *.
  replace (Cx.sub
     (Cx.sum M (fun t => Cx.mul (x (off + 2 * stride * t)%nat) (DFT.omega M (j * t))))
     (Cx.mul
        (Cx.sum M (fun t => Cx.mul (x (off + stride + 2 * stride * t)%nat) (DFT.omega M (j * t))))
        (DFT.omega (2 * M) j)))
    with (Cx.add
     (Cx.sum M (fun t => Cx.mul (x (off + 2 * stride * t)%nat) (DFT.omega M (j * t))))
     (Cx.mul
        (Cx.sum M (fun t => Cx.mul (x (off + stride + 2 * stride * t)%nat) (DFT.omega M (j * t))))
        (Cx.opp (DFT.omega (2 * M) j)))) by cx_ring.
  f_equal.
  - apply sum_ext. intros u _.
    replace (off + stride * (2 * u))%nat with (off + 2 * stride * u)%nat by lia.
    replace ((j + M) * (2 * u))%nat with (2 * (j * u) + 2 * M * u)%nat by lia.
    rewrite <- omega_add by lia. rewrite omega_double by lia.
    rewrite omega_period by lia. rewrite cx_mul_1_r. reflexivity.
  - rewrite <- sum_mul_r. apply sum_ext. intros u _.
    replace (off + stride * (2 * u + 1))%nat with (off + stride + 2 * stride * u)%nat by lia.
    replace ((j + M) * (2 * u + 1))%nat with (2 * (j * u) + (2 * M * u + (j + M)))%nat by lia.
    rewrite <- !omega_add by lia. rewrite omega_double by lia.
    rewrite omega_period by lia. rewrite omega_half by lia.
    cx_ring.
Qed.

Lemma sdft_0 x stride off : DFT.sdft x 0 stride off 0 = x off.
Proof.
  unfold DFT.sdft. simpl. rewrite omega_0, Nat.mul_0_r, Nat.add_0_r. cx_ring.
Qed.

Lemma sdft_full x p j : DFT.sdft x p 1 0 j = DFT.dft (2 ^ p) x j.
Proof.
  unfold DFT.sdft, DFT.dft. apply sum_ext. intros t _.
  replace (0 + 1 * t)%nat with t by lia. reflexivity.
Qed.

Lemma stage_step x s q (v v' : nat -> C) :
  DFT.stage_inv x s (S q) v ->
  (forall b j, (b < 2 ^ q)%nat -> (j < 2 ^ s)%nat ->
     v' (b * 2 ^ S s + j)%nat =
       Cx.add (v (b * 2 ^ S s + j)%nat)
              (Cx.mul (v (b * 2 ^ S s + j + 2 ^ s)%nat) (DFT.omega (2 ^ S s) j)) /\
     v' (b * 2 ^ S s + j + 2 ^ s)%nat =
       Cx.sub (v (b * 2 ^ S s + j)%nat)
              (Cx.mul (v (b * 2 ^ S s + j + 2 ^ s)%nat) (DFT.omega (2 ^ S s) j))) ->
  DFT.stage_inv x (S s) q v'.
Proof.
  intros Hinv Hpass b j' Hb Hj'.
  pose proof (pow2_pos s) as Hs. pose proof (pow2_pos q) as Hq.
  assert (Hlo : forall j, (j < 2 ^ s)%nat ->
            v (b * 2 ^ S s + j)%nat = DFT.sdft x s (2 * 2 ^ q) (DFT.brev q b) j).
  { intros j Hj. replace (b * 2 ^ S s + j)%nat with (2 * b * 2 ^ s + j)%nat
      by (rewrite Nat.pow_succ_r'; lia).
    rewrite Hinv; [| rewrite Nat.pow_succ_r'; lia | assumption].
    rewrite brev_even. rewrite Nat.pow_succ_r'. reflexivity. }
  assert (Hhi : forall j, (j < 2 ^ s)%nat ->
            v (b * 2 ^ S s + j + 2 ^ s)%nat =
            DFT.sdft x s (2 * 2 ^ q) (DFT.brev q b + 2 ^ q) j).
  { intros j Hj. replace (b * 2 ^ S s + j + 2 ^ s)%nat with ((2 * b + 1) * 2 ^ s + j)%nat
      by (rewrite Nat.pow_succ_r'; lia).
    rewrite Hinv; [| rewrite Nat.pow_succ_r'; lia | assumption].
    rewrite brev_odd. rewrite Nat.pow_succ_r'. f_equal. lia. }
  destruct (Nat.lt_ge_cases j' (2 ^ s)) as [Hlt | Hge].
  - destruct (Hpass b j' Hb Hlt) as [E _]. rewrite E, Hlo, Hhi by assumption.
    symmetry. apply sdft_split_lo.
  - assert (Hj : (j' - 2 ^ s < 2 ^ s)%nat) by (rewrite Nat.pow_succ_r' in Hj'; lia).
    assert (Ej : j' = (j' - 2 ^ s + 2 ^ s)%nat) by lia.
    revert Hj Ej. generalize (j' - 2 ^ s)%nat. intros j Hj ->.
    destruct (Hpass b j Hb Hj) as [_ E].
    rewrite Nat.add_assoc, E, Hlo, Hhi by assumption.
    symmetry. apply sdft_split_hi.
Qed.

Lemma stage_init x p (v : nat -> C) :
  (forall t, (t < 2 ^ p)%nat -> v t = x (DFT.brev p t)) ->
  DFT.stage_inv x 0 p v.
Proof.
  intros Hv b j Hb Hj. simpl in Hj. assert (j = O) by lia. subst j.
  rewrite sdft_0. replace (b * 2 ^ 0 + 0)%nat with b by (simpl; lia).
  apply Hv. assumption.
Qed.

Lemma stage_final x p (v : nat -> C) :
  DFT.stage_inv x p 0 v ->
  forall j, (j < 2 ^ p)%nat -> v j = DFT.dft (2 ^ p) x j.
Proof.
  intros Hinv j Hj. specialize (Hinv O j). simpl in Hinv.
  rewrite Hinv by (assumption || lia). apply sdft_full.
Qed.

Lemma pow2_le_iff a b : (2 ^ a <= 2 ^ b)%nat <-> (a <= b)%nat.
Proof. symmetry. apply Nat.pow_le_mono_r_iff. lia. Qed.

(** The passes, for any twiddle source that yields the roots of unity. *)
Lemma passes_correct p fuel (tw : nat -> nat -> R * R) x (real imag : list R) :
  (forall s j, tw (2 ^ S s)%nat j = DFT.omega (2 ^ S s) j) ->
  (2 ^ p < fuel)%nat ->
  length real = (2 ^ p)%nat -> length imag = (2 ^ p)%nat ->
  (forall t, (t < 2 ^ p)%nat -> DFT.view real imag t = x (DFT.brev p t)) ->
  exists real' imag',
    Radix2.passes fuel (2 ^ p) tw real imag = Some (real', imag') /\
    length real' = (2 ^ p)%nat /\ length imag' = (2 ^ p)%nat /\
    forall k, (k < 2 ^ p)%nat -> DFT.view real' imag' k = DFT.dft (2 ^ p) x k.
Proof.
  intros Htw Hf Hre Him Hv. unfold Radix2.passes.
  pose (P := fun (st : nat * list R * list R) =>
    let '(len, re, im) := st in
    exists s q, (s + q = p)%nat /\ len = (2 ^ S s)%nat /\
      length re = (2 ^ p)%nat /\ length im = (2 ^ p)%nat /\
      DFT.stage_inv x s q (DFT.view re im)).
  edestruct (while_loop_inv P (fun '(len, _, _) => (S (Nat.log2 (2 ^ p)) - Nat.log2 len)%nat))
    as [[[len re] im] [Hloop [HP Hc]]]; cycle 3.
  - rewrite Hloop. cbn [bind]. exists re, im. split; [reflexivity |].
    destruct HP as [s [q [Hsq [Hlen [Hl1 [Hl2 Hinv]]]]]].
    split; [assumption |]. split; [assumption |].
    apply Nat.leb_gt in Hc. subst len.
    assert (p < S s)%nat by (apply Nat.pow_lt_mono_r_iff with (a := 2%nat); lia).
    assert (s = p) by lia. assert (q = O) by lia. subst s q.
    apply stage_final. assumption.
  - intros [[len re] im] [s [q [Hsq [Hlen [Hl1 [Hl2 Hinv]]]]]] Hc.
    apply Nat.leb_le in Hc. subst len. apply (proj1 (pow2_le_iff _ _)) in Hc.
    destruct q as [|q]; [lia |].
    destruct (pass_correct fuel (2 ^ q) (2 ^ s) (tw (2 ^ S s)%nat) re im)
      as [re' [im' [Hpass [Hl1' [Hl2' Hnew]]]]].
    + apply pow2_pos.
    + replace (2 ^ q * (2 * 2 ^ s))%nat with (2 ^ p)%nat; [assumption |].
      rewrite <- Hsq. rewrite Nat.pow_add_r, Nat.pow_succ_r'. lia.
    + rewrite Hl1, <- Hsq. rewrite Nat.pow_add_r, Nat.pow_succ_r'. lia.
    + rewrite Hl2, <- Hsq. rewrite Nat.pow_add_r, Nat.pow_succ_r'. lia.
    + assert (Hn : (2 ^ q * (2 * 2 ^ s) = 2 ^ p)%nat)
        by (rewrite <- Hsq; rewrite Nat.pow_add_r, Nat.pow_succ_r'; lia).
      rewrite Hn in *. rewrite <- Nat.pow_succ_r' in Hpass.
      rewrite Hpass. cbn [bind]. eexists. split; [reflexivity |].
      split.
      * exists (S s), q. split; [lia |].
        split; [rewrite (Nat.pow_succ_r' 2 (S s)); lia |].
        split; [assumption |]. split; [assumption |].
        apply stage_step with (v := DFT.view re im); [assumption |].
        intros b j Hb Hj. rewrite <- Htw. rewrite Nat.pow_succ_r'.
        apply Hnew; assumption.
      * rewrite !Nat.log2_pow2 by lia.
        replace (2 ^ S s * 2)%nat with (2 ^ S (S s))%nat by (rewrite (Nat.pow_succ_r' 2 (S s)); lia).
        rewrite Nat.log2_pow2 by lia. lia.
  - exists O, p. split; [reflexivity |]. split; [reflexivity |].
    split; [assumption |]. split; [assumption |].
    apply stage_init. assumption.
  - simpl. rewrite Nat.log2_pow2 by lia. pose proof (Nat.pow_gt_lin_r 2 p). lia.
Qed.

(** ** FFT.forward *)

Lemma list_eq_map_seq (l : list R) n (f : nat -> R) :
  length l = n -> (forall t, (t < n)%nat -> nth t l 0%R = f t) ->
  l = map f (seq 0 n).
Proof.
  intros Hl Hn. apply nth_ext with (d := 0%R) (d' := 0%R).
  - rewrite length_map, length_seq. assumption.
  - intros t Ht. rewrite Hl in Ht. rewrite Hn by assumption.
    rewrite nth_indep with (d' := f O) by (rewrite length_map, length_seq; assumption).
    rewrite map_nth, seq_nth by assumption. reflexivity.
Qed.

Lemma arrays_of_view (real imag : list R) n (f : nat -> C) :
  length real = n -> length imag = n ->
  (forall t, (t < n)%nat -> DFT.view real imag t = f t) ->
  real = DFT.reals n f /\ imag = DFT.imags n f.
Proof.
  intros Hr Hi Hv. split; apply list_eq_map_seq; try assumption;
    intros t Ht; rewrite <- (Hv t Ht); reflexivity.
Qed.

Lemma reals_length n f : length (DFT.reals n f) = n.
Proof. unfold DFT.reals. rewrite length_map, length_seq. reflexivity. Qed.

Lemma imags_length n f : length (DFT.imags n f) = n.
Proof. unfold DFT.imags. rewrite length_map, length_seq. reflexivity. Qed.

Lemma view_arrays n f t :
  (t < n)%nat -> DFT.view (DFT.reals n f) (DFT.imags n f) t = f t.
Proof.
  intros Ht. unfold DFT.view, DFT.reals, DFT.imags.
  rewrite nth_indep with (d' := fst (f O)) by (rewrite length_map, length_seq; assumption).
  rewrite (nth_indep _ 0%R (snd (f O))) by (rewrite length_map, length_seq; assumption).
  rewrite (map_nth (fun k => fst (f k))), (map_nth (fun k => snd (f k))).
  rewrite seq_nth by assumption. apply cx_surj.
Qed.

Lemma radix2_forward_correct p fuel (real imag : list R) :
  length real = (2 ^ p)%nat -> length imag = (2 ^ p)%nat -> (2 ^ p < fuel)%nat ->
  Radix2.forward fuel (2 ^ p) real imag =
  Some (DFT.reals (2 ^ p) (DFT.dft (2 ^ p) (DFT.view real imag)),
        DFT.imags (2 ^ p) (DFT.dft (2 ^ p) (DFT.view real imag))).
Proof.
  intros Hre Him Hf. unfold Radix2.forward.
  pose proof (Nat.pow_gt_lin_r 2 p) as Hp.
  destruct (bit_reversal_correct p fuel real imag) as [re1 [im1 [Hbr [Hl1 [Hl2 Hv]]]]];
    try assumption; [lia |].
  rewrite Hbr. cbn [bind].
  destruct (passes_correct p fuel Radix2.twiddle (DFT.view real imag) re1 im1)
    as [re2 [im2 [Hps [Hl1' [Hl2' Hd]]]]]; try assumption.
  - intros s j. apply twiddle_omega.
  - intros t Ht. unfold DFT.view. destruct (Hv t Ht) as [-> ->]. reflexivity.
  - rewrite Hps. destruct (arrays_of_view re2 im2 _ _ Hl1' Hl2' Hd) as [-> ->].
    reflexivity.
Qed.

(** ** The 32-bit shifts of the loops

    While the size is [2^29] or less no shift leaves the 32-bit range, and
    the loops of [FFT] are the loops on naturals. *)

Lemma wrap_small z : (-2147483648 <= z < 2147483648)%Z -> Int32.wrap z = z.
Proof.
  intros Hz. unfold Int32.wrap. rewrite Z.mod_small by lia. lia.
Qed.

Lemma shr1_nat n :
  (Z.of_nat n < 2147483648)%Z -> Int32.shr1 (Z.of_nat n) = Z.of_nat (n / 2).
Proof.
  intros Hn. unfold Int32.shr1. rewrite wrap_small by lia.
  rewrite Nat2Z.inj_div. reflexivity.
Qed.

Lemma shl1_nat n :
  (Z.of_nat n < 1073741824)%Z -> Int32.shl1 (Z.of_nat n) = Z.of_nat (n * 2).
Proof.
  intros Hn. unfold Int32.shl1. rewrite (wrap_small (Z.of_nat n)) by lia.
  rewrite wrap_small by lia. lia.
Qed.

Lemma index_nat n : FFT.index (Z.of_nat n) = Some n.
Proof.
  unfold FFT.index. destruct (Z.ltb_spec (Z.of_nat n) 0) as [H | _]; [lia |].
  rewrite Nat2Z.id. reflexivity.
Qed.

Lemma Zleb_nat a b : (Z.of_nat a <=? Z.of_nat b)%Z = (a <=? b)%nat.
Proof.
  destruct (Z.leb_spec (Z.of_nat a) (Z.of_nat b));
    destruct (Nat.leb_spec a b); try reflexivity; lia.
Qed.

Lemma Zltb_nat a b : (Z.of_nat a <? Z.of_nat b)%Z = (a <? b)%nat.
Proof.
  destruct (Z.ltb_spec (Z.of_nat a) (Z.of_nat b));
    destruct (Nat.ltb_spec a b); try reflexivity; lia.
Qed.

Lemma pow2_small p : (p <= 29)%nat -> (Z.of_nat (2 ^ p) <= 536870912)%Z.
Proof.
  intros Hp. rewrite Nat2Z.inj_pow. change (Z.of_nat 2) with 2%Z.
  change 536870912%Z with (2 ^ 29)%Z.
  apply Z.pow_le_mono_r; lia.
Qed.

Lemma bit_reversal_sim fuel n (real imag : list R) r :
  (Z.of_nat n < 2147483648)%Z ->
  Radix2.bit_reversal fuel n real imag = Some r ->
  FFT.bit_reversal fuel n real imag = Some r.
Proof.
  intros Hn Hrun. unfold Radix2.bit_reversal in Hrun. unfold FFT.bit_reversal.
  match type of Hrun with
  | bind ?w _ = _ => destruct w as [[[j2 re2] im2] |] eqn:Hw; [| discriminate]
  end.
  cbn [bind] in Hrun.
  edestruct (for_loop_sim
               (fun (_ : nat) (s : Z * list R * list R) (t : nat * list R * list R) =>
                  s = (Z.of_nat (fst (fst t)), snd (fst t), snd t)))
    as [s' [Hw' Hrel]]; cycle 2.
  - exact Hw.
  - rewrite Hw'. rewrite Hrel. cbn [bind fst snd]. exact Hrun.
  - reflexivity.
  - intros i s [[j re] im] t1 Hi -> Hb. cbn [fst snd]. cbv beta iota.
    rewrite Zltb_nat. rewrite index_nat.
    match type of Hb with
    | bind ?w _ = _ => destruct w as [[re1 im1] |] eqn:Hsw; [| discriminate]
    end.
    cbn [bind] in Hb.
    assert (Hsw' : (if (i <? j)%nat
                    then j' <- Some j ;;
                         real' <- FFT.swap re i j' ;;
                         imag' <- FFT.swap im i j' ;;
                         Some (real', imag')
                    else Some (re, im)) = Some (re1, im1)).
    { destruct (i <? j)%nat; [cbn [bind]; exact Hsw | exact Hsw]. }
    rewrite Hsw'. cbn [bind].
    match type of Hb with
    | bind ?w _ = _ => destruct w as [[j3 k3] |] eqn:Hwh; [| discriminate]
    end.
    cbn [bind] in Hb. injection Hb as <-.
    edestruct (while_loop_sim
                 (fun (s : Z * Z) (t : nat * nat) =>
                    s = (Z.of_nat (fst t), Z.of_nat (snd t)) /\
                    (Z.of_nat (snd t) < 2147483648)%Z))
      as [s1 [Hwh' [Hrel1 _]]]; cycle 3.
    + exact Hwh.
    + rewrite Hwh'. rewrite Hrel1. cbn [bind fst snd].
      eexists. split; [reflexivity |]. cbn [fst snd]. rewrite Nat2Z.inj_add.
      reflexivity.
    + intros s [j0 k0] [-> _]. cbn [fst snd]. apply Zleb_nat.
    + intros s [j0 k0] t2 [-> Hk] Hc Hbody. cbn [fst snd] in *.
      apply Nat.leb_le in Hc. injection Hbody as <-.
      eexists. split; [reflexivity |]. cbn [fst snd].
      rewrite shr1_nat by assumption. split.
      * f_equal. lia.
      * change (fst (Nat.divmod k0 1 0 1)) with (k0 / 2)%nat.
        pose proof (Nat.Div0.mul_div_le k0 2). lia.
    + cbn [fst snd]. rewrite shr1_nat by assumption. split; [reflexivity |].
      pose proof (Nat.Div0.mul_div_le n 2). lia.
Qed.

Lemma pass_sim fuel n len (tw1 tw2 : nat -> R * R) (real imag : list R) r :
  (Z.of_nat len < 2147483648)%Z ->
  (forall j, tw1 j = tw2 j) ->
  Radix2.pass fuel n len tw2 real imag = Some r ->
  FFT.pass fuel n (Z.of_nat len) tw1 real imag = Some r.
Proof.
  intros Hlen Htw Hrun. unfold Radix2.pass in Hrun. unfold FFT.pass.
  rewrite shr1_nat by assumption. rewrite Nat2Z.id.
  match type of Hrun with
  | bind ?w _ = _ => destruct w as [[[i2 re2] im2] |] eqn:Hw; [| discriminate]
  end.
  cbn [bind] in Hrun.
  edestruct (while_loop_sim
               (fun (s : Z * list R * list R) (t : nat * list R * list R) =>
                  s = (Z.of_nat (fst (fst t)), snd (fst t), snd t)))
    as [s' [Hw' Hrel]]; cycle 3.
  - exact Hw.
  - rewrite Hw'. rewrite Hrel. cbn [bind fst snd]. exact Hrun.
  - intros s [[i re] im] ->. cbn [fst snd]. apply Zltb_nat.
  - intros s [[i re] im] t1 -> Hc Hb. cbn [fst snd].
    match type of Hb with
    | bind ?w _ = _ => destruct w as [[re1 im1] |] eqn:Hfor; [| discriminate]
    end.
    cbn [bind] in Hb. injection Hb as <-.
    edestruct (for_loop_sim
                 (fun (_ : nat) (s t : list R * list R) => s = t))
      as [s1 [Hfor' Hrel1]]; cycle 2.
    + exact Hfor.
    + rewrite Hfor'. rewrite Hrel1. cbn [bind].
      eexists. split; [reflexivity |]. cbn [fst snd]. rewrite Nat2Z.inj_add.
      reflexivity.
    + reflexivity.
    + intros j s0 [re0 im0] t2 Hj -> Hbody. cbv beta iota zeta in Hbody |- *.
      rewrite <- Nat2Z.inj_add. rewrite index_nat. cbn [bind].
      rewrite <- Nat2Z.inj_add. rewrite index_nat. cbn [bind].
      rewrite Htw. rewrite Hbody. eexists. split; reflexivity.
  - reflexivity.
Qed.

Lemma passes_sim fuel n (tw1 : Z -> nat -> R * R) (tw2 : nat -> nat -> R * R)
  (real imag : list R) r :
  (Z.of_nat n <= 536870912)%Z ->
  (forall len j, tw1 (Z.of_nat len) j = tw2 len j) ->
  Radix2.passes fuel n tw2 real imag = Some r ->
  FFT.passes fuel n tw1 real imag = Some r.
Proof.
  intros Hn Htw Hrun. unfold Radix2.passes in Hrun. unfold FFT.passes.
  match type of Hrun with
  | bind ?w _ = _ => destruct w as [[[l2 re2] im2] |] eqn:Hw; [| discriminate]
  end.
  cbn [bind] in Hrun.
  edestruct (while_loop_sim
               (fun (s : Z * list R * list R) (t : nat * list R * list R) =>
                  s = (Z.of_nat (fst (fst t)), snd (fst t), snd t)))
    as [s' [Hw' Hrel]]; cycle 3.
  - exact Hw.
  - rewrite Hw'. rewrite Hrel. cbn [bind fst snd]. exact Hrun.
  - intros s [[l re] im] ->. cbn [fst snd]. apply Zleb_nat.
  - intros s [[l re] im] t1 -> Hc Hb. cbn [fst snd] in *.
    apply Nat.leb_le in Hc.
    match type of Hb with
    | bind ?w _ = _ => destruct w as [[re1 im1] |] eqn:Hpass; [| discriminate]
    end.
    cbn [bind] in Hb. injection Hb as <-.
    rewrite (pass_sim fuel n l (tw1 (Z.of_nat l)) (tw2 l) re im (re1, im1));
      [| lia | apply Htw | exact Hpass].
    cbn [bind]. eexists. split; [reflexivity |]. cbn [fst snd].
    rewrite shl1_nat by lia. reflexivity.
  - reflexivity.
Qed.

Lemma twiddle_nat len j : FFT.twiddle (Z.of_nat len) j = Radix2.twiddle len j.
Proof.
  unfold FFT.twiddle, Radix2.twiddle. rewrite <- INR_IZR_INZ. reflexivity.
Qed.

Lemma forward_sim fuel n (real imag : list R) r :
  (Z.of_nat n <= 536870912)%Z ->
  Radix2.forward fuel n real imag = Some r ->
  FFT.forward fuel (FFT.new n) real imag = Some r.
Proof.
  intros Hn Hrun. unfold Radix2.forward in Hrun. unfold FFT.forward.
  cbn [FFT.size FFT.new].
  destruct (Radix2.bit_reversal fuel n real imag) as [[re1 im1] |] eqn:Hbr;
    [| discriminate].
  cbn [bind] in Hrun. rename Hrun into Hps.
  rewrite (bit_reversal_sim fuel n real imag (re1, im1)); [| lia | exact Hbr].
  cbn [bind]. apply passes_sim with (tw2 := Radix2.twiddle);
    [assumption | apply twiddle_nat | exact Hps].
Qed.

(** [FFT.forward] on a size of [2^29] or less. *)
Lemma forward_correct p fuel (real imag : list R) :
  (p <= 29)%nat ->
  length real = (2 ^ p)%nat -> length imag = (2 ^ p)%nat -> (2 ^ p < fuel)%nat ->
  FFT.forward fuel (FFT.new (2 ^ p)) real imag =
  Some (DFT.reals (2 ^ p) (DFT.dft (2 ^ p) (DFT.view real imag)),
        DFT.imags (2 ^ p) (DFT.dft (2 ^ p) (DFT.view real imag))).
Proof.
  intros Hp Hre Him Hf. apply forward_sim; [apply pow2_small; assumption |].
  apply radix2_forward_correct; assumption.
Qed.

(** ** FFT.inverse *)

Lemma for_pointwise (g : R -> R) n (a : list R) :
  length a = n ->
  for_loop 0 n (fun i a => x <- get a i ;; Some (set a i (g x))) a = Some (map g a).
Proof.
  intros Hl.
  pose (P := fun (i : nat) (a' : list R) =>
    length a' = n /\
    forall t, nth t a' 0%R = if (t <? i)%nat then g (nth t a 0%R) else nth t a 0%R).
  edestruct (for_loop_inv P) as [a' [Hloop [Hl' Hn]]]; cycle 2.
  - rewrite Hloop. f_equal. apply nth_ext with (d := 0%R) (d' := g 0%R).
    + rewrite length_map. lia.
    + intros t Ht. rewrite Hn, map_nth. simpl.
      destruct (Nat.ltb_spec t n); [reflexivity | lia].
  - split; [assumption |]. intros t. reflexivity.
  - intros i a0 Hi [Hl0 Hn0]. simpl in Hi.
    rewrite (get_some a0 i) by lia. cbn [bind]. eexists. split; [reflexivity |].
    split; [rewrite set_length; assumption |].
    intros t. destruct (Nat.eq_dec t i) as [-> | Hne].
    + rewrite nth_set_eq by lia. rewrite Hn0.
      destruct (Nat.ltb_spec i i), (Nat.ltb_spec i (S i)); try lia. reflexivity.
    + rewrite nth_set_neq by congruence. rewrite Hn0.
      destruct (Nat.ltb_spec t i), (Nat.ltb_spec t (S i)); try lia; reflexivity.
Qed.

Lemma for_pointwise2 (g h : R -> R) n (a b : list R) :
  length a = n -> length b = n ->
  for_loop 0 n
    (fun i '(a, b) =>
       r <- get a i ;;
       let a := set a i (g r) in
       x <- get b i ;;
       let b := set b i (h x) in
       Some (a, b)) (a, b) = Some (map g a, map h b).
Proof.
  intros Hla Hlb.
  pose (P := fun (i : nat) (s : list R * list R) =>
    let '(a', b') := s in
    length a' = n /\ length b' = n /\
    forall t, nth t a' 0%R = (if (t <? i)%nat then g (nth t a 0%R) else nth t a 0%R) /\
              nth t b' 0%R = (if (t <? i)%nat then h (nth t b 0%R) else nth t b 0%R)).
  edestruct (for_loop_inv P) as [[a' b'] [Hloop [Hl1 [Hl2 Hn]]]]; cycle 2.
  - rewrite Hloop. f_equal. f_equal.
    + apply nth_ext with (d := 0%R) (d' := g 0%R); [rewrite length_map; lia |].
      intros t Ht. rewrite (proj1 (Hn t)), map_nth. simpl.
      destruct (Nat.ltb_spec t n); [reflexivity | lia].
    + apply nth_ext with (d := 0%R) (d' := h 0%R); [rewrite length_map; lia |].
      intros t Ht. rewrite (proj2 (Hn t)), map_nth. simpl.
      destruct (Nat.ltb_spec t n); [reflexivity | lia].
  - split; [assumption |]. split; [assumption |]. intros t. split; reflexivity.
  - intros i [a0 b0] Hi [Hl1 [Hl2 Hn0]]. simpl in Hi.
    rewrite (get_some a0 i) by lia. cbn [bind].
    rewrite (get_some b0 i) by lia. cbn [bind].
    eexists. split; [reflexivity |].
    split; [rewrite set_length; assumption |].
    split; [rewrite set_length; assumption |].
    intros t. destruct (Hn0 t) as [Ea Eb]. destruct (Hn0 i) as [Eai Ebi].
    destruct (Nat.eq_dec t i) as [-> | Hne].
    + rewrite !nth_set_eq by lia. rewrite Eai, Ebi.
      destruct (Nat.ltb_spec i i), (Nat.ltb_spec i (S i)); try lia. auto.
    + rewrite !nth_set_neq by congruence. rewrite Ea, Eb.
      destruct (Nat.ltb_spec t i), (Nat.ltb_spec t (S i)); try lia; auto.
Qed.

Lemma view_map real imag (g h : R -> R) t :
  (t < length real)%nat -> (t < length imag)%nat ->
  DFT.view (map g real) (map h imag) t =
  (g (fst (DFT.view real imag t)), h (snd (DFT.view real imag t))).
Proof.
  intros Hr Hi. unfold DFT.view. cbn [fst snd].
  rewrite (nth_indep (map g real) 0%R (g 0%R)) by (rewrite length_map; assumption).
  rewrite (nth_indep (map h imag) 0%R (h 0%R)) by (rewrite length_map; assumption).
  rewrite !map_nth. reflexivity.
Qed.

Lemma dft_ext N (x y : nat -> C) k :
  (forall n, (n < N)%nat -> x n = y n) -> DFT.dft N x k = DFT.dft N y k.
Proof.
  intros H. unfold DFT.dft. apply sum_ext. intros n Hn. rewrite H by assumption.
  reflexivity.
Qed.

Lemma arrays_ext n (f g : nat -> C) :
  (forall t, (t < n)%nat -> f t = g t) ->
  DFT.reals n f = DFT.reals n g /\ DFT.imags n f = DFT.imags n g.
Proof.
  intros H. unfold DFT.reals, DFT.imags.
  split; apply map_ext_in; intros t Ht; apply in_seq in Ht; rewrite H by lia;
    reflexivity.
Qed.

Lemma inverse_correct p fuel (real imag : list R) :
  (p <= 29)%nat ->
  length real = (2 ^ p)%nat -> length imag = (2 ^ p)%nat -> (2 ^ p < fuel)%nat ->
  FFT.inverse fuel (FFT.new (2 ^ p)) real imag =
  Some (DFT.reals (2 ^ p) (DFT.idft (2 ^ p) (DFT.view real imag)),
        DFT.imags (2 ^ p) (DFT.idft (2 ^ p) (DFT.view real imag))).
Proof.
  intros Hp Hre Him Hf. unfold FFT.inverse.
  change (FFT.size (FFT.new (2 ^ p))) with (2 ^ p)%nat.
  rewrite (for_pointwise Ropp) by assumption. cbn [bind].
  rewrite forward_correct;
    [| assumption | assumption | rewrite length_map; assumption | assumption].
  cbn [bind].
  rewrite (for_pointwise2 (fun r => r * FFT.invSize (FFT.new (2 ^ p)))%R
             (fun x => x * - FFT.invSize (FFT.new (2 ^ p)))%R)
    by (apply reals_length || apply imags_length).
  f_equal.
  set (D := DFT.dft (2 ^ p) (DFT.view real (map Ropp imag))).
  assert (HD : forall t, (t < 2 ^ p)%nat ->
     DFT.view (map (fun r => r * FFT.invSize (FFT.new (2 ^ p)))%R (DFT.reals (2 ^ p) D))
              (map (fun x => x * - FFT.invSize (FFT.new (2 ^ p)))%R (DFT.imags (2 ^ p) D)) t
     = DFT.idft (2 ^ p) (DFT.view real imag) t).
  { intros t Ht.
    rewrite view_map by (rewrite ?reals_length, ?imags_length; assumption).
    rewrite view_arrays by assumption.
    unfold DFT.idft, Cx.scale, Cx.conj. cbn [fst snd FFT.invSize FFT.new].
    replace (DFT.dft (2 ^ p) (fun k => (fst (DFT.view real imag k), (- snd (DFT.view real imag k))%R)) t)
      with (D t).
    - f_equal; ring.
    - unfold D. apply dft_ext. intros n Hn. unfold DFT.view. cbn [fst snd].
      rewrite (nth_indep (map Ropp imag) 0%R (- 0)%R) by (rewrite length_map; lia).
      rewrite map_nth. reflexivity. }
  apply arrays_of_view in HD.
  - destruct HD as [E1 E2]. rewrite <- E1, <- E2. reflexivity.
  - rewrite length_map. apply reals_length.
  - rewrite length_map. apply imags_length.
Qed.

(** ** Orthogonality of the roots of unity and the inversion theorem *)

Section Inversion.
Local Open Scope R_scope.

Lemma cos_lt_1 x : 0 < x < 2 * PI -> cos x < 1.
Proof.
  intros [H0 H2]. pose proof PI_RGT_0 as Hpi.
  destruct (Rle_lt_dec x PI) as [Hle | Hgt].
  - rewrite <- cos_0. apply cos_decreasing_1; lra.
  - rewrite <- cos_2PI. apply cos_increasing_1; lra.
Qed.

Lemma omega_neq_1 N d : (0 < d < N)%nat -> DFT.omega N d <> Cx.one.
Proof.
  intros [Hd HN] E. unfold DFT.omega, Cx.one in E.
  apply (f_equal fst) in E. cbn [fst] in E.
  assert (HR : 0 < INR N) by (apply lt_0_INR; lia).
  assert (Hd' : 0 < INR d) by (apply lt_0_INR; lia).
  assert (HdN : INR d < INR N) by (apply lt_INR; assumption).
  replace (-2 * PI * INR d / INR N) with (- (2 * PI * (INR d / INR N))) in E
    by (field; lra).
  rewrite cos_neg in E.
  pose proof PI_RGT_0 as Hpi.
  assert (Hq : 0 < INR d / INR N < 1).
  { split.
    - apply Rdiv_lt_0_compat; assumption.
    - apply Rmult_lt_reg_r with (r := INR N); [assumption |].
      unfold Rdiv. rewrite Rmult_assoc, Rinv_l by lra. lra. }
  assert (cos (2 * PI * (INR d / INR N)) < 1); [| lra].
  apply cos_lt_1. split; nra.
Qed.

Lemma omega_unit N k : Cx.mul (DFT.omega N k) (Cx.conj (DFT.omega N k)) = Cx.one.
Proof.
  unfold DFT.omega, Cx.mul, Cx.conj, Cx.one. cbn [fst snd].
  pose proof (sin2_cos2 (-2 * PI * INR k / INR N)) as H. unfold Rsqr in H.
  f_equal; lra.
Qed.

Lemma sum_shift n (f : nat -> C) :
  Cx.add (Cx.sum n (fun k => f (S k))) (f O) = Cx.add (Cx.sum n f) (f n).
Proof.
  induction n as [|n IH]; simpl; [cx_ring |].
  rewrite <- cx_add_assoc, (cx_add_comm (f (S n))), cx_add_assoc, IH. reflexivity.
Qed.

Lemma cx_add_cancel_r (a b c : C) : Cx.add a c = Cx.add b c -> a = b.
Proof.
  unfold Cx.add. intros E. injection E as E1 E2.
  apply injective_projections; lra.
Qed.

Lemma cx_mul_eq_self (z s : C) : Cx.mul z s = s -> z <> Cx.one -> s = Cx.zero.
Proof.
  destruct z as [a b], s as [s1 s2]. unfold Cx.mul, Cx.one, Cx.zero. cbn [fst snd].
  intros E Hz. injection E as E1 E2.
  assert (Hn : (a - 1) * (a - 1) + b * b <> 0).
  { intros Hn. apply Hz. apply (Rplus_sqr_eq_0 (a - 1) b) in Hn.
    destruct Hn. f_equal; lra. }
  assert (F1 : (a - 1) * s1 - b * s2 = 0) by lra.
  assert (F2 : (a - 1) * s2 + b * s1 = 0) by lra.
  assert (H1 : s1 * ((a - 1) * (a - 1) + b * b) = 0).
  { replace (s1 * ((a - 1) * (a - 1) + b * b))
      with ((a - 1) * ((a - 1) * s1 - b * s2) + b * ((a - 1) * s2 + b * s1)) by ring.
    rewrite F1, F2. ring. }
  assert (H2 : s2 * ((a - 1) * (a - 1) + b * b) = 0).
  { replace (s2 * ((a - 1) * (a - 1) + b * b))
      with ((a - 1) * ((a - 1) * s2 + b * s1) - b * ((a - 1) * s1 - b * s2)) by ring.
    rewrite F1, F2. ring. }
  apply Rmult_integral in H1, H2.
  f_equal; tauto.
Qed.

Lemma geometric_sum N d :
  (0 < d < N)%nat -> Cx.sum N (fun k => DFT.omega N (k * d)) = Cx.zero.
Proof.
  intros Hd. apply cx_mul_eq_self with (z := DFT.omega N d); [| apply omega_neq_1; assumption].
  rewrite <- sum_mul_l.
  apply cx_add_cancel_r with (c := Cx.one).
  pose (f := fun k => DFT.omega N (k * d)).
  transitivity (Cx.add (Cx.sum N (fun k => f (S k))) (f O)).
  - f_equal.
    + apply sum_ext. intros k _. unfold f. rewrite omega_add by lia. reflexivity.
    + unfold f. simpl Nat.mul. symmetry. apply omega_0.
  - rewrite sum_shift. f_equal. unfold f. apply omega_period. lia.
Qed.

Lemma orthogonality N n t :
  (n < N)%nat -> (t < N)%nat ->
  Cx.sum N (fun k => Cx.mul (DFT.omega N (k * n)) (Cx.conj (DFT.omega N (t * k)))) =
  if (n =? t)%nat then (INR N, 0) else Cx.zero.
Proof.
  intros Hn Ht. destruct (Nat.eqb_spec n t) as [-> | Hne].
  - rewrite (sum_ext N _ (fun _ => Cx.one)).
    + clear. induction N as [|N IH]; [reflexivity |].
      cbn [Cx.sum]. rewrite IH, S_INR. unfold Cx.add, Cx.one. cbn [fst snd].
      f_equal; ring.
    + intros k _. rewrite (Nat.mul_comm k t). apply omega_unit.
  - destruct (Nat.lt_ge_cases t n) as [Hlt | Hge].
    + rewrite (sum_ext N _ (fun k => DFT.omega N (k * (n - t)))).
      * apply geometric_sum. lia.
      * intros k _. replace (k * n)%nat with (k * (n - t) + t * k)%nat by nia.
        rewrite <- omega_add by lia. rewrite <- cx_mul_assoc, omega_unit.
        apply cx_mul_1_r.
    + rewrite (sum_ext N _ (fun k => Cx.conj (DFT.omega N (k * (t - n))))).
      * rewrite <- sum_conj, geometric_sum by lia. cx_ring.
      * intros k _. replace (t * k)%nat with (k * (t - n) + k * n)%nat by nia.
        rewrite <- omega_add by lia.
        pose proof (omega_unit N (k * n)) as Hu.
        set (w := DFT.omega N (k * n)) in *. set (v := DFT.omega N (k * (t - n))).
        transitivity (Cx.mul (Cx.conj v) (Cx.mul w (Cx.conj w))); [cx_ring |].
        rewrite Hu. apply cx_mul_1_r.
Qed.

(** The inverse transform undoes the transform. *)
Lemma idft_dft N (x : nat -> C) t :
  (t < N)%nat -> DFT.idft N (DFT.dft N x) t = x t.
Proof.
  intros Ht. unfold DFT.idft.
  assert (HN : INR N <> 0) by (apply not_0_INR; lia).
  assert (E : Cx.conj (DFT.dft N (fun k => Cx.conj (DFT.dft N x k)) t) =
              Cx.mul (x t) (INR N, 0)).
  { unfold DFT.dft at 1. rewrite sum_conj.
    rewrite (sum_ext N _ (fun k => Cx.sum N (fun n =>
       Cx.mul (x n) (Cx.mul (DFT.omega N (k * n)) (Cx.conj (DFT.omega N (t * k))))))).
    - rewrite sum_swap.
      rewrite (sum_ext N _ (fun n => Cx.mul (x n)
                 (if (n =? t)%nat then (INR N, 0) else Cx.zero))).
      + rewrite (sum_single N _ t Ht).
        * rewrite Nat.eqb_refl. reflexivity.
        * intros i Hi Hne. destruct (Nat.eqb_spec i t); [contradiction |].
          apply cx_mul_0_r.
      + intros n Hn. rewrite sum_mul_l. rewrite orthogonality by assumption.
        reflexivity.
    - intros k Hk. unfold DFT.dft.
      transitivity (Cx.mul (Cx.sum N (fun n => Cx.mul (x n) (DFT.omega N (k * n))))
                           (Cx.conj (DFT.omega N (t * k)))); [cx_ring |].
      rewrite <- sum_mul_r. apply sum_ext.
      intros n Hn. cx_ring. }
  rewrite E. unfold Cx.scale, Cx.mul. cbn [fst snd].
  apply injective_projections; cbn [fst snd]; field; assumption.
Qed.

End Inversion.

(** ** The table-driven FFT of src/paulstretch-fft.js *)

Lemma for_each_inv {St : Type} (P : nat -> St -> Prop) (body : nat -> St -> St) :
  forall cnt lo s,
    P lo s ->
    (forall i s0, (lo <= i < lo + cnt)%nat -> P i s0 -> P (S i) (body i s0)) ->
    P (lo + cnt)%nat (for_each lo cnt body s).
Proof.
  induction cnt as [|c IH]; intros lo s H0 Hstep; simpl.
  - rewrite Nat.add_0_r. assumption.
  - replace (lo + S c)%nat with (S lo + c)%nat by lia.
    apply IH.
    + apply Hstep; [lia | assumption].
    + intros i s0 Hi. apply Hstep. lia.
Qed.


Lemma Qred_num (m : nat) : Qred (num m) = num m.
Proof.
  unfold num, inject_Z, Qred.
  destruct (Z.ggcd (Z.of_nat m) 1) as [g [a b]] eqn:E.
  pose proof (Z.ggcd_gcd (Z.of_nat m) 1) as Hg. rewrite E in Hg. cbn [fst] in Hg.
  pose proof (Z.ggcd_correct_divisors (Z.of_nat m) 1) as Hd. rewrite E in Hd.
  rewrite Z.gcd_1_r in Hg. subst g. destruct Hd as [Ha Hb].
  rewrite Z.mul_1_l in Ha, Hb. subst a b. reflexivity.
Qed.

Lemma index_of_num q m : (q == num m)%Q -> index_of q = Some m.
Proof.
  intros E. unfold index_of. rewrite (Qred_complete _ _ E), Qred_num.
  unfold num, inject_Z. cbn [Qden Qnum].
  destruct (Z.leb_spec 0 (Z.of_nat m)); [| lia].
  simpl. rewrite Nat2Z.id. reflexivity.
Qed.

Lemma getq_num (a : list R) q m :
  (q == num m)%Q -> (m < length a)%nat -> getq a q = Some (nth m a 0%R).
Proof.
  intros E Hm. unfold getq. rewrite (index_of_num q m E). cbn [bind].
  apply get_some. assumption.
Qed.

Lemma zeros_length n : length (zeros n) = n.
Proof. apply repeat_length. Qed.

Lemma table_contents n :
  let fft := FFTTable.new n in
  FFTTable.size fft = n /\
  FFTTable.invSize fft = (1 / INR n)%R /\
  length (FFTTable.cosTable fft) = (n / 2)%nat /\
  length (FFTTable.sinTable fft) = (n / 2)%nat /\
  forall i, (i < n / 2)%nat ->
    (nth i (FFTTable.cosTable fft) 0%R, nth i (FFTTable.sinTable fft) 0%R) =
    DFT.omega n i.
Proof.
  unfold FFTTable.new.
  pose (P := fun (i : nat) (s : list R * list R) =>
    let '(c, sn) := s in
    length c = (n / 2)%nat /\ length sn = (n / 2)%nat /\
    forall t, (t < i)%nat ->
      (nth t c 0%R, nth t sn 0%R) = DFT.omega n t).
  match goal with |- context [for_each 0 ?cnt ?body ?s0] =>
    pose proof (for_each_inv P body cnt 0 s0) as H end.
  destruct (for_each 0 (n / 2) _ _) as [c sn].
  cbn [FFTTable.size FFTTable.invSize FFTTable.cosTable FFTTable.sinTable].
  split; [reflexivity |]. split; [reflexivity |].
  destruct H as [Hl1 [Hl2 Hv]].
  - unfold P. rewrite !zeros_length. repeat split. intros t Ht. lia.
  - intros i [c0 s0] Hi [Hl1 [Hl2 Hv]]. unfold P.
    rewrite !set_length. split; [assumption |]. split; [assumption |].
    intros t Ht. destruct (Nat.eq_dec t i) as [-> | Hne].
    + rewrite !nth_set_eq by lia. reflexivity.
    + rewrite !nth_set_neq by congruence. apply Hv. lia.
  - split; [assumption |]. split; [assumption |]. apply Hv.
Qed.

Lemma omega_scale c N k :
  c <> O -> N <> O -> DFT.omega (c * N) (c * k) = DFT.omega N k.
Proof.
  intros Hc HN. unfold DFT.omega.
  assert (HRN : INR N <> 0%R) by (apply not_0_INR; assumption).
  assert (HRc : INR c <> 0%R) by (apply not_0_INR; assumption).
  replace (-2 * PI * INR (c * k) / INR (c * N))%R with (-2 * PI * INR k / INR N)%R.
  - reflexivity.
  - rewrite !mult_INR. field. split; assumption.
Qed.

Lemma num_step n len nb :
  n = (nb * len)%nat -> (0 < len)%nat -> (num n / num len == num nb)%Q.
Proof.
  intros -> Hlen. unfold num. rewrite Nat2Z.inj_mul, inject_Z_mult.
  field. intros E. apply (eq_sym) in E.
  assert (Z.of_nat len = 0%Z); [| lia].
  unfold Qeq in E. simpl in E. lia.
Qed.

Lemma table_pass_eq fuel nb halfLen (real imag : list R) r :
  let len := (2 * halfLen)%nat in
  let n := (nb * len)%nat in
  (0 < halfLen)%nat -> (0 < nb)%nat -> (Z.of_nat len < 2147483648)%Z ->
  Radix2.pass fuel n len (DFT.omega len) real imag = Some r ->
  FFTTable.pass fuel n (Z.of_nat len) (FFTTable.new n) real imag = Some r.
Proof.
  intros len n Hh Hnb Hlen Hrun. unfold Radix2.pass in Hrun. unfold FFTTable.pass.
  rewrite shr1_nat by assumption. rewrite Nat2Z.id.
  change (inject_Z (Z.of_nat len)) with (num len).
  destruct (table_contents n) as [_ [_ [Hlc [Hls Htab]]]].
  set (fft := FFTTable.new n) in *.
  assert (Hhalf : (len / 2 = halfLen)%nat).
  { unfold len. rewrite Nat.mul_comm. apply Nat.div_mul. discriminate. }
  assert (Hn2 : (n / 2 = nb * halfLen)%nat).
  { unfold n, len. replace (nb * (2 * halfLen))%nat with (nb * halfLen * 2)%nat by lia.
    apply Nat.div_mul. discriminate. }
  assert (Hstep : (num n / num len == num nb)%Q)
    by (apply num_step; [reflexivity | unfold len; lia]).
  rewrite Hhalf in *.
  match type of Hrun with
  | bind ?w _ = _ => destruct w as [[[i2 re2] im2] |] eqn:Hw; [| discriminate]
  end.
  cbn [bind] in Hrun.
  edestruct (while_loop_sim
               (fun (s : Z * list R * list R) (t : nat * list R * list R) =>
                  s = (Z.of_nat (fst (fst t)), snd (fst t), snd t)))
    as [s' [Hw' Hrel]]; cycle 3.
  - exact Hw.
  - rewrite Hw'. rewrite Hrel. cbn [bind fst snd]. exact Hrun.
  - intros s [[i re] im] ->. cbn [fst snd]. apply Zltb_nat.
  - intros s [[i re] im] t1 -> Hc Hb. cbn [fst snd].
    match type of Hb with
    | bind ?w _ = _ => destruct w as [[re1 im1] |] eqn:Hfor; [| discriminate]
    end.
    cbn [bind] in Hb. injection Hb as <-.
    edestruct (for_loop_sim (fun (j : nat) (s : Q * list R * list R) (t : list R * list R) =>
                 let '(k, a, b) := s in (k == num (j * nb))%Q /\ (a, b) = t))
      as [[[k a] b] [Hfor' [Hk Hab]]]; cycle 2.
    + exact Hfor.
    + rewrite Hfor'. cbn [bind]. injection Hab as -> ->.
      eexists. split; [reflexivity |]. cbn [fst snd]. rewrite Nat2Z.inj_add.
      reflexivity.
    + split; [reflexivity | reflexivity].
    + intros j [[k a] b] [a0 b0] t2 Hj [Hk Hab] Hbody. injection Hab as -> ->.
      simpl in Hj.
      assert (Hidx : (j * nb < n / 2)%nat).
      { rewrite Hn2. rewrite (Nat.mul_comm nb). apply Nat.mul_lt_mono_pos_r; lia. }
      rewrite <- Nat2Z.inj_add. rewrite index_nat. cbn [bind].
      rewrite <- Nat2Z.inj_add. rewrite index_nat. cbn [bind].
      rewrite (getq_num _ k (j * nb) Hk) by lia. cbn [bind].
      rewrite (getq_num _ k (j * nb) Hk) by lia. cbn [bind].
      pose proof (Htab (j * nb)%nat Hidx) as Ht.
      replace (DFT.omega n (j * nb)) with (DFT.omega len j) in Ht.
      * rewrite <- Ht in Hbody. rewrite Hbody. cbn [bind].
        destruct t2 as [a2 b2]. eexists. split; [reflexivity |].
        split; [| reflexivity].
        rewrite Hk, Hstep. unfold num.
        rewrite <- inject_Z_plus. rewrite <- Nat2Z.inj_add.
        replace (j * nb + nb)%nat with (S j * nb)%nat by lia. reflexivity.
      * unfold n. rewrite (Nat.mul_comm j nb). symmetry.
        apply omega_scale; unfold len; lia.
  - reflexivity.
Qed.

Lemma table_forward_correct p fuel (real imag : list R) :
  (p <= 29)%nat ->
  length real = (2 ^ p)%nat -> length imag = (2 ^ p)%nat -> (2 ^ p < fuel)%nat ->
  FFTTable.forward fuel (FFTTable.new (2 ^ p)) real imag =
  Some (DFT.reals (2 ^ p) (DFT.dft (2 ^ p) (DFT.view real imag)),
        DFT.imags (2 ^ p) (DFT.dft (2 ^ p) (DFT.view real imag))).
Proof.
  intros Hp29 Hre Him Hf. unfold FFTTable.forward.
  rewrite (proj1 (table_contents (2 ^ p))).
  pose proof (Nat.pow_gt_lin_r 2 p) as Hp.
  pose proof (pow2_small p Hp29) as Hsmall.
  destruct (bit_reversal_correct p fuel real imag) as [re1 [im1 [Hbr [Hl1 [Hl2 Hv]]]]];
    try assumption; [lia |].
  rewrite (bit_reversal_sim fuel (2 ^ p) real imag (re1, im1)); [| lia | exact Hbr].
  cbn [bind].
  destruct (passes_correct p fuel DFT.omega (DFT.view real imag) re1 im1)
    as [re2 [im2 [Hps [Hl1' [Hl2' Hd]]]]]; try assumption.
  - reflexivity.
  - intros t Ht. unfold DFT.view. destruct (Hv t Ht) as [-> ->]. reflexivity.
  - destruct (arrays_of_view re2 im2 _ _ Hl1' Hl2' Hd) as [<- <-].
    unfold Radix2.passes in Hps.
    match type of Hps with
    | bind ?w _ = _ => destruct w as [[[len2 re3] im3] |] eqn:Hw; [| discriminate]
    end.
    cbn [bind] in Hps. injection Hps as -> ->.
    edestruct (while_loop_sim
                 (fun (s : Z * list R * list R) (t : nat * list R * list R) =>
                    s = (Z.of_nat (fst (fst t)), snd (fst t), snd t) /\
                    exists s0, fst (fst t) = (2 ^ S s0)%nat))
      as [s' [Hw' [Hrel _]]]; cycle 3.
    + exact Hw.
    + rewrite Hw'. rewrite Hrel. reflexivity.
    + intros s [[len re] im] [-> _]. cbn [fst snd]. apply Zleb_nat.
    + intros s [[len re] im] t1 [-> [s0 Hlen]] Hc Hb. cbn [fst snd] in *. subst len.
      apply Nat.leb_le in Hc. pose proof Hc as Hc'.
      apply (proj1 (pow2_le_iff _ _)) in Hc.
      match type of Hb with
      | bind ?w _ = _ => destruct w as [[re4 im4] |] eqn:Hpass; [| discriminate]
      end.
      cbn [bind] in Hb. injection Hb as <-.
      assert (Hn : (2 ^ p = 2 ^ (p - S s0) * (2 * 2 ^ s0))%nat).
      { rewrite <- Nat.pow_succ_r', <- Nat.pow_add_r. f_equal. lia. }
      rewrite Nat.pow_succ_r' in Hpass. rewrite Hn in Hpass.
      apply table_pass_eq in Hpass; try apply pow2_pos;
        [| rewrite <- Nat.pow_succ_r'; lia].
      rewrite <- Hn in Hpass. rewrite <- Nat.pow_succ_r' in Hpass.
      rewrite Hpass. cbn [bind]. eexists. split; [reflexivity |]. cbn [fst snd].
      assert (Hz : (Z.of_nat (2 ^ S s0) < 1073741824)%Z).
      { apply Z.le_lt_trans with (m := Z.of_nat (2 ^ p));
          [apply Nat2Z.inj_le; exact Hc' |].
        apply Z.le_lt_trans with (m := 536870912%Z); [exact Hsmall | reflexivity]. }
      rewrite shl1_nat by exact Hz.
      split; [reflexivity |]. exists (S s0).
      rewrite !Nat.pow_succ_r'. lia.
    + split; [reflexivity |]. exists O. reflexivity.
Qed.

Lemma table_inverse_correct p fuel (real imag : list R) :
  (p <= 29)%nat ->
  length real = (2 ^ p)%nat -> length imag = (2 ^ p)%nat -> (2 ^ p < fuel)%nat ->
  FFTTable.inverse fuel (FFTTable.new (2 ^ p)) real imag =
  FFT.inverse fuel (FFT.new (2 ^ p)) real imag.
Proof.
  intros Hp Hre Him Hf. unfold FFTTable.inverse, FFT.inverse.
  destruct (table_contents (2 ^ p)) as [Hs [Hi _]]. rewrite Hs, Hi.
  change (FFT.size (FFT.new (2 ^ p))) with (2 ^ p)%nat.
  rewrite (for_pointwise Ropp) by assumption. cbn [bind].
  rewrite table_forward_correct, forward_correct;
    try assumption; try (rewrite length_map; assumption).
  reflexivity.
Qed.

(** ** The passes are [log2 N] in number *)

Lemma radix2_passes_unroll p fuel (tw : nat -> nat -> R * R) (real imag : list R) :
  (p < fuel)%nat ->
  Radix2.passes fuel (2 ^ p) tw real imag =
  for_loop 0 p
    (fun s '(re, im) => Radix2.pass fuel (2 ^ p) (2 ^ S s) (tw (2 ^ S s)%nat) re im)
    (real, imag).
Proof.
  intros Hf. unfold Radix2.passes.
  set (body := fun '(len, real, imag) =>
         '(real, imag) <- Radix2.pass fuel (2 ^ p) len (tw len) real imag ;;
         Some ((len * 2)%nat, real, imag)).
  set (cond := fun '(len, _, _) => (len <=? 2 ^ p)%nat).
  assert (H : forall q s f re im, (s + q = p)%nat -> (q < f)%nat ->
     ('(_, real, imag) <- while_loop f cond body ((2 ^ S s)%nat, re, im) ;;
      Some (real, imag)) =
     for_loop s q
       (fun s '(re, im) => Radix2.pass fuel (2 ^ p) (2 ^ S s) (tw (2 ^ S s)%nat) re im)
       (re, im)).
  { induction q as [|q IH]; intros s f re im Hsq Hq.
    - destruct f as [|f]; [lia |]. cbn [while_loop for_loop]. unfold cond at 1.
      destruct (Nat.leb_spec (2 ^ S s) (2 ^ p)) as [Hle | Hgt].
      + apply (proj1 (pow2_le_iff _ _)) in Hle. lia.
      + reflexivity.
    - destruct f as [|f]; [lia |]. cbn [while_loop for_loop]. unfold cond at 1.
      destruct (Nat.leb_spec (2 ^ S s) (2 ^ p)) as [Hle | Hgt].
      + unfold body at 1.
        destruct (Radix2.pass fuel (2 ^ p) (2 ^ S s) (tw (2 ^ S s)%nat) re im)
          as [[re' im'] |]; [| reflexivity].
        cbn [bind].
        replace (2 ^ S s * 2)%nat with (2 ^ S (S s))%nat
          by (rewrite (Nat.pow_succ_r' 2 (S s)); lia).
        apply IH; lia.
      + assert (p < S s)%nat by (apply Nat.pow_lt_mono_r_iff with (a := 2%nat); lia).
        lia. }
  apply (H p O fuel real imag); [reflexivity | assumption].
Qed.

(** The passes of [FFT.forward] on a size of [2^29] or less: one for each
    of the lengths [2, 4, .., N]. *)
Lemma passes_unrolled p fuel (real imag : list R) r :
  (p <= 29)%nat -> (p < fuel)%nat ->
  Radix2.passes fuel (2 ^ p) Radix2.twiddle real imag = Some r ->
  for_loop 0 p
    (fun s '(re, im) =>
       FFT.pass fuel (2 ^ p) (Z.of_nat (2 ^ S s))
         (FFT.twiddle (Z.of_nat (2 ^ S s))) re im)
    (real, imag) = Some r.
Proof.
  intros Hp Hf Hrun. rewrite radix2_passes_unroll in Hrun by assumption.
  pose proof (pow2_small p Hp) as Hsmall.
  edestruct (for_loop_sim (fun (_ : nat) (s t : list R * list R) => s = t))
    as [s' [Hrun' Hrel]]; cycle 2.
  - exact Hrun.
  - rewrite Hrun'. rewrite Hrel. reflexivity.
  - reflexivity.
  - intros s s0 [re im] t1 Hs -> Hb. cbv beta iota in Hb |- *.
    exists t1. split; [| reflexivity].
    apply pass_sim with (tw2 := Radix2.twiddle (2 ^ S s)); [| apply twiddle_nat | exact Hb].
    assert (Hle : (2 ^ S s <= 2 ^ p)%nat) by (apply Nat.pow_le_mono_r; lia).
    lia.
Qed.

(** ** Sizes of [2^30] and more

    The pass of length [2^30] is followed by [len <<= 1], which gives
    [-2^31]: [len <= n] stays true, and in the pass of that length
    [i += len] keeps [i] below [n].  The loops never end. *)

Lemma shl1_pow2 k :
  (1 <= k <= 30)%Z ->
  Int32.shl1 (2 ^ k) = if (k =? 30)%Z then (-2147483648)%Z else (2 ^ (k + 1))%Z.
Proof.
  intros Hk. destruct (Z.eqb_spec k 30) as [-> | Hne].
  - reflexivity.
  - assert (H1 : (2 ^ k <= 2 ^ 29)%Z) by (apply Z.pow_le_mono_r; lia).
    assert (H2 : (0 < 2 ^ k)%Z) by (apply Z.pow_pos_nonneg; lia).
    change (2 ^ 29)%Z with 536870912%Z in H1.
    unfold Int32.shl1. rewrite (wrap_small (2 ^ k)) by lia.
    rewrite wrap_small by lia. rewrite Z.pow_add_r by lia. lia.
Qed.

Lemma reachable_len_step len : Int32.reachable_len len -> Int32.reachable_len (Int32.shl1 len).
Proof.
  intros [[k [Hk ->]] | [-> | ->]].
  - rewrite shl1_pow2 by assumption. destruct (Z.eqb_spec k 30) as [-> | Hne].
    + right. left. reflexivity.
    + left. exists (k + 1)%Z. split; [lia | reflexivity].
  - right. right. reflexivity.
  - right. right. reflexivity.
Qed.

Lemma reachable_len_le len : Int32.reachable_len len -> (len <= 1073741824)%Z.
Proof.
  intros [[k [Hk ->]] | [-> | ->]]; [| lia | lia].
  change 1073741824%Z with (2 ^ 30)%Z. apply Z.pow_le_mono_r; lia.
Qed.

(** A pass of negative length never ends. *)
Lemma pass_negative_len fuel n len tw (real imag : list R) :
  (len < 0)%Z -> (0 < n)%nat -> FFT.pass fuel n len tw real imag = None.
Proof.
  intros Hlen Hn. unfold FFT.pass.
  match goal with
  | |- bind ?w _ = _ => destruct w as [[[i re] im] |] eqn:Hw; [| reflexivity]
  end.
  exfalso.
  apply (while_loop_post (fun s : Z * list R * list R => (fst (fst s) <= 0)%Z)) in Hw.
  - destruct Hw as [Hi Hc]. cbn [fst] in Hi.
    destruct (Z.ltb_spec i (Z.of_nat n)); [discriminate | lia].
  - intros [[i0 re0] im0] s1 Hi _ Hb. cbn [fst] in Hi.
    match type of Hb with
    | bind ?w _ = _ => destruct w as [[re1 im1] |]; [| discriminate]
    end.
    cbn [bind] in Hb. injection Hb as <-. cbn [fst]. lia.
  - cbn [fst]. lia.
Qed.

Lemma passes_stuck fuel n tw (real imag : list R) :
  (1073741824 <= Z.of_nat n)%Z -> FFT.passes fuel n tw real imag = None.
Proof.
  intros Hn. unfold FFT.passes.
  match goal with
  | |- bind ?w _ = _ => destruct w as [[[len re] im] |] eqn:Hw; [| reflexivity]
  end.
  exfalso.
  apply (while_loop_post (fun s : Z * list R * list R => Int32.reachable_len (fst (fst s))))
    in Hw.
  - destruct Hw as [Hr Hc]. cbn [fst] in Hr. apply reachable_len_le in Hr.
    destruct (Z.leb_spec len (Z.of_nat n)); [discriminate | lia].
  - intros [[len0 re0] im0] s1 Hr _ Hb. cbn [fst] in Hr.
    match type of Hb with
    | bind ?w _ = _ => destruct w as [[re1 im1] |]; [| discriminate]
    end.
    cbn [bind] in Hb. injection Hb as <-. cbn [fst].
    apply reachable_len_step. assumption.
  - cbn [fst]. left. exists 1%Z. split; [lia | reflexivity].
Qed.

Lemma forward_stuck fuel n (real imag : list R) :
  (1073741824 <= Z.of_nat n)%Z -> FFT.forward fuel (FFT.new n) real imag = None.
Proof.
  intros Hn. unfold FFT.forward. cbn [FFT.size FFT.new].
  destruct (FFT.bit_reversal fuel n real imag) as [[re im] |]; [| reflexivity].
  cbn [bind]. apply passes_stuck. assumption.
Qed.

Lemma table_forward_stuck fuel n (real imag : list R) :
  (1073741824 <= Z.of_nat n)%Z ->
  FFTTable.forward fuel (FFTTable.new n) real imag = None.
Proof.
  intros Hn. unfold FFTTable.forward.
  rewrite (proj1 (table_contents n)).
  destruct (FFT.bit_reversal fuel n real imag) as [[re0 im0] |]; [| reflexivity].
  cbn [bind].
  match goal with
  | |- bind ?w _ = _ => destruct w as [[[len re] im] |] eqn:Hw; [| reflexivity]
  end.
  exfalso.
  apply (while_loop_post (fun s : Z * list R * list R => Int32.reachable_len (fst (fst s))))
    in Hw.
  - destruct Hw as [Hr Hc]. cbn [fst] in Hr. apply reachable_len_le in Hr.
    destruct (Z.leb_spec len (Z.of_nat n)); [discriminate | lia].
  - intros [[len0 re1] im1] s1 Hr _ Hb. cbn [fst] in Hr.
    match type of Hb with
    | bind ?w _ = _ => destruct w as [[re2 im2] |]; [| discriminate]
    end.
    cbn [bind] in Hb. injection Hb as <-. cbn [fst].
    apply reachable_len_step. assumption.
  - cbn [fst]. left. exists 1%Z. split; [lia | reflexivity].
Qed.

Lemma pow2_30 : Z.of_nat (2 ^ 30) = 1073741824%Z.
Proof.
  rewrite Nat2Z.inj_pow. reflexivity.
Qed.

(** ** Round trip *)

Lemma idft_ext N (X Y : nat -> C) t :
  (forall k, (k < N)%nat -> X k = Y k) -> DFT.idft N X t = DFT.idft N Y t.
Proof.
  intros H. unfold DFT.idft. f_equal. f_equal. apply dft_ext.
  intros k Hk. rewrite H by assumption. reflexivity.
Qed.


Lemma reals_view (x imag : list R) :
  DFT.reals (length x) (DFT.view x imag) = x.
Proof.
  symmetry. apply list_eq_map_seq; [reflexivity |]. intros t _. reflexivity.
Qed.

Lemma imags_view_zeros (x : list R) n :
  DFT.imags n (DFT.view x (zeros n)) = zeros n.
Proof.
  symmetry. apply list_eq_map_seq; [apply zeros_length |].
  intros t _. unfold DFT.view. cbn [snd]. reflexivity.
Qed.

Lemma roundtrip_arrays p (real imag : list R) :
  length real = (2 ^ p)%nat -> length imag = (2 ^ p)%nat ->
  let X := DFT.dft (2 ^ p) (DFT.view real imag) in
  let Y := DFT.idft (2 ^ p) (DFT.view (DFT.reals (2 ^ p) X) (DFT.imags (2 ^ p) X)) in
  DFT.reals (2 ^ p) Y = real /\ DFT.imags (2 ^ p) Y = imag.
Proof.
  intros Hre Him X Y.
  destruct (arrays_ext (2 ^ p) Y (DFT.view real imag)) as [E1 E2].
  - intros t Ht. unfold Y.
    rewrite (idft_ext _ _ X) by (intros k Hk; apply view_arrays; assumption).
    apply idft_dft. assumption.
  - rewrite E1, E2. split.
    + rewrite <- Hre. apply reals_view.
    + symmetry. apply list_eq_map_seq; [assumption |]. intros t _. reflexivity.
Qed.

(** ** The inverse transform of a mirrored spectrum *)

Section Mirror.
Local Open Scope R_scope.








End Mirror.

(** ** The rephaser *)

Section RephaserProofs.
Local Open Scope R_scope.

Lemma half_num h : (num (2 * h) / 2 == num h)%Q.
Proof.
  unfold num. rewrite Nat2Z.inj_mul, inject_Z_mult. simpl inject_Z at 1. field.
Qed.








End RephaserProofs.

(** * The claims *)

(** C1, as the code has it.  For every power of two [N = 2^p] with
    [p <= 29] and every pair of arrays of length [N], [FFT.forward] (of
    src/index.js and of src/paulstretch-fft.js) returns, and leaves in bin
    [k] the value [X[k] = sum over n of x[n] * e^(-2 pi i k n / N)] of the
    contents [x] it started from.  It does so by the bit reversal
    permutation followed by [p = log2 N] butterfly passes, of lengths
    [2, 4, .., N]. *)
Theorem fft_forward_is_dft (p fuel : nat) (real imag : list R) :
  (p <= 29)%nat ->
  length real = (2 ^ p)%nat -> length imag = (2 ^ p)%nat -> (2 ^ p < fuel)%nat ->
  let N := (2 ^ p)%nat in
  let X := DFT.dft N (DFT.view real imag) in
  FFT.forward fuel (FFT.new N) real imag = Some (DFT.reals N X, DFT.imags N X) /\
  FFTTable.forward fuel (FFTTable.new N) real imag =
    Some (DFT.reals N X, DFT.imags N X) /\
  (forall k, (k < N)%nat -> DFT.view (DFT.reals N X) (DFT.imags N X) k = X k) /\
  exists real1 imag1,
    FFT.bit_reversal fuel N real imag = Some (real1, imag1) /\
    (forall t, (t < N)%nat ->
       DFT.view real1 imag1 t = DFT.view real imag (DFT.brev p t)) /\
    for_loop 0 p
      (fun s '(re, im) =>
         FFT.pass fuel N (Z.of_nat (2 ^ S s)) (FFT.twiddle (Z.of_nat (2 ^ S s))) re im)
      (real1, imag1) = Some (DFT.reals N X, DFT.imags N X).
Proof.
  intros Hp29 Hre Him Hf N X.
  split; [apply forward_correct; assumption |].
  split; [apply table_forward_correct; assumption |].
  split; [intros k Hk; apply view_arrays; assumption |].
  pose proof (Nat.pow_gt_lin_r 2 p) as Hp.
  pose proof (pow2_small p Hp29) as Hsmall.
  destruct (bit_reversal_correct p fuel real imag) as [re1 [im1 [Hbr [Hl1 [Hl2 Hv]]]]];
    try assumption; [lia |].
  exists re1, im1.
  split; [apply bit_reversal_sim; [fold N in Hsmall |- *; lia | exact Hbr] |]. split.
  - intros t Ht. unfold DFT.view. destruct (Hv t Ht) as [-> ->]. reflexivity.
  - pose proof (radix2_forward_correct p fuel real imag Hre Him Hf) as Hfw.
    unfold Radix2.forward in Hfw. rewrite Hbr in Hfw. cbn [bind] in Hfw.
    apply passes_unrolled; [assumption | lia | exact Hfw].
Qed.

Lemma fft_forward_is_dft_witness :
  let X := DFT.dft (2 ^ 1) (DFT.view [1; 0]%R [0; 0]%R) in
  FFT.forward 3 (FFT.new (2 ^ 1)) [1; 0]%R [0; 0]%R =
    Some (DFT.reals (2 ^ 1) X, DFT.imags (2 ^ 1) X).
Proof.
  exact (proj1 (fft_forward_is_dft 1 3 [1; 0]%R [0; 0]%R
                  (proj1 (Nat.leb_le 1 29) eq_refl)
                  eq_refl eq_refl (Nat.lt_succ_diag_r 2))).
Defined.

(** C1, as the claim has it, fails at [N = 2^30]: whatever the arrays hold
    and however long the call is left to run, [FFT.forward] returns
    nothing, in src/index.js and in src/paulstretch-fft.js alike.  After
    the pass of length [2^30], [len <<= 1] is [-2^31]. *)
Lemma fft_forward_never_returns_at_2_30 :
  Int32.shl1 1073741824 = (-2147483648)%Z /\
  forall (fuel : nat) (real imag : list R),
    FFT.forward fuel (FFT.new (2 ^ 30)) real imag = None /\
    FFTTable.forward fuel (FFTTable.new (2 ^ 30)) real imag = None.
Proof.
  split; [reflexivity |]. intros fuel real imag. split.
  - apply forward_stuck. rewrite pow2_30. lia.
  - apply table_forward_stuck. rewrite pow2_30. lia.
Qed.

(** C2, as the code has it.  For every power of two [N = 2^p] with
    [p <= 29] and every real array [x] of length [N], [FFT.inverse] after
    [FFT.forward] on [(x, 0)] returns [(x, 0)]: the round trip recovers [x]
    in exact arithmetic.  [inverse] is the conjugation of the input,
    [forward], and the conjugation and scaling by [1 / N] of the output. *)
Theorem fft_inverse_forward_roundtrip (p fuel : nat) (x : list R) :
  (p <= 29)%nat ->
  length x = (2 ^ p)%nat -> (2 ^ p < fuel)%nat ->
  let N := (2 ^ p)%nat in
  ('(re, im) <- FFT.forward fuel (FFT.new N) x (zeros N) ;;
   FFT.inverse fuel (FFT.new N) re im) = Some (x, zeros N) /\
  ('(re, im) <- FFTTable.forward fuel (FFTTable.new N) x (zeros N) ;;
   FFTTable.inverse fuel (FFTTable.new N) re im) = Some (x, zeros N) /\
  (forall real imag, length real = N -> length imag = N ->
     FFT.inverse fuel (FFT.new N) real imag =
     ('(re, im) <- FFT.forward fuel (FFT.new N) real (map Ropp imag) ;;
      Some (map (fun r => r * (1 / INR N))%R re,
            map (fun r => r * - (1 / INR N))%R im))).
Proof.
  intros Hp29 Hx Hf N. subst N.
  pose proof (zeros_length (2 ^ p)) as Hz.
  destruct (roundtrip_arrays p x (zeros (2 ^ p)) Hx Hz) as [E1 E2].
  assert (Hrt : ('(re, im) <- FFT.forward fuel (FFT.new (2 ^ p)) x (zeros (2 ^ p)) ;;
                 FFT.inverse fuel (FFT.new (2 ^ p)) re im) = Some (x, zeros (2 ^ p))).
  { rewrite forward_correct by assumption. cbn [bind].
    rewrite inverse_correct by (apply reals_length || apply imags_length || assumption).
    rewrite E1, E2. reflexivity. }
  split; [exact Hrt |]. split.
  - rewrite table_forward_correct by assumption.
    rewrite forward_correct in Hrt by assumption. cbn [bind] in *.
    rewrite table_inverse_correct
      by (apply reals_length || apply imags_length || assumption).
    exact Hrt.
  - intros real imag Hl1 Hl2. unfold FFT.inverse.
    change (FFT.size (FFT.new (2 ^ p))) with (2 ^ p)%nat.
    rewrite (for_pointwise Ropp) by assumption. cbn [bind].
    rewrite forward_correct by (rewrite ?length_map; assumption).
    cbn [bind].
    apply for_pointwise2; [apply reals_length | apply imags_length].
Qed.

Lemma fft_inverse_forward_roundtrip_witness :
  ('(re, im) <- FFT.forward 3 (FFT.new (2 ^ 1)) [1; 0]%R (zeros (2 ^ 1)) ;;
   FFT.inverse 3 (FFT.new (2 ^ 1)) re im) = Some ([1; 0]%R, zeros (2 ^ 1)).
Proof.
  exact (proj1 (fft_inverse_forward_roundtrip 1 3 [1; 0]%R
                  (proj1 (Nat.leb_le 1 29) eq_refl)
                  eq_refl (Nat.lt_succ_diag_r 2))).
Defined.

(** C2, as the claim has it, fails at [N = 2^30]: the round trip recovers
    nothing, since its first call never returns: [len <<= 1] turns the
    length [2^30] of the last pass into [-2^31]. *)
Lemma fft_roundtrip_never_returns_at_2_30 :
  Int32.shl1 1073741824 = (-2147483648)%Z /\
  forall (fuel : nat) (x : list R),
    length x = (2 ^ 30)%nat ->
    ('(re, im) <- FFT.forward fuel (FFT.new (2 ^ 30)) x (zeros (2 ^ 30)) ;;
     FFT.inverse fuel (FFT.new (2 ^ 30)) re im) = None /\
    ('(re, im) <- FFTTable.forward fuel (FFTTable.new (2 ^ 30)) x (zeros (2 ^ 30)) ;;
     FFTTable.inverse fuel (FFTTable.new (2 ^ 30)) re im) = None.
Proof.
  split; [reflexivity |]. intros fuel x _. split.
  - rewrite forward_stuck by (rewrite pow2_30; lia). reflexivity.
  - rewrite table_forward_stuck by (rewrite pow2_30; lia). reflexivity.
Qed.

(** ** The window size *)

Lemma pow2_Z_nat (k : Z) : (0 <= k)%Z -> Z.to_nat (2 ^ k) = (2 ^ Z.to_nat k)%nat.
Proof.
  intros Hk. rewrite Z2Nat.inj_pow by lia. reflexivity.
Qed.

Lemma pow2_nat_Z (p : nat) : Z.of_nat (2 ^ p) = (2 ^ Z.of_nat p)%Z.
Proof.
  rewrite Nat2Z.inj_pow. reflexivity.
Qed.

Lemma pow2_ceil_log2_spec (n : Z) :
  (1 <= n)%Z ->
  let p := Z.to_nat (Z.log2_up n) in
  pow2_ceil_log2 n = (2 ^ p)%nat /\
  (n <= Z.of_nat (2 ^ p))%Z /\
  (Z.of_nat (2 ^ p) < 2 * n)%Z /\
  ((2 <= n)%Z -> (1 <= p)%nat).
Proof.
  intros Hn p. unfold pow2_ceil_log2.
  destruct (Z.leb_spec n 0) as [H0 | _]; [lia |].
  pose proof (Z.log2_up_nonneg n) as Hk.
  split; [apply pow2_Z_nat; assumption |].
  unfold p. rewrite pow2_nat_Z, Z2Nat.id by assumption.
  destruct (Z.eq_dec n 1) as [-> | Hne].
  - simpl. repeat split; lia.
  - pose proof (Z.log2_up_spec n ltac:(lia)) as [Hlo Hhi].
    split; [assumption |]. split.
    + replace (2 ^ Z.log2_up n)%Z with (2 * 2 ^ Z.pred (Z.log2_up n))%Z; [lia |].
      rewrite <- Z.pow_succ_r.
      * f_equal. lia.
      * pose proof (Z.log2_up_pos n ltac:(lia)). lia.
    + intros _. pose proof (Z.log2_up_pos n ltac:(lia)). lia.
Qed.

(** [Z.log2_up n] is the ceiling of the real logarithm [log2 n]. *)
Lemma log2_up_is_ceiling (n : Z) :
  (1 <= n)%Z ->
  (IZR (Z.log2_up n) - 1 < ln (IZR n) / ln 2 <= IZR (Z.log2_up n))%R.
Proof.
  intros Hn.
  assert (Hln2 : (0 < ln 2)%R) by (rewrite <- ln_1; apply ln_increasing; lra).
  destruct (Z.eq_dec n 1) as [-> | Hne].
  - change (Z.log2_up 1) with 0%Z. rewrite ln_1. unfold Rdiv.
    rewrite Rmult_0_l. lra.
  - pose proof (Z.log2_up_spec n ltac:(lia)) as [Hlo Hhi].
    pose proof (Z.log2_up_pos n ltac:(lia)) as Hpos.
    assert (Hpow : forall k, (0 <= k)%Z -> ln (IZR (2 ^ k)) = (IZR k * ln 2)%R).
    { intros k Hk. rewrite <- (Z2Nat.id k) at 1 by assumption.
      rewrite <- pow_IZR. rewrite ln_pow by lra.
      rewrite INR_IZR_INZ, Z2Nat.id by assumption. reflexivity. }
    assert (H1 : (ln (IZR (2 ^ Z.pred (Z.log2_up n))) < ln (IZR n))%R).
    { apply ln_increasing.
      - apply IZR_lt. apply Z.pow_pos_nonneg; lia.
      - apply IZR_lt. assumption. }
    assert (H2 : (ln (IZR n) <= ln (IZR (2 ^ Z.log2_up n)))%R).
    { destruct (Z.eq_dec n (2 ^ Z.log2_up n)) as [E | Hlt].
      - rewrite <- E. lra.
      - left. apply ln_increasing; [apply IZR_lt; lia | apply IZR_lt; lia]. }
    rewrite Hpow in H1, H2 by lia.
    replace (IZR (Z.pred (Z.log2_up n))) with (IZR (Z.log2_up n) - 1)%R in H1
      by (rewrite <- minus_IZR; f_equal; lia).
    split.
    + apply Rmult_lt_reg_r with (r := ln 2); [assumption |].
      unfold Rdiv. rewrite Rmult_assoc, Rinv_l by lra. lra.
    + apply Rmult_le_reg_r with (r := ln 2); [assumption |].
      unfold Rdiv. rewrite Rmult_assoc, Rinv_l by lra. lra.
Qed.

(** ** Peak normalization *)

Section Normalize.
Local Open Scope R_scope.

Lemma peak_nonneg l : 0 <= Signal.peak l.
Proof.
  induction l as [|x l IH]; simpl; [lra |].
  apply Rle_trans with (r2 := Signal.peak l); [assumption | apply Rmax_r].
Qed.

Lemma peak_ge l x : In x l -> Rabs x <= Signal.peak l.
Proof.
  induction l as [|y l IH]; intros Hin; [destruct Hin |].
  simpl. destruct Hin as [-> | Hin].
  - apply Rmax_l.
  - apply Rle_trans with (r2 := Signal.peak l); [auto | apply Rmax_r].
Qed.

Lemma peak_attained l :
  l <> [] -> exists x, In x l /\ (Signal.peak l = Rabs x \/ Signal.peak l = 0).
Proof.
  induction l as [|y l IH]; intros Hne; [contradiction |].
  simpl. destruct (Rle_dec (Rabs y) (Signal.peak l)) as [Hle | Hgt].
  - rewrite Rmax_right by assumption.
    destruct l as [|z l'].
    + exists y. split; [left; reflexivity | right; reflexivity].
    + destruct IH as [x [Hin Hx]]; [discriminate |].
      exists x. split; [right; assumption | assumption].
  - rewrite Rmax_left by lra. exists y. split; [left; reflexivity | left; reflexivity].
Qed.

Lemma fold_max_peak l a :
  0 <= a ->
  fold_left (fun maxVal x => Rmax maxVal (Rabs x)) l a = Rmax a (Signal.peak l).
Proof.
  revert a. induction l as [|x l IH]; intros a Ha; simpl.
  - rewrite Rmax_left; lra.
  - rewrite IH by (apply Rle_trans with (r2 := a); [assumption | apply Rmax_l]).
    rewrite Rmax_assoc. reflexivity.
Qed.


Lemma scaled_bounded (target : R) l :
  0 <= target <= 1 -> 0 < Signal.peak l ->
  Signal.bounded (map (fun x => x * (target / Signal.peak l)) l).
Proof.
  intros Ht HM. unfold Signal.bounded. apply Forall_forall. intros y Hy.
  apply in_map_iff in Hy. destruct Hy as [x [<- Hx]].
  pose proof (peak_ge l x Hx) as Hle. pose proof (Rabs_pos x) as Hx0.
  rewrite Rabs_mult. rewrite (Rabs_right (target / Signal.peak l)).
  - apply Rle_trans with (r2 := Signal.peak l * (target / Signal.peak l)).
    + apply Rmult_le_compat_r; [| assumption].
      apply Rmult_le_pos; [lra |]. left. apply Rinv_0_lt_compat. assumption.
    + unfold Rdiv. rewrite (Rmult_comm target), <- Rmult_assoc, Rinv_r by lra. lra.
  - apply Rle_ge. apply Rmult_le_pos; [lra |]. left. apply Rinv_0_lt_compat. assumption.
Qed.

Lemma peak_zero_bounded l : Signal.peak l = 0 -> Signal.bounded l.
Proof.
  intros H0. unfold Signal.bounded. apply Forall_forall. intros x Hx.
  pose proof (peak_ge l x Hx). lra.
Qed.

Lemma fold_max_num l a :
  0 <= a ->
  fold_left (fun maxVal x => Sample.max maxVal (Sample.abs x)) (map Num l) (Num a) =
  Num (Rmax a (Signal.peak l)).
Proof.
  intros Ha. rewrite <- fold_max_peak by assumption.
  revert a Ha. induction l as [|x l IH]; intros a Ha; simpl; [reflexivity |].
  apply IH. apply Rle_trans with (r2 := a); [assumption | apply Rmax_l].
Qed.

Lemma fold_max_nan a :
  fold_left (fun maxVal x => Sample.max maxVal (Sample.abs x)) a NaN = NaN.
Proof.
  induction a as [|x a IH]; simpl; [reflexivity | assumption].
Qed.

Lemma fold_max_has_nan a m :
  In NaN a ->
  fold_left (fun maxVal x => Sample.max maxVal (Sample.abs x)) a m = NaN.
Proof.
  revert m. induction a as [|x a IH]; intros m Hin; [destruct Hin |].
  simpl. destruct Hin as [-> | Hin].
  - destruct m; simpl; apply fold_max_nan.
  - apply IH. assumption.
Qed.

(** The normalization of src/index.js on a channel of numbers: scale by
    [0.95 / M] when [M > 0]. *)
Lemma normalize_spec l :
  let M := Signal.peak l in
  (0 < M ->
   PaulStretch.normalize (map Num l) = map Num (map (fun x => x * (0.95 / M)) l)) /\
  (M = 0 -> PaulStretch.normalize (map Num l) = map Num l) /\
  (exists l', PaulStretch.normalize (map Num l) = map Num l' /\ Signal.bounded l').
Proof.
  intros M. unfold PaulStretch.normalize.
  rewrite fold_max_num by lra. rewrite Rmax_right by apply peak_nonneg. fold M.
  unfold Sample.positive.
  destruct (Rlt_dec 0 M) as [Hpos | Hnp].
  - assert (E : map (fun x => Sample.mul x (Sample.div (Num 0.95) (Num M))) (map Num l) =
                map Num (map (fun x => x * (0.95 / M)) l)).
    { rewrite !map_map. reflexivity. }
    split; [intros _; exact E |]. split; [lra |].
    eexists. split; [exact E |]. apply scaled_bounded; [lra | assumption].
  - pose proof (peak_nonneg l). fold M in H.
    split; [lra |]. split; [reflexivity |].
    exists l. split; [reflexivity |]. apply peak_zero_bounded. unfold M in *. lra.
Qed.

(** A channel that holds NaN is left as it is: [maxVal] is NaN, and
    [maxVal > 0] is false. *)
Lemma normalize_nan a : In NaN a -> PaulStretch.normalize a = a.
Proof.
  intros Hin. unfold PaulStretch.normalize. rewrite fold_max_has_nan by assumption.
  reflexivity.
Qed.


Lemma peak_zeros n : Signal.peak (zeros n) = 0.
Proof.
  unfold zeros. induction n as [|n IH]; simpl; [reflexivity |].
  rewrite IH, Rabs_R0. apply Rmax_left. lra.
Qed.

Lemma zeros_num n : Sample.zeros n = map Num (zeros n).
Proof.
  unfold Sample.zeros, zeros. induction n as [|n IH]; simpl; [reflexivity |].
  rewrite IH. reflexivity.
Qed.

Lemma normalize_zeros n : PaulStretch.normalize (Sample.zeros n) = Sample.zeros n.
Proof.
  rewrite zeros_num. apply (proj1 (proj2 (normalize_spec (zeros n)))). apply peak_zeros.
Qed.

End Normalize.

(** ** The sort of the parallel reassembly *)

Section Sorting.








End Sorting.

(** ** What a loop that returned has established *)


Lemma for_of_post {A St : Type} (P : St -> Prop) (body : A -> St -> option St) :
  forall l s s',
    PaulStretch.for_of l body s = Some s' ->
    P s ->
    (forall x s0 s1, In x l -> P s0 -> body x s0 = Some s1 -> P s1) ->
    P s'.
Proof.
  induction l as [|x l IH]; intros s s' Hrun H0 Hstep; simpl in Hrun.
  - injection Hrun as <-. assumption.
  - destruct (body x s) as [s1 |] eqn:Hb; [| discriminate]. cbn [bind] in Hrun.
    apply IH with (s := s1); try assumption.
    + apply Hstep with (x := x) (s0 := s); [left; reflexivity | assumption | assumption].
    + intros y s0 s2 Hy. apply Hstep. right. assumption.
Qed.


(** ** Stores *)

Lemma evolves_refl W h : Signal.evolves W h h.
Proof. split; [reflexivity |]. intros l. split; reflexivity. Qed.

Lemma evolves_trans W h1 h2 h3 :
  Signal.evolves W h1 h2 -> Signal.evolves W h2 h3 -> Signal.evolves W h1 h3.
Proof.
  intros [L1 H1] [L2 H2]. split; [congruence |].
  intros l. destruct (H1 l) as [A1 B1]. destruct (H2 l) as [A2 B2].
  split; [| congruence]. intros Hl. rewrite A2, A1 by assumption. reflexivity.
Qed.

Lemma evolves_weaken (W W' : loc -> Prop) h h' :
  (forall l, W l -> W' l) -> Signal.evolves W h h' -> Signal.evolves W' h h'.
Proof.
  intros Hw [L H]. split; [assumption |]. intros l. destruct (H l) as [A B].
  split; [| assumption]. intros Hl. apply A. intros Hwl. apply Hl, Hw, Hwl.
Qed.

Lemma get_set_neq {A : Type} (a : list A) i j v :
  i <> j -> get (set a i v) j = get a j.
Proof.
  unfold get. revert i j. induction a as [|x a IH]; intros [|i] [|j] Hij; simpl; auto; try lia.
Qed.

Lemma get_set_eq {A : Type} (a : list A) i v :
  (i < length a)%nat -> get (set a i v) i = Some v.
Proof.
  unfold get. revert i. induction a as [|x a IH]; intros [|i] Hi; simpl in *; try lia; auto.
  apply IH. lia.
Qed.

Lemma get_nth {A : Type} (a : list A) i x d : get a i = Some x -> nth i a d = x.
Proof. unfold get. apply nth_error_nth. Qed.

Lemma evolves_set (W : loc -> Prop) (h : heap) l a v :
  W l -> get h l = Some a -> length v = length a ->
  Signal.evolves W h (set h l v).
Proof.
  intros Hw Hg Hl. split; [apply set_length |].
  intros l'. split.
  - intros Hn. apply get_set_neq. intros ->. contradiction.
  - destruct (Nat.eq_dec l l') as [<- | Hne].
    + rewrite nth_set_eq by (apply get_in_range in Hg; assumption).
      rewrite (get_nth h l a [] Hg). assumption.
    + rewrite nth_set_neq by assumption. reflexivity.
Qed.

Lemma add_at_length a q v : length (PaulStretch.add_at a q v) = length a.
Proof.
  unfold PaulStretch.add_at. destruct (index_of q) as [i |]; [| reflexivity].
  destruct (get a i); [apply set_length | reflexivity].
Qed.

(** ** The stretch writes into the output channels only *)

Lemma getChannelData_in output ch l :
  AudioBuffer.getChannelData output ch = Some l -> Signal.in_output output l.
Proof.
  unfold AudioBuffer.getChannelData, get, Signal.in_output. apply nth_error_In.
Qed.

Lemma overlap_add_evolves (W : loc -> Prop) fuel winSize half outputPos outLen l
  block bo h bo' h' :
  PaulStretch.overlap_add fuel winSize half outputPos outLen l block bo h =
    Some (bo', h') ->
  W l -> Signal.evolves W h h'.
Proof.
  unfold PaulStretch.overlap_add. intros Hrun Hw.
  apply bind_inv in Hrun. destruct Hrun as [[i1 h1] [Hwl Hrest]].
  apply bind_inv in Hrest. destruct Hrest as [bo1 [_ Hret]].
  injection Hret as _ <-.
  apply (while_loop_post (fun s : nat * heap => Signal.evolves W h (snd s))) in Hwl.
  - apply Hwl.
  - intros [i hh] s1 Hev _ Hb. cbn [snd] in *.
    apply bind_inv in Hb. destruct Hb as [co [Hco Hb]].
    injection Hb as <-. cbn [snd].
    apply evolves_trans with (h2 := hh); [assumption |].
    apply evolves_set with (a := co); [assumption | assumption | apply add_at_length].
  - apply evolves_refl.
Qed.

Lemma overlap_add_channels_evolves fuel output n winSize half outputPos outLen
  blockIn blockOut h blockOut' h' :
  PaulStretch.overlap_add_channels fuel output n winSize half outputPos outLen
    blockIn blockOut h = Some (blockOut', h') ->
  Signal.evolves (Signal.in_output output) h h'.
Proof.
  unfold PaulStretch.overlap_add_channels. intros Hrun.
  apply (for_loop_post
           (fun _ (s : list (list R) * heap) =>
              Signal.evolves (Signal.in_output output) h (snd s))) in Hrun.
  - apply Hrun.
  - apply evolves_refl.
  - intros ch [bo hh] s1 _ Hev Hb. cbn [snd] in *.
    apply bind_inv in Hb. destruct Hb as [l [Hl Hb]].
    apply bind_inv in Hb. destruct Hb as [bi [_ Hb]].
    apply bind_inv in Hb. destruct Hb as [bo0 [_ Hb]].
    apply bind_inv in Hb. destruct Hb as [[bo1 h1] [Hoa Hb]].
    injection Hb as <-. cbn [snd].
    apply evolves_trans with (h2 := hh); [assumption |].
    apply overlap_add_evolves with (W := Signal.in_output output) in Hoa; [assumption |].
    apply getChannelData_in with (ch := ch). assumption.
Qed.

Lemma process_frame_evolves fuel random inputData output n winSize half displacePos
  outLen winArray f f' :
  PaulStretch.process_frame fuel random inputData output n winSize half displacePos
    outLen winArray f = Some f' ->
  Signal.evolves (Signal.in_output output) (PaulStretch.store f) (PaulStretch.store f').
Proof.
  unfold PaulStretch.process_frame. intros Hrun.
  apply bind_inv in Hrun. destruct Hrun as [b1 [_ Hrun]].
  apply bind_inv in Hrun. destruct Hrun as [b2 [_ Hrun]].
  apply bind_inv in Hrun. destruct Hrun as [[[b3 ph] calls] [_ Hrun]].
  apply bind_inv in Hrun. destruct Hrun as [b4 [_ Hrun]].
  apply bind_inv in Hrun. destruct Hrun as [[bo h1] [Hoa Hrun]].
  injection Hrun as <-. cbn [PaulStretch.store].
  apply overlap_add_channels_evolves in Hoa. assumption.
Qed.

Lemma normalize_length l : length (PaulStretch.normalize l) = length l.
Proof.
  unfold PaulStretch.normalize.
  destruct (Sample.positive _); [apply length_map | reflexivity].
Qed.

Lemma normalize_output_evolves output n h h' :
  PaulStretch.normalize_output output n h = Some h' ->
  Signal.evolves (Signal.in_output output) h h'.
Proof.
  unfold PaulStretch.normalize_output. intros Hrun.
  apply (for_loop_post (fun _ (hh : heap) => Signal.evolves (Signal.in_output output) h hh))
    in Hrun.
  - assumption.
  - apply evolves_refl.
  - intros ch hh s1 _ Hev Hb.
    apply bind_inv in Hb. destruct Hb as [l [Hl Hb]].
    apply bind_inv in Hb. destruct Hb as [a [Ha Hb]].
    injection Hb as <-.
    apply evolves_trans with (h2 := hh); [assumption |].
    apply evolves_set with (a := a);
      [apply getChannelData_in with (ch := ch); assumption | assumption |
       apply normalize_length].
Qed.

Lemma overlap_add_blocks_evolves (W : loc -> Prop) fuel winSize half outLen l
  allBlocks h h' :
  PaulStretch.overlap_add_blocks fuel winSize half outLen l allBlocks h = Some h' ->
  W l -> Signal.evolves W h h'.
Proof.
  unfold PaulStretch.overlap_add_blocks. intros Hrun Hw.
  apply bind_inv in Hrun. destruct Hrun as [[[op bo] h1] [Hfo Hret]].
  injection Hret as <-.
  apply (for_of_post (fun s : Q * list R * heap => Signal.evolves W h (snd s))) in Hfo.
  - apply Hfo.
  - apply evolves_refl.
  - intros [block pos] [[op0 bo0] hh] s1 _ Hev Hb. cbn [snd] in *.
    apply bind_inv in Hb. destruct Hb as [[bo1 h2] [Hoa Hb]].
    injection Hb as <-. cbn [snd].
    apply evolves_trans with (h2 := hh); [assumption |].
    apply overlap_add_evolves with (W := W) in Hoa; assumption.
Qed.

Lemma reassemble_channel_evolves (W : loc -> Prop) fuel winSize half outLen l
  allBlocks h h' :
  PaulStretch.reassemble_channel fuel winSize half outLen l allBlocks h = Some h' ->
  W l ->
  Signal.evolves W h h' /\
  exists a, get h' l = Some (PaulStretch.normalize a).
Proof.
  unfold PaulStretch.reassemble_channel. intros Hrun Hw.
  apply bind_inv in Hrun. destruct Hrun as [h1 [Hoa Hrun]].
  apply bind_inv in Hrun. destruct Hrun as [a [Ha Hrun]].
  injection Hrun as <-.
  apply overlap_add_blocks_evolves with (W := W) in Hoa; [| assumption].
  split.
  - apply evolves_trans with (h2 := h1); [assumption |].
    apply evolves_set with (a := a); [assumption | assumption | apply normalize_length].
  - exists a. apply get_set_eq. apply get_in_range in Ha. assumption.
Qed.

Ltac loop_post P H :=
  match type of H with
  | for_loop ?lo ?cnt ?body ?s = Some ?s' =>
      apply (for_loop_post P body cnt lo s s' H)
  end.

Lemma get_seq base n ch l :
  get (seq base n) ch = Some l -> l = (base + ch)%nat /\ (ch < n)%nat.
Proof.
  intros H. pose proof (get_in_range _ _ _ H) as Hlt. rewrite length_seq in Hlt.
  split; [| assumption].
  apply (get_nth _ _ _ O) in H. rewrite seq_nth in H by assumption. lia.
Qed.

Lemma normalize_output_normalized output base n h h' :
  AudioBuffer.channels output = seq base n ->
  PaulStretch.normalize_output output n h = Some h' ->
  forall ch, (ch < n)%nat ->
    exists a, get h (base + ch)%nat = Some a /\
              get h' (base + ch)%nat = Some (PaulStretch.normalize a).
Proof.
  unfold PaulStretch.normalize_output. intros Hch Hrun.
  assert (H : (forall ch, (ch < 0 + n)%nat ->
                 exists a, get h (base + ch)%nat = Some a /\
                           get h' (base + ch)%nat = Some (PaulStretch.normalize a)) /\
              (forall ch, (0 + n <= ch)%nat ->
                 get h' (base + ch)%nat = get h (base + ch)%nat)).
  { loop_post (fun c (hh : heap) =>
                (forall ch, (ch < c)%nat ->
                   exists a, get h (base + ch)%nat = Some a /\
                             get hh (base + ch)%nat = Some (PaulStretch.normalize a)) /\
                (forall ch, (c <= ch)%nat ->
                   get hh (base + ch)%nat = get h (base + ch)%nat)) Hrun.
    - split; [intros ch Hlt; lia | reflexivity].
    - intros c hh s1 Hc [Hinv Hrest] Hb.
      apply bind_inv in Hb. destruct Hb as [l [Hl Hb]].
      apply bind_inv in Hb. destruct Hb as [a [Ha Hb]].
      injection Hb as <-.
      unfold AudioBuffer.getChannelData in Hl. rewrite Hch in Hl.
      apply get_seq in Hl. destruct Hl as [-> _].
      split.
      + intros ch Hlt. destruct (Nat.eq_dec ch c) as [-> | Hne].
        * exists a. split; [rewrite <- Hrest by lia; assumption |].
          apply get_set_eq. apply get_in_range in Ha. assumption.
        * rewrite get_set_neq by lia. apply Hinv. lia.
      + intros ch Hle. rewrite get_set_neq by lia. apply Hrest. lia. }
  intros ch Hlt. apply (proj1 H). lia.
Qed.

Lemma reassemble_evolves fuel output base n winSize half outLen allResults h h' :
  AudioBuffer.channels output = seq base n ->
  PaulStretch.reassemble fuel output n winSize half outLen allResults h = Some h' ->
  Signal.evolves (Signal.in_output output) h h' /\
  forall ch, (ch < n)%nat ->
    exists a, get h' (base + ch)%nat = Some (PaulStretch.normalize a).
Proof.
  unfold PaulStretch.reassemble. intros Hch Hrun.
  loop_post (fun c (hh : heap) =>
              Signal.evolves (Signal.in_output output) h hh /\
              forall ch, (ch < c)%nat ->
                exists a, get hh (base + ch)%nat = Some (PaulStretch.normalize a)) Hrun.
  - split; [apply evolves_refl |]. intros ch Hlt. lia.
  - intros c hh s1 Hc [Hev Hinv] Hb.
    apply bind_inv in Hb. destruct Hb as [l [Hl Hb]].
    apply bind_inv in Hb. destruct Hb as [blocks [_ Hb]].
    pose proof (getChannelData_in output c l Hl) as Hin.
    unfold AudioBuffer.getChannelData in Hl. rewrite Hch in Hl.
    apply get_seq in Hl. destruct Hl as [-> _].
    apply (reassemble_channel_evolves (eq (base + c)%nat)) in Hb; [| reflexivity].
    destruct Hb as [Hev1 [a Ha]].
    split.
    + apply evolves_trans with (h2 := hh); [assumption |].
      apply evolves_weaken with (W := eq (base + c)%nat); [| assumption].
      intros l <-. assumption.
    + intros ch Hlt. destruct (Nat.eq_dec ch c) as [-> | Hne].
      * exists a. assumption.
      * destruct Hev1 as [_ Hev1]. rewrite (proj1 (Hev1 (base + ch)%nat)) by lia.
        apply Hinv. lia.
Qed.

(** [createBuffer] *)
Lemma createBuffer_inr n len sr (h : heap) output h1 :
  AudioBuffer.createBuffer n len sr h = inr (output, h1) ->
  (1 <= n)%nat /\ (1 <= len)%Z /\
  output = AudioBuffer.mk sr (Z.to_nat len) n (seq (length h) n) /\
  h1 = h ++ repeat (Sample.zeros (Z.to_nat len)) n.
Proof.
  unfold AudioBuffer.createBuffer, AudioBuffer.allocate.
  destruct (Nat.eqb_spec n 0); destruct (Z.leb_spec len 0); cbn [orb];
    try discriminate.
  intros Hrun. injection Hrun as <- <-. repeat split; lia.
Qed.

Lemma createBuffer_inl n len sr (h : heap) name :
  AudioBuffer.createBuffer n len sr h = inl name ->
  name = "NotSupportedError"%string /\ (n = O \/ (len <= 0)%Z).
Proof.
  unfold AudioBuffer.createBuffer.
  destruct (Nat.eqb_spec n 0); destruct (Z.leb_spec len 0); cbn [orb];
    try discriminate; intros Hrun; injection Hrun as <-; split; auto.
Qed.

Lemma createBuffer_ok n len sr (h : heap) :
  (1 <= n)%nat -> (1 <= len)%Z ->
  AudioBuffer.createBuffer n len sr h =
  inr (AudioBuffer.mk sr (Z.to_nat len) n (seq (length h) n),
       h ++ repeat (Sample.zeros (Z.to_nat len)) n).
Proof.
  intros Hn Hlen. unfold AudioBuffer.createBuffer, AudioBuffer.allocate.
  destruct (Nat.eqb_spec n 0); [lia |]. destruct (Z.leb_spec len 0); [lia |].
  reflexivity.
Qed.

Lemma get_app_old {A : Type} (h ext : list A) l :
  (l < length h)%nat -> get (h ++ ext) l = get h l.
Proof. intros Hl. unfold get. apply nth_error_app1. assumption. Qed.

Lemma get_app_new (h : heap) a n ch :
  (ch < n)%nat -> get (h ++ repeat a n) (length h + ch)%nat = Some a.
Proof.
  intros Hch. unfold get. rewrite nth_error_app2 by lia.
  replace (length h + ch - length h)%nat with ch by lia.
  rewrite (nth_error_nth' _ a) by (rewrite repeat_length; assumption).
  f_equal. apply nth_repeat.
Qed.

Lemma overlap_add_frames_evolves fuel this random b output h h1 :
  PaulStretch.overlap_add_frames fuel this random b output h = Some h1 ->
  Signal.evolves (Signal.in_output output) h h1.
Proof.
  unfold PaulStretch.overlap_add_frames. cbv zeta. intros Hrun.
  apply bind_inv in Hrun. destruct Hrun as [winArray [_ Hrun]].
  apply bind_inv in Hrun. destruct Hrun as [inputData [_ Hrun]].
  apply bind_inv in Hrun. destruct Hrun as [f [Hloop Hrun]].
  injection Hrun as <-.
  apply (while_loop_post
           (fun f : PaulStretch.frame =>
              Signal.evolves (Signal.in_output output) h (PaulStretch.store f)))
    in Hloop.
  - apply Hloop.
  - intros f0 f1 Hev _ Hb. apply process_frame_evolves in Hb.
    apply evolves_trans with (h2 := PaulStretch.store f0); assumption.
  - apply evolves_refl.
Qed.

(** What a run of [_stretchSingleThread] that ends has done. *)
Lemma stretchSingleThread_inv fuel this random b (h : heap) r h' :
  PaulStretch.stretchSingleThread fuel this random b h = Some (r, h') ->
  let n := AudioBuffer.numberOfChannels b in
  let outLen := PaulStretch.outputLength this b in
  let out := AudioBuffer.mk (AudioBuffer.sampleRate b) (Z.to_nat outLen) n
               (seq (length h) n) in
  let h0 := h ++ repeat (Sample.zeros (Z.to_nat outLen)) n in
  (r = PaulStretch.Thrown (PaulStretch.DOMException "NotSupportedError") /\
   h' = h /\ (n = O \/ (outLen <= 0)%Z)) \/
  ((1 <= n)%nat /\ (1 <= outLen)%Z /\
   r = PaulStretch.Returned out /\
   Signal.evolves (Signal.in_output out) h0 h' /\
   exists h1,
     PaulStretch.overlap_add_frames fuel this random b out h0 = Some h1 /\
     forall ch, (ch < n)%nat ->
       exists a, get h1 (length h + ch)%nat = Some a /\
                 get h' (length h + ch)%nat = Some (PaulStretch.normalize a)).
Proof.
  unfold PaulStretch.stretchSingleThread. cbv zeta. intros Hrun.
  destruct (AudioBuffer.createBuffer _ _ _ h) as [name | [output h0]] eqn:Hc.
  - injection Hrun as <- <-. apply createBuffer_inl in Hc. destruct Hc as [-> Hc].
    left. auto.
  - apply createBuffer_inr in Hc. destruct Hc as [Hn [Hlen [-> ->]]].
    apply bind_inv in Hrun. destruct Hrun as [h1 [Hoa Hrun]].
    apply bind_inv in Hrun. destruct Hrun as [h2 [Hnorm Hrun]].
    injection Hrun as <- <-.
    right. split; [assumption |]. split; [assumption |]. split; [reflexivity |].
    split.
    + apply evolves_trans with (h2 := h1).
      * apply overlap_add_frames_evolves in Hoa. assumption.
      * apply normalize_output_evolves in Hnorm. assumption.
    + exists h1. split; [assumption |].
      apply normalize_output_normalized with (output := AudioBuffer.mk
          (AudioBuffer.sampleRate b) (Z.to_nat (PaulStretch.outputLength this b))
          (AudioBuffer.numberOfChannels b)
          (seq (length h) (AudioBuffer.numberOfChannels b)));
        [reflexivity | assumption].
Qed.

(** ** The stretch returns *)

Section Returns.
Local Open Scope R_scope.

Lemma Math_pow_some x y : 0 <= x -> exists v, Math_pow x y = Some v.
Proof.
  intros Hx. unfold Math_pow.
  destruct (Rlt_dec x 0) as [Hlt | _]; [lra |].
  destruct (Req_dec_T x 0); eauto.
Qed.

Lemma createWindow_some winSize :
  exists winArray,
    PaulStretch.createWindow winSize = Some winArray /\ length winArray = winSize.
Proof.
  unfold PaulStretch.createWindow.
  set (step := 2 / (INR winSize - 1)).
  pose (P := fun (i : nat) (s : list R * R) =>
    length (fst s) = winSize /\ snd s = -1 + INR i * step).
  edestruct (for_loop_inv P) as [[w c] [Hloop [Hl _]]]; cycle 2.
  - rewrite Hloop. cbn [bind]. exists w. split; [reflexivity | exact Hl].
  - split; [apply zeros_length |]. simpl. ring.
  - intros i [w c] Hi [Hl Hc]. cbn [fst snd] in *. simpl in Hi.
    assert (Hb : 0 <= 1 - c * c).
    { subst c. destruct (Nat.eq_dec winSize 1) as [E | Hne].
      - assert (i = O) by lia. subst i. simpl. lra.
      - assert (Hw : 1 < INR winSize).
        { pose proof (lt_INR 1 winSize ltac:(lia)) as Hw. simpl in Hw. exact Hw. }
        assert (Hi' : INR i <= INR winSize - 1).
        { replace (INR winSize - 1) with (INR (winSize - 1)).
          - apply le_INR. lia.
          - rewrite minus_INR by lia. reflexivity. }
        assert (Hi0 : 0 <= INR i) by apply pos_INR.
        assert (Hs : 0 <= INR i * step <= 2).
        { unfold step. split.
          - apply Rmult_le_pos; [assumption |].
            apply Rmult_le_pos; [lra |]. left. apply Rinv_0_lt_compat. lra.
          - apply Rmult_le_reg_r with (r := INR winSize - 1); [lra |].
            unfold Rdiv. rewrite !Rmult_assoc, Rinv_l by lra. lra. }
        nra. }
    destruct (Math_pow_some (1 - c * c) 1.25 Hb) as [v Hv].
    rewrite Hv. cbn [bind]. eexists. split; [reflexivity |].
    split; cbn [fst snd].
    + rewrite set_length. assumption.
    + rewrite Hc, S_INR. ring.
Qed.

Lemma firstn_snoc {A : Type} (l : list A) i d :
  (i < length l)%nat -> firstn (S i) l = (firstn i l ++ [nth i l d])%list.
Proof.
  revert i. induction l as [|x l IH]; intros i Hi; simpl in Hi; [lia |].
  destruct i as [|i]; [reflexivity |].
  cbn [firstn nth app]. f_equal. apply IH. lia.
Qed.

Lemma inputData_some (b : AudioBuffer.t) :
  length (AudioBuffer.channels b) = AudioBuffer.numberOfChannels b ->
  for_loop 0 (AudioBuffer.numberOfChannels b)
    (fun ch inputData =>
       l <- AudioBuffer.getChannelData b ch ;; Some (inputData ++ [l])%list)
    [] = Some (AudioBuffer.channels b).
Proof.
  intros Hl.
  pose (P := fun (i : nat) (s : list loc) => s = firstn i (AudioBuffer.channels b)).
  edestruct (for_loop_inv P) as [s [Hloop HP]]; cycle 2.
  - rewrite Hloop. f_equal. unfold P in HP. simpl in HP. rewrite HP, <- Hl.
    apply firstn_all.
  - reflexivity.
  - intros i s Hi ->. simpl in Hi. unfold AudioBuffer.getChannelData.
    rewrite (get_some_nth (AudioBuffer.channels b) i O) by lia. cbn [bind].
    eexists. split; [reflexivity |]. unfold P.
    rewrite (firstn_snoc (AudioBuffer.channels b) i O) by lia. reflexivity.
Qed.













Lemma num_lt i j : (num i < num j)%Q <-> (i < j)%nat.
Proof.
  unfold num. rewrite <- Zlt_Qlt. lia.
Qed.

Lemma num_le i j : (num i <= num j)%Q <-> (i <= j)%nat.
Proof.
  unfold num. rewrite <- Zle_Qle. lia.
Qed.









Lemma overlapped_length hn op outLen block prev a :
  length (Signal.overlapped hn op outLen block prev a) = length a.
Proof.
  unfold Signal.overlapped. rewrite length_map, length_seq. reflexivity.
Qed.








Lemma winSize_pow2_bounded this sr :
  (2 <= PaulStretch.windowSamples this sr <= 536870912)%Z ->
  exists p, PaulStretch.winSize this sr = (2 ^ S p)%nat /\ (S p <= 29)%nat /\
            (PaulStretch.halfWinSize this sr == num (2 ^ p))%Q.
Proof.
  intros [Hws Hhi]. unfold PaulStretch.halfWinSize, PaulStretch.winSize.
  destruct (pow2_ceil_log2_spec (PaulStretch.windowSamples this sr)) as [E [_ [_ Hp]]];
    [lia |].
  specialize (Hp Hws).
  assert (Hlog : (Z.log2_up (PaulStretch.windowSamples this sr) <= 29)%Z).
  { change 29%Z with (Z.log2_up 536870912). apply Z.log2_up_le_mono. assumption. }
  pose proof (Z.log2_up_nonneg (PaulStretch.windowSamples this sr)) as Hnn.
  destruct (Z.to_nat (Z.log2_up (PaulStretch.windowSamples this sr))) as [|p] eqn:Ep;
    [lia |].
  exists p. rewrite E. split; [reflexivity |]. split; [lia |].
  rewrite Nat.pow_succ_r'. apply half_num.
Qed.






End Returns.

(** ** The parallel path *)

(** What a run of [_stretchParallel] that ends has done to the store. *)
Lemma stretchParallel_inv fuel this e b (h : heap) r h' :
  PaulStretch.stretchParallel fuel this e b h = Some (r, h') ->
  let n := AudioBuffer.numberOfChannels b in
  let outLen := PaulStretch.outputLength this b in
  let out := AudioBuffer.mk (AudioBuffer.sampleRate b) (Z.to_nat outLen) n
               (seq (length h) n) in
  let h0 := h ++ repeat (Sample.zeros (Z.to_nat outLen)) n in
  match r with
  | PaulStretch.Returned o =>
      (1 <= n)%nat /\ (1 <= outLen)%Z /\ o = out /\
      Signal.evolves (Signal.in_output out) h0 h' /\
      forall ch, (ch < n)%nat ->
        exists a, get h' (length h + ch)%nat = Some (PaulStretch.normalize a)
  | PaulStretch.Thrown err =>
      (err = PaulStretch.DOMException "NotSupportedError" /\ h' = h /\
       (n = O \/ (outLen <= 0)%Z)) \/
      ((1 <= n)%nat /\ (1 <= outLen)%Z /\ h' = h0)
  end.
Proof.
  unfold PaulStretch.stretchParallel. cbv zeta. intros Hrun.
  destruct (AudioBuffer.createBuffer _ _ _ h) as [name | [output h0]] eqn:Hc.
  - injection Hrun as <- <-. apply createBuffer_inl in Hc. destruct Hc as [-> Hc].
    left. auto.
  - apply createBuffer_inr in Hc. destruct Hc as [Hn [Hlen [-> ->]]].
    apply bind_inv in Hrun. destruct Hrun as [winArray [_ Hrun]].
    destruct (Qeq_bool _ 0); [discriminate |].
    apply bind_inv in Hrun. destruct Hrun as [queue [_ Hrun]].
    apply bind_inv in Hrun. destruct Hrun as [st [Hst Hrun]].
    destruct (PaulStretch.all st) as [[ms | err] |] eqn:Hall; [| | discriminate].
    + apply bind_inv in Hrun. destruct Hrun as [h2 [Hre Hrun]].
      injection Hrun as <- <-.
      apply reassemble_evolves with (base := length h) in Hre; [| reflexivity].
      destruct Hre as [Hev Hnorm].
      split; [assumption |]. split; [assumption |]. split; [reflexivity |].
      split; assumption.
    + injection Hrun as <- <-. right.
      split; [assumption |]. split; [assumption | reflexivity].
Qed.

(** What a call of [stretch] that ends has done to the store. *)
Lemma stretch_inv fuel this e b (h : heap) r h' :
  PaulStretch.stretch fuel this e (PaulStretch.JsAudioBuffer b) h = Some (r, h') ->
  let n := AudioBuffer.numberOfChannels b in
  let outLen := PaulStretch.outputLength this b in
  let out := AudioBuffer.mk (AudioBuffer.sampleRate b) (Z.to_nat outLen) n
               (seq (length h) n) in
  let h0 := h ++ repeat (Sample.zeros (Z.to_nat outLen)) n in
  match r with
  | PaulStretch.Returned o =>
      (1 <= n)%nat /\ (1 <= outLen)%Z /\ o = out /\
      Signal.evolves (Signal.in_output out) h0 h' /\
      forall ch, (ch < n)%nat ->
        exists a, get h' (length h + ch)%nat = Some (PaulStretch.normalize a)
  | PaulStretch.Thrown err =>
      (err = PaulStretch.DOMException "NotSupportedError" /\ h' = h /\
       (n = O \/ (outLen <= 0)%Z)) \/
      ((1 <= n)%nat /\ (1 <= outLen)%Z /\ h' = h0)
  end.
Proof.
  unfold PaulStretch.stretch.
  destruct (PaulStretch.useWorkers this && (0 <? PaulStretch.workers this)%nat).
  - apply stretchParallel_inv.
  - intros Hrun. apply stretchSingleThread_inv in Hrun. cbv zeta in Hrun |- *.
    destruct Hrun as [[-> [-> Hc]] | [Hn [Hlen [-> [Hev [h1 [_ Hnorm]]]]]]].
    + left. auto.
    + split; [assumption |]. split; [assumption |]. split; [reflexivity |].
      split; [assumption |].
      intros ch Hch. destruct (Hnorm ch Hch) as [a [_ Ha]]. eauto.
Qed.

(** The arrays that were in the store before the call are as they were. *)
Lemma stretch_frame fuel this e v (h : heap) r h' :
  PaulStretch.stretch fuel this e v h = Some (r, h') ->
  forall l, (l < length h)%nat -> get h' l = get h l.
Proof.
  intros Hrun l Hl.
  destruct v as [| | | b]; try (injection Hrun as _ <-; reflexivity).
  apply stretch_inv in Hrun. cbv zeta in Hrun.
  destruct r as [o | err].
  - destruct Hrun as [_ [_ [-> [[_ Hev] _]]]].
    rewrite (proj1 (Hev l)).
    + apply get_app_old. assumption.
    + unfold Signal.in_output. cbn [AudioBuffer.channels]. intros Hin.
      apply in_seq in Hin. lia.
  - destruct Hrun as [[_ [-> _]] | [_ [_ ->]]]; [reflexivity |].
    apply get_app_old. assumption.
Qed.


(** ** An input shorter than the window *)

Lemma set_same {A : Type} (a : list A) i x : get a i = Some x -> set a i x = a.
Proof.
  unfold get. revert i. induction a as [|y a IH]; intros [|i] H; simpl in *;
    try discriminate.
  - injection H as ->. reflexivity.
  - f_equal. apply IH. assumption.
Qed.

Lemma normalize_output_zeros (h0 : heap) len n :
  let output := AudioBuffer.mk 0 len n (seq (length h0) n) in
  let h1 := (h0 ++ repeat (Sample.zeros len) n)%list in
  forall sr,
    PaulStretch.normalize_output (AudioBuffer.mk sr len n (seq (length h0) n)) n h1 =
    Some h1.
Proof.
  intros output h1 sr. unfold PaulStretch.normalize_output.
  edestruct (for_loop_inv (fun (_ : nat) (hh : heap) => hh = h1))
    as [h' [Hloop ->]]; cycle 2.
  - exact Hloop.
  - reflexivity.
  - intros ch hh Hch ->. simpl in Hch. cbv beta.
    unfold AudioBuffer.getChannelData. cbn [AudioBuffer.channels].
    rewrite (get_some_nth _ ch O) by (rewrite length_seq; lia).
    rewrite seq_nth by lia. cbn [bind].
    unfold h1. rewrite get_app_new by lia. cbn [bind].
    rewrite normalize_zeros. eexists. split; [reflexivity |].
    apply set_same. apply get_app_new. lia.
Qed.

Lemma short_input_single fuel this random b (h : heap) :
  length (AudioBuffer.channels b) = AudioBuffer.numberOfChannels b ->
  (1 <= AudioBuffer.numberOfChannels b)%nat ->
  (1 <= PaulStretch.outputLength this b)%Z ->
  (AudioBuffer.length b < PaulStretch.winSize this (AudioBuffer.sampleRate b))%nat ->
  (1 <= fuel)%nat ->
  let n := AudioBuffer.numberOfChannels b in
  let len := Z.to_nat (PaulStretch.outputLength this b) in
  PaulStretch.stretchSingleThread fuel this random b h =
  Some (PaulStretch.Returned
          (AudioBuffer.mk (AudioBuffer.sampleRate b) len n (seq (length h) n)),
        (h ++ repeat (Sample.zeros len) n)%list).
Proof.
  intros Hch Hn Hout Hshort Hfuel n len.
  unfold PaulStretch.stretchSingleThread. cbv zeta.
  rewrite createBuffer_ok by assumption.
  unfold PaulStretch.overlap_add_frames. cbv zeta.
  destruct (createWindow_some (PaulStretch.winSize this (AudioBuffer.sampleRate b)))
    as [winArray [Ew _]].
  rewrite Ew. cbn [bind]. rewrite inputData_some by assumption. cbn [bind].
  destruct fuel as [|fuel]; [lia |]. cbn [while_loop PaulStretch.inputPos].
  assert (Hc : Qle_bool (0 + num (PaulStretch.winSize this (AudioBuffer.sampleRate b)))
                 (num (AudioBuffer.length b)) = false).
  { destruct (Qle_bool _ _) eqn:E; [| reflexivity].
    apply Qle_bool_iff in E. rewrite Qplus_0_l in E. apply num_le in E. lia. }
  rewrite Hc. cbn [bind PaulStretch.store].
  fold n len. rewrite (normalize_output_zeros h len n). reflexivity.
Qed.

Lemma Qfloor_neg x : (x < 0)%Q -> (Qfloor x < 0)%Z.
Proof.
  intros Hx. pose proof (Qfloor_le x) as Hfl.
  assert (H : (inject_Z (Qfloor x) < inject_Z 0)%Q)
    by (apply Qle_lt_trans with (y := x); assumption).
  rewrite <- Zlt_Qlt in H. assumption.
Qed.

Lemma chunk_channel_none fuel inputData dp total ideal W sf winArray ch queue :
  (total <= 0)%Z -> (1 <= fuel)%nat ->
  PaulStretch.chunk_channel fuel inputData dp total ideal W sf winArray ch queue =
  Some queue.
Proof.
  intros Ht Hf. unfold PaulStretch.chunk_channel.
  destruct fuel as [|fuel]; [lia |]. cbn [while_loop].
  destruct (Z.ltb_spec 0 total) as [Hlt | _]; [lia |]. reflexivity.
Qed.

Lemma await_all_settled fuel e c queue st :
  PaulStretch.all st <> None -> PaulStretch.await_all fuel e c queue st = Some st.
Proof.
  intros Hs. unfold PaulStretch.await_all.
  induction (PaulStretch.arrival e) as [|t l IH]; [reflexivity |].
  cbn [PaulStretch.for_of]. destruct (PaulStretch.all st); [| contradiction].
  cbn [bind]. assumption.
Qed.

Lemma reassemble_nothing fuel (h0 : heap) sr len n W half outLen :
  let h1 := (h0 ++ repeat (Sample.zeros len) n)%list in
  PaulStretch.reassemble fuel (AudioBuffer.mk sr len n (seq (length h0) n)) n W half
    outLen [] h1 = Some h1.
Proof.
  intros h1. unfold PaulStretch.reassemble.
  edestruct (for_loop_inv (fun (_ : nat) (hh : heap) => hh = h1))
    as [h' [Hloop ->]]; cycle 2.
  - exact Hloop.
  - reflexivity.
  - intros ch hh Hch ->. simpl in Hch. cbv beta.
    unfold AudioBuffer.getChannelData. cbn [AudioBuffer.channels filter].
    rewrite (get_some_nth _ ch O) by (rewrite length_seq; lia).
    rewrite seq_nth by lia. cbn [bind].
    cbn [PaulStretch.collect_blocks PaulStretch.for_of bind].
    unfold PaulStretch.reassemble_channel, PaulStretch.overlap_add_blocks.
    cbn [PaulStretch.sort_by_pos PaulStretch.for_of bind].
    unfold h1. rewrite get_app_new by lia. cbn [bind].
    rewrite normalize_zeros. eexists. split; [reflexivity |].
    apply set_same. apply get_app_new. lia.
Qed.

Lemma short_input_parallel fuel this e b (h : heap) :
  AudioBuffer.wf h b ->
  (1 <= PaulStretch.outputLength this b)%Z ->
  (AudioBuffer.length b < PaulStretch.winSize this (AudioBuffer.sampleRate b))%nat ->
  (0 < PaulStretch.stretchFactor this)%Q ->
  (1 <= fuel)%nat ->
  let n := AudioBuffer.numberOfChannels b in
  let len := Z.to_nat (PaulStretch.outputLength this b) in
  PaulStretch.stretchParallel fuel this e b h =
  Some (PaulStretch.Returned
          (AudioBuffer.mk (AudioBuffer.sampleRate b) len n (seq (length h) n)),
        (h ++ repeat (Sample.zeros len) n)%list).
Proof.
  intros [Hch [Hn Hwf]] Hout Hshort Hsf Hfuel n len.
  unfold PaulStretch.stretchParallel. cbv zeta.
  rewrite createBuffer_ok by assumption.
  set (W := PaulStretch.winSize this (AudioBuffer.sampleRate b)) in *.
  set (half := PaulStretch.halfWinSize this (AudioBuffer.sampleRate b)).
  set (dp := (half / PaulStretch.stretchFactor this)%Q).
  destruct (createWindow_some W) as [winArray [Ew _]].
  rewrite Ew. cbn [bind].
  assert (Hhalf : (0 < half)%Q).
  { unfold half, PaulStretch.halfWinSize. fold W.
    apply Qlt_shift_div_l; [reflexivity |]. rewrite Qmult_0_l.
    change 0%Q with (num 0). apply num_lt. lia. }
  assert (Hdp : (0 < dp)%Q).
  { unfold dp. apply Qlt_shift_div_l; [assumption |]. rewrite Qmult_0_l. assumption. }
  assert (Hne : Qeq_bool dp 0 = false).
  { destruct (Qeq_bool dp 0) eqn:E; [| reflexivity].
    apply Qeq_bool_iff in E. rewrite E in Hdp. exfalso. apply (Qlt_irrefl _ Hdp). }
  rewrite Hne.
  assert (Htot : (Qfloor ((num (AudioBuffer.length b) - num W) / dp) <= 0)%Z).
  { apply Z.lt_le_incl. apply Qfloor_neg.
    apply Qlt_shift_div_r; [assumption |]. rewrite Qmult_0_l.
    apply (Qplus_lt_l _ _ (num W)). ring_simplify. apply num_lt. assumption. }
  assert (Hq : PaulStretch.work_queue fuel this b winArray
                 (h ++ repeat (Sample.zeros len) n) = Some []).
  { unfold PaulStretch.work_queue. fold W half dp.
    edestruct (for_loop_inv (fun (_ : nat) (q : list PaulStretch.workUnit) => q = []))
      as [q [Hloop ->]]; cycle 2.
    - exact Hloop.
    - reflexivity.
    - intros ch q Hc ->. simpl in Hc. cbv beta.
      unfold AudioBuffer.getChannelData.
      rewrite (get_some_nth (AudioBuffer.channels b) ch O) by lia. cbn [bind].
      destruct (Hwf ch (nth ch (AudioBuffer.channels b) O)) as [a [Ha _]];
        [apply get_some_nth; lia |].
      rewrite get_app_old by (apply get_in_range in Ha; assumption).
      rewrite Ha. cbn [bind].
      rewrite chunk_channel_none by assumption. eauto. }
  fold n len. rewrite Hq. cbn [bind length repeat seq combine].
  rewrite await_all_settled by (cbn [PaulStretch.all]; discriminate).
  cbn [bind PaulStretch.all].
  rewrite reassemble_nothing. reflexivity.
Qed.

(** ** Awaiting the workers *)














(** ** The parallel stretch returns *)

Section ParallelReturns.
Local Open Scope R_scope.















End ParallelReturns.

(** The loop that writes the result of the rephaser back into [array]. *)


(** ** The overlap-add in closed form *)

Section OverlapAdd.
Local Open Scope R_scope.













End OverlapAdd.

(** ** The output channels hold numbers *)

Section Numbers.
Local Open Scope R_scope.









End Numbers.

(** ** The blocks of the workers *)

Section Blocks.
Local Open Scope R_scope.







End Blocks.

(** * The claims on the rephaser *)

Section RephaserClaim.
Local Open Scope R_scope.







End RephaserClaim.

(** * The claims on the window size *)

(** C10, as the code has it.  When [floor(windowSize * sampleRate)], the
    product being rounded as the code rounds it, is a count [n] of samples
    with [2 <= n <= 2^29], the [winSize] of [stretch] is [2] raised to the
    ceiling of [log2 n] (the integer [e] with [e - 1 < log2 n <= e]): a
    power of two that is not below [n], at least [2] and at most [2^29], so
    that [halfWinSize = winSize / 2] is an integer and the radix-2 FFT of
    that size returns the transform.  [_nextPowerOf2] is the same
    expression. *)
Theorem winSize_is_power_of_two (this : PaulStretch.t) (sr : Q) :
  (2 <= PaulStretch.windowSamples this sr <= 536870912)%Z ->
  let n := PaulStretch.windowSamples this sr in
  let winSize := PaulStretch.winSize this sr in
  n = Qfloor (Double.mul (PaulStretch.windowSize this) sr) /\
  (IZR (Z.log2_up n) - 1 < ln (IZR n) / ln 2 <= IZR (Z.log2_up n))%R /\
  winSize = (2 ^ Z.to_nat (Z.log2_up n))%nat /\
  PaulStretchFFT.nextPowerOf2 n = winSize /\
  (n <= Z.of_nat winSize)%Z /\
  (exists p, winSize = (2 ^ S p)%nat /\ (S p <= 29)%nat /\
             (PaulStretch.halfWinSize this sr == num (2 ^ p))%Q /\
             index_of (PaulStretch.halfWinSize this sr) = Some (2 ^ p)%nat) /\
  (forall fuel real imag,
     length real = winSize -> length imag = winSize -> (winSize < fuel)%nat ->
     let X := DFT.dft winSize (DFT.view real imag) in
     FFT.forward fuel (FFT.new winSize) real imag =
       Some (DFT.reals winSize X, DFT.imags winSize X)).
Proof.
  intros Hn n winSize.
  destruct (pow2_ceil_log2_spec n) as [E [Hle [_ _]]]; [unfold n; lia |].
  cbv zeta in E, Hle.
  change (pow2_ceil_log2 n) with winSize in E.
  split; [reflexivity |].
  split; [apply log2_up_is_ceiling; unfold n; lia |].
  split; [exact E |]. split; [reflexivity |].
  split; [rewrite E; exact Hle |].
  destruct (winSize_pow2_bounded this sr Hn) as [p [Ep [Hp29 Eh]]].
  fold winSize in Ep.
  split.
  - exists p. split; [exact Ep |]. split; [exact Hp29 |]. split; [exact Eh |].
    apply index_of_num. exact Eh.
  - intros fuel real imag Hr Hi Hf X. subst X. revert Hr Hi Hf. rewrite Ep.
    apply forward_correct. exact Hp29.
Qed.

Lemma winSize_is_power_of_two_witness :
  PaulStretch.winSize (PaulStretch.mk 8 (1 # 4) false 0 0) 44100 = (2 ^ 14)%nat.
Proof.
  refine (proj1 (proj2 (proj2 (winSize_is_power_of_two
                                 (PaulStretch.mk 8 (1 # 4) false 0 0) 44100 _)))).
  vm_compute. split; discriminate.
Defined.

(** C10, as the specification states it, fails on a window of one sample
    ([windowSize = 2^-15] seconds at 48000 Hz, a product of [1.46..]):
    [winSize] is [2^0 = 1], and [halfWinSize] is [1/2], which is no integer
    and the index of no element. *)
Lemma winSize_one_has_no_half :
  let this := PaulStretch.mk 8 (1 # 32768) false 0 0 in
  PaulStretch.windowSamples this 48000 = 1%Z /\
  PaulStretch.winSize this 48000 = 1%nat /\
  (PaulStretch.halfWinSize this 48000 == 1 # 2)%Q /\
  index_of (PaulStretch.halfWinSize this 48000) = None /\
  forall z : Z, ~ (PaulStretch.halfWinSize this 48000 == inject_Z z)%Q.
Proof.
  cbv zeta.
  assert (Ews : PaulStretch.windowSamples (PaulStretch.mk 8 (1 # 32768) false 0 0)
                  48000 = 1%Z) by (vm_compute; reflexivity).
  assert (EW : PaulStretch.winSize (PaulStretch.mk 8 (1 # 32768) false 0 0)
                 48000 = 1%nat).
  { unfold PaulStretch.winSize. rewrite Ews. reflexivity. }
  split; [exact Ews |]. split; [exact EW |].
  unfold PaulStretch.halfWinSize. rewrite EW.
  split; [reflexivity |]. split; [reflexivity |].
  intros z. unfold Qeq, num. simpl. lia.
Qed.

(** * The output of [stretch] before and after normalisation *)

Section Normalized.
Local Open Scope R_scope.







End Normalized.

(** * The claims on [stretch] *)

Lemma stretch_short_input fuel this e b (h : heap) :
  AudioBuffer.wf h b ->
  (AudioBuffer.length b < PaulStretch.winSize this (AudioBuffer.sampleRate b))%nat ->
  (0 < PaulStretch.stretchFactor this)%Q ->
  (1 <= PaulStretch.outputLength this b)%Z ->
  (1 <= fuel)%nat ->
  let n := AudioBuffer.numberOfChannels b in
  let len := Z.to_nat (PaulStretch.outputLength this b) in
  PaulStretch.stretch fuel this e (PaulStretch.JsAudioBuffer b) h =
  Some (PaulStretch.Returned
          (AudioBuffer.mk (AudioBuffer.sampleRate b) len n (seq (length h) n)),
        (h ++ repeat (Sample.zeros len) n)%list).
Proof.
  intros Hwf Hshort Hsf Hout Hfuel n len. unfold PaulStretch.stretch.
  destruct (PaulStretch.useWorkers this && (0 <? PaulStretch.workers this)%nat).
  - apply short_input_parallel; assumption.
  - apply short_input_single; try assumption; apply Hwf.
Qed.

(** A mono buffer of one sample at 8000 Hz. *)
Lemma example_wf :
  AudioBuffer.wf [[Num 1]] (AudioBuffer.mk 8000 1 1 [0%nat]).
Proof.
  split; [reflexivity |]. split; [apply le_n |].
  intros [|[|ch]] l Hg; try discriminate.
  injection Hg as <-. exists [Num 1]. split; reflexivity.
Qed.

(** Stretched twice with a window of half a second: 4000 samples, a
    transform of 4096. *)
Lemma example_run e :
  PaulStretch.stretch 1 (PaulStretch.mk 2 (1 # 2) false 0 0) e
    (PaulStretch.JsAudioBuffer (AudioBuffer.mk 8000 1 1 [0%nat])) [[Num 1]] =
  Some (PaulStretch.Returned (AudioBuffer.mk 8000 2 1 [1%nat]),
        [[Num 1]; [Num 0; Num 0]]).
Proof.
  apply (stretch_short_input 1 (PaulStretch.mk 2 (1 # 2) false 0 0) e
           (AudioBuffer.mk 8000 1 1 [0%nat]) [[Num 1]] example_wf).
  - vm_compute. apply le_n_S, le_n_S, Nat.le_0_l.
  - reflexivity.
  - vm_compute. discriminate.
  - apply le_n.
Qed.





(** C9. [stretch] does not modify its input: when the call ends, by a
    return or by a throw, on either path, every channel of the input holds
    the samples it held before, as does every array that was in the store. *)
Theorem stretch_preserves_input fuel this e b (h : heap) r h' :
  AudioBuffer.wf h b ->
  PaulStretch.stretch fuel this e (PaulStretch.JsAudioBuffer b) h = Some (r, h') ->
  (forall ch, AudioBuffer.samples h' b ch = AudioBuffer.samples h b ch) /\
  (forall l a, get h l = Some a -> get h' l = Some a).
Proof.
  intros [_ [_ Hwf]] Hrun.
  pose proof (stretch_frame _ _ _ _ _ _ _ Hrun) as Hfr.
  assert (Hold : forall l a, get h l = Some a -> get h' l = Some a).
  { intros l a Hg. rewrite Hfr; [assumption |].
    apply get_in_range in Hg. assumption. }
  split; [| exact Hold].
  intros ch. unfold AudioBuffer.samples, AudioBuffer.getChannelData.
  destruct (get (AudioBuffer.channels b) ch) as [l |] eqn:Hl; [| reflexivity].
  cbn [bind]. destruct (Hwf ch l Hl) as [a [Ha _]].
  rewrite Ha. apply Hold. assumption.
Qed.

Lemma stretch_preserves_input_witness :
  AudioBuffer.samples [[Num 1]; [Num 0; Num 0]] (AudioBuffer.mk 8000 1 1 [0%nat]) 0 =
  AudioBuffer.samples [[Num 1]] (AudioBuffer.mk 8000 1 1 [0%nat]) 0.
Proof.
  exact (proj1 (stretch_preserves_input 1 (PaulStretch.mk 2 (1 # 2) false 0 0)
                  (PaulStretch.mkEnv (fun _ _ => 0%R) (fun _ => None) []
                                     (fun _ => 0%R))
                  (AudioBuffer.mk 8000 1 1 [0%nat]) [[Num 1]] _ _
                  example_wf (example_run _)) O).
Defined.




Section NormalizedClaim.
Local Open Scope R_scope.




End NormalizedClaim.

Section ErrorClaim.
Local Open Scope R_scope.






End ErrorClaim.

(** ** The order of arrival *)



Section ReassemblyClaim.
Local Open Scope R_scope.



End ReassemblyClaim.

(** The product [audioBuffer.length * this.stretchFactor] is the one of the
    doubles: for 20 frames and the double nearest to 1.15 it is 23, where
    the product of the two numbers is a little less. *)
Lemma outputLength_rounds :
  let factor := (5179139571476070 # 4503599627370496)%Q in
  PaulStretch.outputLength (PaulStretch.mk factor (1 # 4) false 0 0)
    (AudioBuffer.mk 8000 20 1 [0%nat]) = 23%Z /\
  Qfloor (num 20 * factor) = 22%Z.
Proof. vm_compute. split; reflexivity. Qed.


